(** * Chat_OpenSource: streaming ingestion and upload manager

    A shallow embedding of
      - [chat/services/streamingService.ts] ([startStreaming],
        [mockStreaming], [delay], [reconnectWithBackoff], [parseSseLine]),
      - [chat/hooks/useStreaming.ts] ([startStream], [stopStream], [retry],
        [clearError] and the three handlers),
      - [chat/hooks/useFileUpload.ts] ([uploadFiles], [updateFile],
        [processFileUpload], [deleteFile], [retryUpload], [cancelUpload],
        [clearAllFiles]),
      - [chat/services/mockApiService.ts] ([uploadFile]) and
      - [utils/helpers.ts], [utils/constants.ts] ([validateFile],
        [getErrorMessage], [truncate], [slugify], [getFileExtension],
        [unique], [chunk], [retry], the upload constants),
    together with the properties of the specification that concern them
    and further properties of the same code.

    Asynchronous code is written in a small monad that threads a state,
    accumulates the trace of observable events (callback invocations,
    console output, timers, requests) and propagates thrown values, so
    that [try]/[catch] of the source has a direct counterpart. *)

From Stdlib Require Import ZArith NArith String Ascii Strings.Byte DecimalString.
From stdpp Require Import base option list gmap strings.

#[local] Set Warnings "-register-all,-clear-no-such-hyp".

Local Open Scope Z_scope.
Local Open Scope list_scope.

(** ** JavaScript values that cross the modelled code *)

(** A JavaScript string is a sequence of UTF-16 code units. *)
Definition codeunit := N.
Definition jsstring := list codeunit.

(** [lit s] is the JavaScript string literal with the characters of [s]. *)
Definition lit (s : string) : jsstring :=
  map N_of_ascii (list_ascii_of_string s).

Definition jsstring_eqb (a b : jsstring) : bool := bool_decide (a = b).

(** What [JSON.parse] returns, and what the mock service builds with object
    literals.  Numbers that occur here are integer time stamps. *)
Inductive JSON : Type :=
  | JNull
  | JBool (b : bool)
  | JNum (n : Z)
  | JStr (s : jsstring)
  | JArr (items : list JSON)
  | JObj (fields : list (jsstring * JSON)).

(** A value that can be thrown.  [JsError] stands for every instance of
    [Error], including [DOMException]; it carries [name] and [message]. *)
Inductive Thrown : Type :=
  | JsError (name message : string)
  | JsString (s : string)
  | JsOther.

Definition instanceof_Error (e : Thrown) : bool :=
  match e with JsError _ _ => true | _ => false end.

(** [error instanceof Error && error.name === 'AbortError'] *)
Definition is_AbortError (e : Thrown) : bool :=
  match e with
  | JsError name _ => bool_decide (name = "AbortError"%string)
  | _ => false
  end.

(** [new DOMException('Aborted', 'AbortError')] *)
Definition AbortError : Thrown := JsError "AbortError" "Aborted".

(** helpers.ts, [getErrorMessage] *)
Definition getErrorMessage (error : Thrown) : string :=
  match error with
  | JsError _ message => message
  | JsString s => s
  | JsOther => "An unknown error occurred"
  end.

(** [error instanceof Error ? error : new Error(getErrorMessage(error))] *)
Definition asError (error : Thrown) : Thrown :=
  if instanceof_Error error then error
  else JsError "Error" (getErrorMessage error).

(** ** The monad of the asynchronous code

    A computation runs from a state of type [S], emits events of type [E]
    and ends with a value or with a thrown value. *)

Record Res (E S A : Type) : Type := Result {
  trace : list E;
  final : S;
  outcome : A + Thrown
}.
Arguments Result {E S A} _ _ _.
Arguments trace {E S A} _.
Arguments final {E S A} _.
Arguments outcome {E S A} _.

Definition M (E S A : Type) : Type := S → Res E S A.

(** [after t r] is [r] with the events [t] in front. *)
Definition after {E S A} (t : list E) (r : Res E S A) : Res E S A :=
  Result (t ++ trace r) (final r) (outcome r).

Definition ret {E S A} (a : A) : M E S A := λ s, Result [] s (inl a).

Definition bind {E S A B} (m : M E S A) (k : A → M E S B) : M E S B :=
  λ s, match outcome (m s) with
       | inl a => after (trace (m s)) (k a (final (m s)))
       | inr e => Result (trace (m s)) (final (m s)) (inr e)
       end.

Definition throw {E S A} (e : Thrown) : M E S A := λ s, Result [] s (inr e).

(** [try { m } catch (error) { h error }] *)
Definition try_catch {E S A} (m : M E S A) (h : Thrown → M E S A) : M E S A :=
  λ s, match outcome (m s) with
       | inl a => m s
       | inr e => after (trace (m s)) (h e (final (m s)))
       end.

Definition emit {E S} (ev : E) : M E S unit := λ s, Result [ev] s (inl tt).
Definition get {E S} : M E S S := λ s, Result [] s (inl s).
Definition put {E S} (s : S) : M E S unit := λ _, Result [] s (inl tt).
Definition modify {E S} (f : S → S) : M E S unit := λ s, Result [] (f s) (inl tt).

#[global] Instance M_ret {E S} : MRet (M E S) := λ A, @ret E S A.
#[global] Instance M_bind {E S} : MBind (M E S) := λ A B k m, bind m k.

(** [for (const x of l) body x] *)
Fixpoint for_each {E S A} (body : A → M E S unit) (l : list A) : M E S unit :=
  match l with
  | [] => ret tt
  | x :: l' => body x ;; for_each body l'
  end.

(** An optional callback, invoked as [cb?.(x)]. *)
Definition call_opt {E S A} (cb : option (A → M E S unit)) (x : A) : M E S unit :=
  match cb with
  | Some f => f x
  | None => ret tt
  end.

(** A callback of the application that uses a hook: it returns or throws.
    Calls from such a callback back into the hook are outside the model. *)
Definition Callback (A : Type) : Type := A → option Thrown.

(** [cb?.(x)] for an optional callback of the application; [ev] records
    the invocation. *)
Definition notify {E S A} (cb : option (Callback A)) (ev : E) (x : A) : M E S unit :=
  match cb with
  | Some f =>
      emit ev ;;
      match f x with
      | Some e => throw e
      | None => ret tt
      end
  | None => ret tt
  end.

(** A computation of a component that has its own events, run inside one
    whose events are [E]. *)
Definition lift {X E S A} (inj : X → E) (m : M X S A) : M E S A :=
  λ s, Result (map inj (trace (m s))) (final (m s)) (outcome (m s)).

(** Whether the computation returned normally. *)
Definition returned {E S A} (r : Res E S A) : bool :=
  match outcome r with inl _ => true | inr _ => false end.

(** ** Text handling of the streaming loop *)

Definition LF : codeunit := 10%N.

(** [s.split(sep)] for a separator of one code unit: the pieces between
    the separators, one more than there are separators. *)
Fixpoint split (sep : codeunit) (s : jsstring) : list jsstring :=
  match s with
  | [] => [[]]
  | c :: s' =>
      if N.eqb c sep then [] :: split sep s'
      else match split sep s' with
           | l :: ls => (c :: l) :: ls
           | [] => [[c]]
           end
  end.

(** [lines.pop()]: the array without its last element, and that element
    ([undefined] on an empty array). *)
Definition pop {A} (l : list A) : list A * option A := (removelast l, last l).

(** [x || ''] on a string-or-undefined [x] *)
Definition or_empty (x : option jsstring) : jsstring := default [] x.

(** ECMAScript WhiteSpace and LineTerminator code points: what
    [String.prototype.trim] strips and what [\s] matches. *)
Definition isWhiteSpace (c : codeunit) : bool :=
  let at_ n := N.eqb c n in
  (at_ 9 || at_ 10 || at_ 11 || at_ 12 || at_ 13 || at_ 32 || at_ 160
   || at_ 5760 || (N.leb 8192 c && N.leb c 8202)
   || at_ 8232 || at_ 8233 || at_ 8239 || at_ 8287 || at_ 12288
   || at_ 65279)%N.

Fixpoint trimStart (s : jsstring) : jsstring :=
  match s with
  | c :: s' => if isWhiteSpace c then trimStart s' else s
  | [] => []
  end.

Definition trim (s : jsstring) : jsstring :=
  reverse (trimStart (reverse (trimStart s))).

(** [!s] on a string *)
Definition is_empty (s : jsstring) : bool :=
  match s with [] => true | _ => false end.

(** [s.startsWith(p)], returning what follows the prefix *)
Fixpoint drop_prefix (p s : jsstring) : option jsstring :=
  match p, s with
  | [], _ => Some s
  | a :: p', b :: s' => if N.eqb a b then drop_prefix p' s' else None
  | _ :: _, [] => None
  end.

(** [line.replace(/^data:\s*/, '')] *)
Definition strip_data_prefix (line : jsstring) : jsstring :=
  match drop_prefix (lit "data:") line with
  | Some rest => trimStart rest
  | None => line
  end.

(** The value under a key of an object; the keys of an object are
    distinct. *)
Fixpoint assoc (key : jsstring) (fields : list (jsstring * JSON)) : option JSON :=
  match fields with
  | [] => None
  | (k, v) :: rest => if jsstring_eqb k key then Some v else assoc key rest
  end.

(** Reading a property, [v.key], for the keys that the code reads
    ([type], [threadId], [content]): a [TypeError] on [null], [undefined]
    ([None]) on the other values that are not objects. *)
Definition get_prop (v : JSON) (key : jsstring) : option JSON + Thrown :=
  match v with
  | JNull => inr (JsError "TypeError" "Cannot read properties of null")
  | JObj fields => inl (assoc key fields)
  | _ => inl None
  end.

(** [v === 'literal'] *)
Definition is_str (v : option JSON) (s : string) : bool :=
  match v with
  | Some (JStr x) => jsstring_eqb x (lit s)
  | _ => false
  end.

(** ** The platform

    [TextDecoder] and [JSON.parse] belong to the host, not to the
    repository.  A decoder used with [{ stream: true }] is a transducer
    that consumes one byte at a time and keeps its state between calls;
    [JSON.parse] returns a value or throws. *)
Record Platform : Type := {
  DecoderState : Type;
  decoder_init : DecoderState;
  decoder_step : DecoderState → byte → DecoderState * jsstring;
  JSON_parse : jsstring → JSON + Thrown
}.

(** [decoder.decode(value, { stream: true })] *)
Fixpoint decode (P : Platform) (d : DecoderState P) (value : list byte)
  : DecoderState P * jsstring :=
  match value with
  | [] => (d, [])
  | b :: rest =>
      let (d1, out1) := decoder_step P d b in
      let (d2, out2) := decode P d1 rest in
      (d2, out1 ++ out2)
  end.

(** ** streamingService.ts *)

Module Streaming.

(** The data of [IStreamingConfig] other than the endpoint. *)
Record StreamRequest : Type := {
  message : jsstring;
  threadId : jsstring;
  uploadedFiles : option (list JSON);
  isNewChat : option bool;
  productMode : option jsstring
}.

Record RequestBody : Type := {
  rb_message : jsstring;
  rb_threadId : jsstring;
  rb_uploadedFiles : list JSON;
  rb_isNewChat : bool;
  rb_productMode : jsstring
}.

(** What the service does that can be observed: the request, the
    invocations of the four callbacks, console output and timers.
    [Consumer x] is an event [x] of the consumer, emitted while one of its
    callbacks runs. *)
Inductive StreamEvent (X : Type) : Type :=
  | Fetch (endpoint : jsstring) (body : RequestBody)
  | OnChunk (chunk : JSON)
  | OnThreadIdChange (threadId : option JSON)
  | OnComplete
  | OnError (error : Thrown)
  | ConsoleWarn (line : jsstring) (error : Thrown)
  | ConsoleLog (msg : string)
  | SetTimeout (ms : Z)
  | Consumer (x : X).
Arguments Fetch {X} _ _.
Arguments OnChunk {X} _.
Arguments OnThreadIdChange {X} _.
Arguments OnComplete {X}.
Arguments OnError {X} _.
Arguments ConsoleWarn {X} _ _.
Arguments ConsoleLog {X} _.
Arguments SetTimeout {X} _.
Arguments Consumer {X} _.

(** [IStreamingConfig & StreamingOptions].  The callbacks are computations
    of the consumer, with its events [X] and its state [S]: they may
    change that state and may throw.  The [signal] is represented by what
    the transport and the timers do when it is aborted (see
    [FetchOutcome] and [delay]). *)
Record StreamingConfig (X S : Type) : Type := {
  endpoint : jsstring;
  request : StreamRequest;
  onThreadIdChange : option (option JSON → M X S unit);
  onChunk : JSON → M X S unit;
  onComplete : unit → M X S unit;
  onError : Thrown → M X S unit
}.
Arguments endpoint {X S} _.
Arguments request {X S} _.
Arguments onThreadIdChange {X S} _.
Arguments onChunk {X S} _.
Arguments onComplete {X S} _.
Arguments onError {X S} _.

(** What the network does to one request.  [reader.read()] yields the
    fragments in turn and then reports the end of the stream or rejects;
    aborting the signal makes the pending [fetch] or [read] reject with
    the [AbortError] exception ([abort()] is called without a reason
    everywhere in the repository). *)
Inductive ReadEnd : Type :=
  | ReadDone
  | ReadRejects (e : Thrown).

Record Body : Type := {
  fragments : list (list byte);
  ending : ReadEnd
}.

Inductive FetchOutcome : Type :=
  | FetchRejects (e : Thrown)
  | FetchResponds (status : N) (body : option Body).

(** [response.ok] *)
Definition response_ok (status : N) : bool :=
  (N.leb 200 status && N.leb status 299)%N.

(** How a session ended; the source returns nothing, the model returns the
    branch that was taken. *)
Inductive Termination : Type :=
  | Completed
  | Cancelled
  | Failed.

(** [options.maxRetries] and the like of [reconnectWithBackoff]; [None] is
    an absent key. *)
Record BackoffOptions : Type := {
  maxRetries : option nat;
  initialDelay : option Z;
  maxDelay : option Z;
  multiplier : option Z
}.

(** What one round of the retry loop decides. *)
Inductive LoopStep : Type :=
  | Return
  | Continue (delay : Z) (lastError : Thrown).

Definition show_Z (z : Z) : string := NilEmpty.string_of_int (Z.to_int z).
Definition show_nat (n : nat) : string := NilEmpty.string_of_uint (Nat.to_uint n).

Section Service.
Context {X St : Type}.
Variable P : Platform.
Variable config : StreamingConfig X St.

Local Abbreviation Task := (M (StreamEvent X) St).

(** A callback of the consumer, run by the service. *)
Definition consumer {A} (m : M X St A) : Task A := lift Consumer m.

(** Body of [for (const line of lines)], lines 115-131. *)
Definition process_line (line : jsstring) : Task unit :=
  if is_empty (trim line) then ret tt
  else
    try_catch
      (let cleanedLine := strip_data_prefix line in
       match JSON_parse P cleanedLine with
       | inr e => throw e
       | inl chunk =>
           emit (OnChunk chunk) ;;
           consumer (onChunk config chunk) ;;
           match get_prop chunk (lit "type") with
           | inr e => throw e
           | inl ty =>
               match is_str ty "thread_id", onThreadIdChange config with
               | true, Some cb =>
                   match get_prop chunk (lit "threadId") with
                   | inr e => throw e
                   | inl tid => emit (OnThreadIdChange tid) ;; consumer (cb tid)
                   end
               | _, _ => ret tt
               end
           end
       end)
      (λ error, emit (ConsoleWarn line error)).

(** The [while (true)] loop, lines 98-133, over what [reader.read()]
    returns. *)
Fixpoint read_loop (d : DecoderState P) (buffer : jsstring)
    (frags : list (list byte)) (fin : ReadEnd) : Task unit :=
  match frags with
  | [] =>
      match fin with
      | ReadDone => emit OnComplete ;; consumer (onComplete config tt)
      | ReadRejects e => throw e
      end
  | value :: rest =>
      let (d', text) := decode P d value in
      let buffer1 := buffer ++ text in
      let (lines, popped) := pop (split LF buffer1) in
      let buffer2 := or_empty popped in
      for_each process_line lines ;;
      read_loop d' buffer2 rest fin
  end.

Definition requestBody : RequestBody := {|
  rb_message := message (request config);
  rb_threadId := threadId (request config);
  rb_uploadedFiles := default [] (uploadedFiles (request config));
  rb_isNewChat := default false (isNewChat (request config));
  rb_productMode := default (lit "general") (productMode (request config))
|}.

Definition http_error (status : N) : Thrown :=
  JsError "Error"
    ("HTTP error! status: " +:+ NilEmpty.string_of_uint (N.to_uint status)).

(** The [catch] of [startStreaming] (lines 134-143) and of [mockStreaming]
    (lines 263-269); [msg] is what is logged for an abort. *)
Definition on_failure (msg : string) (error : Thrown) : Task Termination :=
  if is_AbortError error then
    emit (ConsoleLog msg) ;; ret Cancelled
  else
    emit (OnError (asError error)) ;;
    consumer (onError config (asError error)) ;;
    ret Failed.

(** [startStreaming(config, signal)] against a network that answers the
    request with [net]. *)
Definition startStreaming (net : FetchOutcome) : Task Termination :=
  try_catch
    (emit (Fetch (endpoint config) requestBody) ;;
     match net with
     | FetchRejects e => throw e
     | FetchResponds status body =>
         if negb (response_ok status) then throw (http_error status)
         else match body with
              | None => throw (JsError "Error" "Response body is not readable")
              | Some b =>
                  read_loop (decoder_init P) [] (fragments b) (ending b) ;;
                  ret Completed
              end
     end)
    (on_failure "Stream aborted by user").

(** *** mockStreaming

    [abort_at = Some k] says that the signal's [abort] event is dispatched
    while the [k]-th call of [delay] of the session is pending (counting
    from 0).  A signal that is aborted at any other moment, or that is
    absent, never runs a listener of a pending [delay]: the listener is
    added when [delay] is called and an event is dispatched once.
    [now k] is the value of the [k]-th [Date.now()] of the session. *)
Variable abort_at : option nat.
Variable now : nat → Z.

(** [delay(ms, signal)], as the [k]-th delay of the session *)
Definition delay (ms : Z) (k : nat) : Task unit :=
  emit (SetTimeout ms) ;;
  if bool_decide (abort_at = Some k) then throw AbortError else ret tt.

Definition call_onChunk (chunk : JSON) : Task unit :=
  emit (OnChunk chunk) ;; consumer (onChunk config chunk).

Definition text_chunk (type : string) (content : jsstring) (timestamp : Z) : JSON :=
  JObj [(lit "type", JStr (lit type));
        (lit "content", JStr content);
        (lit "timestamp", JNum timestamp)].

Definition toolStart_chunk : JSON :=
  JObj [(lit "type", JStr (lit "toolStart"));
        (lit "run_id", JStr (lit "tool_123"));
        (lit "message", JObj [(lit "action", JStr (lit "search"));
                              (lit "param", JStr (lit "web"))])].

Definition toolUsed_chunk (timestamp : Z) : JSON :=
  JObj [(lit "type", JStr (lit "toolUsed"));
        (lit "run_id", JStr (lit "tool_123"));
        (lit "result", JObj [(lit "data", JStr (lit "Sample result"))]);
        (lit "timestamp", JNum timestamp)].

Definition SPACE : codeunit := 32%N.
Definition QUOTE : codeunit := 34%N.

Definition mock_response : jsstring :=
  lit "This is a mock response to: " ++ [QUOTE] ++ message (request config)
  ++ [QUOTE]
  ++ lit ". In a real application, this would be the AI's actual response based on your input.".

(** [for (const word of words)], lines 251-259; [k] numbers the delays
    and the clock reads already made. *)
Fixpoint stream_words (words : list jsstring) (content : jsstring) (k : nat)
  : Task unit :=
  match words with
  | [] => ret tt
  | word :: rest =>
      let content' := content ++ word ++ [SPACE] in
      call_onChunk (text_chunk "supervisor_streaming" content' (now (k - 2))) ;;
      delay 100 k ;;
      stream_words rest content' (S k)
  end.

Definition mockStreaming : Task Termination :=
  try_catch
    (delay 500 0 ;;
     call_onChunk (text_chunk "streaming" (lit "Analyzing your question") (now 0)) ;;
     delay 800 1 ;;
     call_onChunk
       (text_chunk "streaming" (lit "Searching for relevant information") (now 1)) ;;
     delay 1000 2 ;;
     call_onChunk toolStart_chunk ;;
     delay 1500 3 ;;
     call_onChunk (toolUsed_chunk (now 2)) ;;
     delay 500 4 ;;
     stream_words (split SPACE mock_response) [] 5 ;;
     emit OnComplete ;;
     consumer (onComplete config tt) ;;
     ret Completed)
    (on_failure "Mock streaming aborted").

(** *** reconnectWithBackoff

    [net attempt] is what the network does to the request of that
    attempt. *)
Variable options : BackoffOptions.
Variable net : nat → FetchOutcome.

Definition opt_maxRetries : nat := default 3%nat (maxRetries options).
Definition opt_initialDelay : Z := default 1000 (initialDelay options).
Definition opt_maxDelay : Z := default 10000 (maxDelay options).
Definition opt_multiplier : Z := default 2 (multiplier options).

(** One round of the [for] loop, lines 329-340. *)
Definition reconnect_round (attempt : nat) (delay : Z) : Task LoopStep :=
  try_catch
    (startStreaming (net attempt) ;; ret Return)
    (λ error,
       let lastError := asError error in
       if bool_decide (S attempt < opt_maxRetries)%nat then
         emit (ConsoleLog ("Reconnecting in " +:+ show_Z delay +:+ "ms (attempt "
                           +:+ show_nat (attempt + 1) +:+ "/"
                           +:+ show_nat opt_maxRetries +:+ ")...")) ;;
         emit (SetTimeout delay) ;;
         ret (Continue (Z.min (delay * opt_multiplier) opt_maxDelay) lastError)
       else ret (Continue delay lastError)).

(** The loop over the remaining attempts, and what follows it. *)
Fixpoint reconnect_loop (attempts : list nat) (delay : Z)
    (lastError : option Thrown) : Task unit :=
  match attempts with
  | [] =>
      match lastError with
      | Some e => emit (OnError e) ;; consumer (onError config e)
      | None => ret tt
      end
  | attempt :: rest =>
      step ← reconnect_round attempt delay;
      match step with
      | Return => ret tt
      | Continue delay' e => reconnect_loop rest delay' (Some e)
      end
  end.

Definition reconnectWithBackoff : Task unit :=
  reconnect_loop (seq 0 opt_maxRetries) opt_initialDelay None.

End Service.

End Streaming.

(** ** hooks/useStreaming.ts *)

Module UseStreaming.
Import Streaming.

(** The state and the refs of one instance of the hook.  An
    [AbortController] is the number it was created as; [aborted] holds
    the controllers whose signal is aborted. *)
Record HookState : Type := {
  isStreaming : bool;
  error : option Thrown;
  abortControllerRef : option nat;
  lastConfigRef : option StreamRequest;
  retryCountRef : nat;
  aborted : gset nat;
  controllers : nat
}.

Definition initial : HookState := {|
  isStreaming := false;
  error := None;
  abortControllerRef := None;
  lastConfigRef := None;
  retryCountRef := 0;
  aborted := ∅;
  controllers := 0
|}.

Definition setIsStreaming (b : bool) (st : HookState) : HookState :=
  {| isStreaming := b; error := error st;
     abortControllerRef := abortControllerRef st;
     lastConfigRef := lastConfigRef st; retryCountRef := retryCountRef st;
     aborted := aborted st; controllers := controllers st |}.

Definition setError (e : option Thrown) (st : HookState) : HookState :=
  {| isStreaming := isStreaming st; error := e;
     abortControllerRef := abortControllerRef st;
     lastConfigRef := lastConfigRef st; retryCountRef := retryCountRef st;
     aborted := aborted st; controllers := controllers st |}.

Definition set_abortControllerRef (c : option nat) (st : HookState) : HookState :=
  {| isStreaming := isStreaming st; error := error st;
     abortControllerRef := c;
     lastConfigRef := lastConfigRef st; retryCountRef := retryCountRef st;
     aborted := aborted st; controllers := controllers st |}.

Definition set_lastConfigRef (c : option StreamRequest) (st : HookState) : HookState :=
  {| isStreaming := isStreaming st; error := error st;
     abortControllerRef := abortControllerRef st;
     lastConfigRef := c; retryCountRef := retryCountRef st;
     aborted := aborted st; controllers := controllers st |}.

Definition set_retryCountRef (n : nat) (st : HookState) : HookState :=
  {| isStreaming := isStreaming st; error := error st;
     abortControllerRef := abortControllerRef st;
     lastConfigRef := lastConfigRef st; retryCountRef := n;
     aborted := aborted st; controllers := controllers st |}.

(** [controller.abort()] *)
Definition abort (c : nat) (st : HookState) : HookState :=
  {| isStreaming := isStreaming st; error := error st;
     abortControllerRef := abortControllerRef st;
     lastConfigRef := lastConfigRef st; retryCountRef := retryCountRef st;
     aborted := {[ c ]} ∪ aborted st; controllers := controllers st |}.

(** [new AbortController()] *)
Definition new_AbortController {E} : M E HookState nat :=
  st ← get;
  put {| isStreaming := isStreaming st; error := error st;
         abortControllerRef := abortControllerRef st;
         lastConfigRef := lastConfigRef st; retryCountRef := retryCountRef st;
         aborted := aborted st; controllers := S (controllers st) |} ;;
  ret (controllers st).

(** [UseStreamingOptions]; [None] is an absent key. *)
Record UseStreamingOptions : Type := {
  u_onChunk : option (Callback JSON);
  u_onComplete : option (Callback unit);
  u_onError : option (Callback Thrown);
  enableRetry : option bool;
  maxRetries : option nat
}.

(** What the hook itself does that can be observed: the invocations of
    the callbacks of the application, and console output. *)
Inductive HookEvent : Type :=
  | UserOnChunk (chunk : JSON)
  | UserOnComplete
  | UserOnError (err : Thrown)
  | HookLog (msg : string).

(** The refs and the controllers, which the callbacks of a session do not
    touch. *)
Definition refs (st : HookState)
  : option nat * option StreamRequest * gset nat * nat :=
  (abortControllerRef st, lastConfigRef st, aborted st, controllers st).

(** Only controllers that were created are installed or aborted. *)
Definition well_formed (st : HookState) : Prop :=
  (∀ c, c ∈ aborted st → (c < controllers st)%nat)
  ∧ (∀ c, abortControllerRef st = Some c → (c < controllers st)%nat).


Section Hook.
Variable options : UseStreamingOptions.

Local Abbreviation Handler := (M HookEvent HookState).
Local Abbreviation Task := (M (StreamEvent HookEvent) HookState).

Definition opt_enableRetry : bool := default true (enableRetry options).
Definition opt_maxRetries : nat := default 3%nat (maxRetries options).

Definition handleChunk (chunk : JSON) : Handler unit :=
  notify (u_onChunk options) (UserOnChunk chunk) chunk.

Definition handleComplete (_ : unit) : Handler unit :=
  modify (setIsStreaming false) ;;
  modify (setError None) ;;
  modify (set_retryCountRef 0) ;;
  notify (u_onComplete options) UserOnComplete tt.

Definition handleError (err : Thrown) : Handler unit :=
  modify (setIsStreaming false) ;;
  modify (setError (Some err)) ;;
  notify (u_onError options) (UserOnError err) err ;;
  st ← get;
  if opt_enableRetry && bool_decide (retryCountRef st < opt_maxRetries)%nat then
    modify (set_retryCountRef (retryCountRef st + 1)) ;;
    emit (HookLog ("Retry attempt " +:+ show_nat (retryCountRef st + 1) +:+ "/"
                   +:+ show_nat opt_maxRetries +:+ "..."))
  else ret tt.

(** The configuration handed to [mockStreaming], lines 177-184.
    [mockStreaming] never reads [onThreadIdChange]. *)
Definition session_config (config : StreamRequest)
  : StreamingConfig HookEvent HookState := {|
  endpoint := lit "/api/stream";
  request := config;
  onThreadIdChange := None;
  onChunk := handleChunk;
  onComplete := handleComplete;
  onError := handleError
|}.

(** [startStream(config)] up to the call of [mockStreaming], lines
    158-172. *)
Definition open_session (config : StreamRequest) : Task unit :=
  st ← get;
  match abortControllerRef st with
  | Some c => modify (abort c)
  | None => ret tt
  end ;;
  abortController ← new_AbortController;
  modify (set_abortControllerRef (Some abortController)) ;;
  modify (set_lastConfigRef (Some config)) ;;
  modify (setIsStreaming true) ;;
  modify (setError None).

(** [startStream(config)].  [abort_at] and [now] are those of the session
    that it starts (see [mockStreaming]). *)
Definition startStream (config : StreamRequest) (abort_at : option nat)
    (now : nat → Z) : Task unit :=
  open_session config ;;
  try_catch
    (mockStreaming (session_config config) abort_at now ;; ret tt)
    (λ err,
       if instanceof_Error err && negb (is_AbortError err) then
         lift Consumer (handleError err)
       else ret tt).

Definition stopStream : Task unit :=
  st ← get;
  match abortControllerRef st with
  | Some c => modify (abort c) ;; modify (set_abortControllerRef None)
  | None => ret tt
  end ;;
  modify (setIsStreaming false) ;;
  modify (set_retryCountRef 0).

Definition retry (abort_at : option nat) (now : nat → Z) : Task unit :=
  st ← get;
  match lastConfigRef st with
  | Some config => startStream config abort_at now
  | None => ret tt
  end.

Definition clearError : Task unit := modify (setError None).

End Hook.

End UseStreaming.

(** ** hooks/useFileUpload.ts, with [uploadFile] of mockApiService.ts and
    [validateFile] of helpers.ts *)

Module UseFileUpload.

(** What the code reads of a DOM [File]. *)
Record File : Type := {
  name : string;
  size : N;
  type : string
}.

(** [`upload_${Date.now()}_${uploadCounterRef.current}`], kept as its two
    numbers. *)
Record UploadId : Type := {
  uid_time : Z;
  uid_counter : nat
}.

(** [`${timestamp}_${slugify(originalFilename)}`], kept as its two parts. *)
Record SafeFilename : Type := {
  sf_timestamp : Z;
  sf_original : string
}.

#[global] Instance File_eq_dec : EqDecision File.
Proof. solve_decision. Defined.
#[global] Instance UploadId_eq_dec : EqDecision UploadId.
Proof. solve_decision. Defined.
#[global] Instance SafeFilename_eq_dec : EqDecision SafeFilename.
Proof. solve_decision. Defined.

(** [IExtendedFile]; [None] in an optional field is [undefined]. *)
Record IExtendedFile : Type := {
  file : File;
  filename : SafeFilename;
  cdnUrl : option string;
  isUploading : option bool;
  uploadId : UploadId;
  uploadAbortController : option nat;
  uploadProgress : option Z;
  uploadError : option string
}.

#[global] Instance IExtendedFile_eq_dec : EqDecision IExtendedFile.
Proof. solve_decision. Defined.

(** [Partial<IExtendedFile>]: the outer [None] is an absent key, and
    [Some None] is a key that is present with the value [undefined]. *)
Record Updates : Type := {
  set_file : option File;
  set_filename : option SafeFilename;
  set_cdnUrl : option (option string);
  set_isUploading : option (option bool);
  set_uploadId : option UploadId;
  set_uploadAbortController : option (option nat);
  set_uploadProgress : option (option Z);
  set_uploadError : option (option string)
}.

Definition no_updates : Updates := {|
  set_file := None; set_filename := None; set_cdnUrl := None;
  set_isUploading := None; set_uploadId := None;
  set_uploadAbortController := None; set_uploadProgress := None;
  set_uploadError := None
|}.

(** [{ ...file, ...updates }] *)
Definition spread (f : IExtendedFile) (updates : Updates) : IExtendedFile := {|
  file := default (file f) (set_file updates);
  filename := default (filename f) (set_filename updates);
  cdnUrl := default (cdnUrl f) (set_cdnUrl updates);
  isUploading := default (isUploading f) (set_isUploading updates);
  uploadId := default (uploadId f) (set_uploadId updates);
  uploadAbortController :=
    default (uploadAbortController f) (set_uploadAbortController updates);
  uploadProgress := default (uploadProgress f) (set_uploadProgress updates);
  uploadError := default (uploadError f) (set_uploadError updates)
|}.

(** The keys of an entry, for [{ ...fileToRetry, ... }].  The code never
    stores [undefined] under a key except [uploadError] in [retryUpload],
    which sets that key itself, so an optional field that is [None] is
    taken as an absent key. *)
Definition own_keys (f : IExtendedFile) : Updates := {|
  set_file := Some (file f);
  set_filename := Some (filename f);
  set_cdnUrl := Some <$> cdnUrl f;
  set_isUploading := Some <$> isUploading f;
  set_uploadId := Some (uploadId f);
  set_uploadAbortController := Some <$> uploadAbortController f;
  set_uploadProgress := Some <$> uploadProgress f;
  set_uploadError := Some <$> uploadError f
|}.

(** Truthiness of an optional string and of an optional boolean. *)
Definition truthy_str (x : option string) : bool :=
  match x with
  | Some s => negb (bool_decide (s = ""%string))
  | None => false
  end.

Definition truthy_bool (x : option bool) : bool := default false x.

(** utils/constants.ts *)
Definition ALLOWED_FILE_TYPES : list string :=
  ["image/jpeg"; "image/jpg"; "image/png"; "image/webp"]%string.
Definition MAX_FILE_SIZE : N := (5 * 1024 * 1024)%N.
Definition MAX_FILES_ALLOWED : nat := 5.

Definition FILE_TOO_LARGE : string := "File is too large. Maximum size is 5MB".
Definition INVALID_FILE_TYPE : string := "Invalid file type. Allowed types: JPEG, PNG, WebP".
Definition MAX_FILES_EXCEEDED : string := "Maximum number of files exceeded".
Definition UPLOAD_FAILED : string := "Upload failed. Please try again".

(** [list.includes(x)] *)
Definition includes (l : list string) (x : string) : bool :=
  bool_decide (x ∈ l).

(** [errors.join(sep)] *)
Fixpoint join (sep : string) (l : list string) : string :=
  match l with
  | [] => ""
  | [x] => x
  | x :: rest => x +:+ sep +:+ join sep rest
  end.

Definition newline : string := String "010"%char EmptyString.

(** helpers.ts, [validateFile]: [None] is [{ valid: true }], [Some error]
    is [{ valid: false, error }].  [formatFileSize(MAX_FILE_SIZE)] is the
    constant ["5 MB"]. *)
Definition validateFile (f : File) : option string :=
  if N.ltb MAX_FILE_SIZE (size f) then
    Some ("File " +:+ String "034"%char (name f) +:+ String "034"%char
            " is too large. Maximum size is 5 MB")
  else if negb (includes ALLOWED_FILE_TYPES (type f)) then
    Some ("File " +:+ String "034"%char (name f) +:+ String "034"%char
            (" has an invalid type. Allowed types: " +:+ join ", " ALLOWED_FILE_TYPES))
  else None.

Inductive UploadEvent : Type :=
  | OnUploadError (error : Thrown)
  | OnProgress (id : UploadId) (progress : Z)
  | OnUploadComplete (files : list IExtendedFile)
  | ConsoleError (msg : string)
  | Sleep (ms : Z).

(** The state and the refs of one instance of the hook; controllers as in
    [UseStreaming]. *)
Record HookState : Type := {
  uploadedFiles : list IExtendedFile;
  uploadCounterRef : nat;
  aborted : gset nat;
  controllers : nat
}.

Definition initial : HookState := {|
  uploadedFiles := []; uploadCounterRef := 0; aborted := ∅; controllers := 0
|}.

(** [setUploadedFiles((prev) => f prev)] *)
Definition setUploadedFiles (f : list IExtendedFile → list IExtendedFile)
    (st : HookState) : HookState :=
  {| uploadedFiles := f (uploadedFiles st);
     uploadCounterRef := uploadCounterRef st;
     aborted := aborted st; controllers := controllers st |}.

(** [controller.abort()] *)
Definition abort (c : nat) (st : HookState) : HookState :=
  {| uploadedFiles := uploadedFiles st;
     uploadCounterRef := uploadCounterRef st;
     aborted := {[ c ]} ∪ aborted st; controllers := controllers st |}.

(** [UseFileUploadOptions]; [None] is an absent key. *)
Record UseFileUploadOptions : Type := {
  maxFiles : option nat;
  allowedTypes : option (list string);
  onUploadComplete : option (Callback (list IExtendedFile));
  onUploadError : option (Callback Thrown);
  onProgress : option (Callback (UploadId * Z))
}.

(** [IApiResponse<{ url: string; filename: string }>] *)
Record UploadData : Type := {
  url : string;
  data_filename : string
}.

Record ApiResponse : Type := {
  success : bool;
  data : option UploadData;
  status : N
}.

(** Where an upload task is suspended: in the [sleep(100)] that precedes
    the progress report [AtProgress p], or nowhere because it has
    returned. *)
Inductive Pc : Type :=
  | AtProgress (progress : Z)
  | Finished.

Record UploadTask : Type := {
  t_entry : IExtendedFile;
  t_pc : Pc
}.

Section Hook.
Variable options : UseFileUploadOptions.

Local Abbreviation Task := (M UploadEvent HookState).

Definition opt_maxFiles : nat := default MAX_FILES_ALLOWED (maxFiles options).
Definition opt_allowedTypes : list string :=
  default ALLOWED_FILE_TYPES (allowedTypes options).

(** [new AbortController()] *)
Definition new_AbortController : Task nat :=
  st ← get;
  put {| uploadedFiles := uploadedFiles st;
         uploadCounterRef := uploadCounterRef st;
         aborted := aborted st; controllers := S (controllers st) |} ;;
  ret (controllers st).

(** [controller?.abort()] *)
Definition abort_opt (c : option nat) : Task unit :=
  match c with
  | Some c => modify (abort c)
  | None => ret tt
  end.

(** The derived values of lines 120-121. *)
Definition isUploading_any (files : list IExtendedFile) : bool :=
  existsb (λ f, truthy_bool (isUploading f)) files.
Definition hasFailedUploads (files : list IExtendedFile) : bool :=
  existsb (λ f, truthy_str (uploadError f)) files.

(** helpers.ts, [generateSafeFilename(originalFilename)], reading the
    clock as [now] *)
Definition generateSafeFilename (now : Z) (originalFilename : string)
  : SafeFilename :=
  {| sf_timestamp := now; sf_original := originalFilename |}.

(** [generateUploadId()], reading the clock as [now] *)
Definition generateUploadId (now : Z) : Task UploadId :=
  st ← get;
  put {| uploadedFiles := uploadedFiles st;
         uploadCounterRef := uploadCounterRef st + 1;
         aborted := aborted st; controllers := controllers st |} ;;
  ret {| uid_time := now; uid_counter := uploadCounterRef st + 1 |}.

(** The state updater of [updateFile], lines 141-143. *)
Definition update_entries (id : UploadId) (updates : Updates)
    (prev : list IExtendedFile) : list IExtendedFile :=
  map (λ f, if bool_decide (uploadId f = id) then spread f updates else f) prev.

Definition updateFile (id : UploadId) (updates : Updates) : Task unit :=
  modify (setUploadedFiles (update_entries id updates)).

(** The progress callback given to [uploadFile], lines 163-166. *)
Definition report_progress (id : UploadId) (progress : Z) : Task unit :=
  updateFile id {|
    set_file := None; set_filename := None; set_cdnUrl := None;
    set_isUploading := None; set_uploadId := None;
    set_uploadAbortController := None;
    set_uploadProgress := Some (Some progress);
    set_uploadError := None |} ;;
  notify (onProgress options) (OnProgress id progress) (id, progress).

(** The [catch] of [processFileUpload], lines 178-191. *)
Definition upload_failed (id : UploadId) (error : Thrown) : Task Pc :=
  let errorMessage :=
    match error with
    | JsError _ message => message
    | _ => UPLOAD_FAILED
    end in
  updateFile id {|
    set_file := None; set_filename := None; set_cdnUrl := None;
    set_isUploading := Some (Some false); set_uploadId := None;
    set_uploadAbortController := None; set_uploadProgress := None;
    set_uploadError := Some (Some errorMessage) |} ;;
  let reported :=
    if instanceof_Error error then error else JsError "Error" errorMessage in
  notify (onUploadError options) (OnUploadError reported) reported ;;
  ret Finished.

(** [sleep(ms)] of helpers.ts *)
Definition sleep (ms : Z) : Task unit := emit (Sleep ms).

(** mockApiService.ts, [uploadFile], lines 228-251.  The loop
    [for (let progress = 0; progress <= 100; progress += 10)] sleeps at
    the beginning of every turn: [uploadFile_begin] runs up to the first
    sleep, and [uploadFile_turn] runs from the end of a sleep, with the
    loop variable at [progress], to the next sleep ([inl] of the new
    value of the variable) or to the [return] ([inr] of the response).
    [gid] is what [generateId()] returns when the mock URL is built. *)
Definition uploadFile_begin : Task Z := sleep 100 ;; ret 0.

Definition uploadFile_turn (gid : string) (f : File)
    (onProgress : option (Z → Task unit)) (progress : Z)
  : Task (Z + ApiResponse) :=
  call_opt onProgress progress ;;
  if bool_decide (progress + 10 ≤ 100) then
    sleep 100 ;; ret (inl (progress + 10))
  else
    let mockUrl :=
      "https://cdn.example.com/uploads/" +:+ gid +:+ "_" +:+ name f in
    ret (inr {| success := true;
                data := Some {| url := mockUrl; data_filename := name f |};
                status := 200 |}).

(** [processFileUpload(extendedFile)], lines 152-194, written as the two
    parts between which it is suspended.  [processFileUpload] runs up to
    the first suspension: the check of the signal, then [uploadFile]
    up to its first sleep. *)
Definition processFileUpload (extendedFile : IExtendedFile) : Task UploadTask :=
  st ← get;
  let cancelled :=
    match uploadAbortController extendedFile with
    | Some c => bool_decide (c ∈ aborted st)
    | None => false
    end in
  if cancelled then ret {| t_entry := extendedFile; t_pc := Finished |}
  else
    progress ← uploadFile_begin;
    ret {| t_entry := extendedFile; t_pc := AtProgress progress |}.

(** One resumption of a suspended task: a turn of [uploadFile] and, when
    it returns, the rest of the [try] block; the [catch] receives what
    either throws. *)
Definition resume (gid : string) (task : UploadTask) : Task UploadTask :=
  let id := uploadId (t_entry task) in
  match t_pc task with
  | Finished => ret task
  | AtProgress progress =>
      pc ← try_catch
             (next ← uploadFile_turn gid (file (t_entry task))
                       (Some (report_progress id)) progress;
              match next with
              | inl progress' => ret (AtProgress progress')
              | inr result =>
                  match success result, data result with
                  | true, Some d =>
                      updateFile id {|
                        set_file := None; set_filename := None;
                        set_cdnUrl := Some (Some (url d));
                        set_isUploading := Some (Some false);
                        set_uploadId := None;
                        set_uploadAbortController := None;
                        set_uploadProgress := Some (Some 100);
                        set_uploadError := None |} ;;
                      ret Finished
                  | _, _ => throw (JsError "Error" "Upload failed")
                  end
              end)
             (upload_failed id);
      ret {| t_entry := t_entry task; t_pc := pc |}
  end.

(** [n] resumptions in a row. *)
Fixpoint resume_times (n : nat) (gid : string) (task : UploadTask)
  : Task UploadTask :=
  match n with
  | 0%nat => ret task
  | S n' => t ← resume gid task; resume_times n' gid t
  end.

(** The validation loop of [uploadFiles], lines 216-231: the valid files
    and the error lines, both in input order. *)
Fixpoint validate (files : list File) : list File * list string :=
  match files with
  | [] => ([], [])
  | f :: rest =>
      let (validFiles, errors) := validate rest in
      if negb (includes opt_allowedTypes (type f)) then
        (validFiles, (name f +:+ ": " +:+ INVALID_FILE_TYPE) :: errors)
      else
        match validateFile f with
        | Some error => (validFiles, error :: errors)
        | None => (f :: validFiles, errors)
        end
  end.

(** [filesToUpload.map(...)], lines 247-254; the [k]-th file reads the
    clock as [now (2 * k)] for its name and [now (2 * k + 1)] for its
    identifier. *)
Fixpoint make_extended (now : nat → Z) (k : nat) (files : list File)
  : Task (list IExtendedFile) :=
  match files with
  | [] => ret []
  | f :: rest =>
      let safe := generateSafeFilename (now (2 * k)%nat) (name f) in
      id ← generateUploadId (now (2 * k + 1)%nat);
      c ← new_AbortController;
      let extended := {|
        file := f;
        filename := safe;
        cdnUrl := None;
        isUploading := Some true;
        uploadId := id;
        uploadAbortController := Some c;
        uploadProgress := Some 0;
        uploadError := None |} in
      others ← make_extended now (S k) rest;
      ret (extended :: others)
  end.

(** [extendedFiles.map((file) => processFileUpload(file))] *)
Fixpoint start_all (files : list IExtendedFile) : Task (list UploadTask) :=
  match files with
  | [] => ret []
  | f :: rest =>
      t ← processFileUpload f;
      ts ← start_all rest;
      ret (t :: ts)
  end.

(** [uploadFiles(files)] up to [await Promise.all(...)]: the tasks it
    started.  [snapshot] is the [uploadedFiles] of the render that created
    the callback. *)
Definition uploadFiles (snapshot : list IExtendedFile) (now : nat → Z)
    (files : list File) : Task (list UploadTask) :=
  let currentCount := length snapshot in
  if bool_decide (opt_maxFiles ≤ currentCount)%nat then
    let e := JsError "Error" MAX_FILES_EXCEEDED in
    notify (onUploadError options) (OnUploadError e) e ;;
    ret []
  else
    let (validFiles, errors) := validate files in
    (if bool_decide (0 < length errors)%nat then
       let e := JsError "Error" (join newline errors) in
       notify (onUploadError options) (OnUploadError e) e
     else ret tt) ;;
    let availableSlots := (opt_maxFiles - currentCount)%nat in
    let filesToUpload := take availableSlots validFiles in
    if bool_decide (length filesToUpload = 0)%nat then ret []
    else
      extendedFiles ← make_extended now 0 filesToUpload;
      modify (setUploadedFiles (λ prev, prev ++ extendedFiles)) ;;
      start_all extendedFiles.

(** What follows [await Promise.all(...)], lines 263-269, over the
    objects that [uploadFiles] created. *)
Definition uploadFiles_settled (extendedFiles : list IExtendedFile) : Task unit :=
  let successfulFiles :=
    List.filter (λ f, negb (truthy_str (uploadError f)) && truthy_str (cdnUrl f))
      extendedFiles in
  if bool_decide (0 < length successfulFiles)%nat then
    notify (onUploadComplete options) (OnUploadComplete successfulFiles)
      successfulFiles
  else ret tt.

(** [deleteFile(index)]; an index that is negative or past the end
    selects nothing. *)
Definition deleteFile (index : Z) : Task unit :=
  st ← get;
  let prev := uploadedFiles st in
  let fileToDelete :=
    if bool_decide (0 ≤ index) then prev !! Z.to_nat index else None in
  match fileToDelete with
  | Some f =>
      if truthy_bool (isUploading f) then abort_opt (uploadAbortController f)
      else ret tt
  | None => ret tt
  end ;;
  modify (setUploadedFiles (λ prev,
    if bool_decide (0 ≤ index) then delete (Z.to_nat index) prev else prev)).

(** [retryUpload(uploadId)]: the task it started, if any. *)
Definition retryUpload (snapshot : list IExtendedFile) (id : UploadId)
  : Task (option UploadTask) :=
  match List.find (λ f, bool_decide (uploadId f = id)) snapshot with
  | None => emit (ConsoleError "File not found for retry") ;; ret None
  | Some fileToRetry =>
      c ← new_AbortController;
      let updatedFile := {|
        file := file fileToRetry;
        filename := filename fileToRetry;
        cdnUrl := cdnUrl fileToRetry;
        isUploading := Some true;
        uploadId := uploadId fileToRetry;
        uploadAbortController := Some c;
        uploadProgress := Some 0;
        uploadError := None |} in
      let keys := own_keys fileToRetry in
      updateFile id {|
        set_file := set_file keys;
        set_filename := set_filename keys;
        set_cdnUrl := set_cdnUrl keys;
        set_isUploading := Some (Some true);
        set_uploadId := set_uploadId keys;
        set_uploadAbortController := Some (Some c);
        set_uploadProgress := Some (Some 0);
        set_uploadError := Some None |} ;;
      t ← processFileUpload updatedFile;
      ret (Some t)
  end.

(** The entries that [cancelUpload(uploadId)] takes out. *)
Definition to_cancel (id : UploadId) (f : IExtendedFile) : bool :=
  bool_decide (uploadId f = id) && truthy_bool (isUploading f).

(** [cancelUpload(uploadId)], lines 337-350 *)
Definition cancelUpload (id : UploadId) : Task unit :=
  st ← get;
  for_each
    (λ f, if to_cancel id f then abort_opt (uploadAbortController f) else ret tt)
    (uploadedFiles st) ;;
  modify (setUploadedFiles (List.filter (λ f, negb (to_cancel id f)))).

(** [clearAllFiles()] *)
Definition clearAllFiles (snapshot : list IExtendedFile) : Task unit :=
  for_each
    (λ f, if truthy_bool (isUploading f) then abort_opt (uploadAbortController f)
          else ret tt)
    snapshot ;;
  modify (setUploadedFiles (λ _, [])).

(** The files that are ready to be sent: uploaded, with a URL and without
    an error. *)
Definition ready (files : list IExtendedFile) : list IExtendedFile :=
  List.filter
    (λ f, negb (truthy_bool (isUploading f)) && negb (truthy_str (uploadError f))
          && truthy_str (cdnUrl f))
    files.

End Hook.

(** The progress reports made to the application, and the errors reported
    to it, in order. *)
Definition progress_of (t : list UploadEvent) : list (UploadId * Z) :=
  omap (λ ev, match ev with OnProgress id p => Some (id, p) | _ => None end) t.

Definition upload_errors_of (t : list UploadEvent) : list Thrown :=
  omap (λ ev, match ev with OnUploadError e => Some e | _ => None end) t.

(** Only controllers that were created are aborted. *)
Definition well_formed (st : HookState) : Prop :=
  ∀ c, c ∈ aborted st → (c < controllers st)%nat.

(** No entry of the batch has the identifier. *)
Definition absent (id : UploadId) (files : list IExtendedFile) : Prop :=
  ∀ f, f ∈ files → uploadId f ≠ id.

End UseFileUpload.

(** ** utils/helpers.ts: strings, files and arrays *)

Module Helpers.

(** [str.substring(start, end)] for integer arguments: both are clamped to
    the string and swapped when they are out of order. *)
Definition substring (str : jsstring) (start end_ : Z) : jsstring :=
  let len := Z.of_nat (length str) in
  let finalStart := Z.min (Z.max start 0) len in
  let finalEnd := Z.min (Z.max end_ 0) len in
  let from := Z.min finalStart finalEnd in
  let to := Z.max finalStart finalEnd in
  take (Z.to_nat (to - from)) (drop (Z.to_nat from) str).

(** [truncate(str, maxLength)], lines 75-78, for an integer [maxLength] *)
Definition truncate (str : jsstring) (maxLength : Z) : jsstring :=
  if bool_decide (Z.of_nat (length str) ≤ maxLength) then str
  else substring str 0 maxLength ++ lit "...".

(** [x.slice(start)] and [x.slice(start, end)] of strings and arrays: a
    negative index counts from the end. *)
Definition relative_index (len x : Z) : Z :=
  if bool_decide (x < 0) then Z.max (len + x) 0 else Z.min x len.

Definition slice_from {A} (l : list A) (start : Z) : list A :=
  drop (Z.to_nat (relative_index (Z.of_nat (length l)) start)) l.

Definition slice {A} (l : list A) (start end_ : Z) : list A :=
  let len := Z.of_nat (length l) in
  let k := relative_index len start in
  let final := relative_index len end_ in
  take (Z.to_nat (final - k)) (drop (Z.to_nat k) l).

(** [s.lastIndexOf(c)] for one code unit: [-1] when there is none.  [i] is
    the index of the head of [s] and [found] the last index seen. *)
Fixpoint lastIndexOf_from (c : codeunit) (s : jsstring) (i found : Z) : Z :=
  match s with
  | [] => found
  | x :: s' => lastIndexOf_from c s' (i + 1) (if N.eqb x c then i else found)
  end.

Definition lastIndexOf (c : codeunit) (s : jsstring) : Z :=
  lastIndexOf_from c s 0 (-1).

(** [x >>> 0] on an integer: its value modulo 2^32 *)
Definition to_uint32 (x : Z) : Z := x mod 2 ^ 32.

Definition DOT : codeunit := 46%N.
Definition HYPHEN : codeunit := 45%N.
Definition UNDERSCORE : codeunit := 95%N.

(** [getFileExtension(filename)], lines 157-159 *)
Definition getFileExtension (filename : jsstring) : jsstring :=
  slice_from filename (to_uint32 (lastIndexOf DOT filename - 1) + 2).

(** The character classes of the regular expressions of [slugify]:
    [\w] is [[A-Za-z0-9_]] and [\s] is the white space of [trim]. *)
Definition is_alnum (c : codeunit) : bool :=
  ((N.leb 48 c && N.leb c 57) || (N.leb 65 c && N.leb c 90)
   || (N.leb 97 c && N.leb c 122))%N.

Definition is_word (c : codeunit) : bool := is_alnum c || N.eqb c UNDERSCORE.

Definition is_separator (c : codeunit) : bool :=
  isWhiteSpace c || N.eqb c UNDERSCORE || N.eqb c HYPHEN.

(** [.replace(/[^\w\s-]/g, '')] *)
Definition strip_symbols (s : jsstring) : jsstring :=
  List.filter (λ c, is_word c || isWhiteSpace c || N.eqb c HYPHEN) s.

(** [.replace(/[\s_-]+/g, '-')]: every maximal run of separators becomes
    one hyphen.  [in_run] says that the code unit before was a
    separator. *)
Fixpoint hyphenate (in_run : bool) (s : jsstring) : jsstring :=
  match s with
  | [] => []
  | c :: s' =>
      if is_separator c then
        if in_run then hyphenate true s' else HYPHEN :: hyphenate true s'
      else c :: hyphenate false s'
  end.

Fixpoint drop_hyphens (s : jsstring) : jsstring :=
  match s with
  | c :: s' => if N.eqb c HYPHEN then drop_hyphens s' else s
  | [] => []
  end.

(** [.replace(/^-+|-+$/g, '')] *)
Definition strip_hyphens (s : jsstring) : jsstring :=
  reverse (drop_hyphens (reverse (drop_hyphens s))).

Section Slugify.
(** [String.prototype.toLowerCase] follows the Unicode case mappings of
    the host. *)
Variable toLowerCase : jsstring → jsstring.

(** [slugify(str)], lines 94-101 *)
Definition slugify (str : jsstring) : jsstring :=
  strip_hyphens (hyphenate false (strip_symbols (trim (toLowerCase str)))).

End Slugify.

Section Arrays.
Context {A : Type} `{EqDecision A}.

(** [new Set(array)] in insertion order: the elements are added one by
    one after those already [seen], unless they are there. *)
Fixpoint add_all (seen : list A) (array : list A) : list A :=
  match array with
  | [] => seen
  | x :: rest =>
      if bool_decide (x ∈ seen) then add_all seen rest
      else add_all (seen ++ [x]) rest
  end.

(** [unique(array)], lines 177-179, on values that [Set] compares as
    equality does *)
Definition unique (array : list A) : list A := add_all [] array.

(** The loop of [chunk(array, size)], lines 189-191, for an integer
    [size]; it runs for at most [fuel] tests of its condition, and [None]
    says that it has not finished by then. *)
Fixpoint chunk_loop (fuel : nat) (array : list A) (size i : Z)
    (chunks : list (list A)) : option (list (list A)) :=
  match fuel with
  | 0%nat => None
  | S fuel' =>
      if bool_decide (i < Z.of_nat (length array)) then
        chunk_loop fuel' array size (i + size)
          (chunks ++ [slice array i (i + size)])
      else Some chunks
  end.

Definition chunk (fuel : nat) (array : list A) (size : Z)
  : option (list (list A)) :=
  chunk_loop fuel array size 0 [].

End Arrays.

(** [retry(fn, options)], lines 303-331; [None] is an absent key. *)
Record RetryOptions : Type := {
  r_maxRetries : option nat;
  r_delay : option Z;
  r_backoffMultiplier : option Z
}.

(** What [retry] does that can be observed: its calls of [fn], the
    [sleep]s between them, and what [fn] itself does. *)
Inductive RetryEvent (X : Type) : Type :=
  | Attempt (i : nat)
  | Slept (ms : Z)
  | Inner (x : X).
Arguments Attempt {X} _.
Arguments Slept {X} _.
Arguments Inner {X} _.

Section Retry.
Context {X St A : Type}.
Variable fn : M X St A.
Variable options : RetryOptions.

Definition opt_maxRetries : nat := default 3%nat (r_maxRetries options).
Definition opt_delay : Z := default 1000 (r_delay options).
Definition opt_backoffMultiplier : Z := default 2 (r_backoffMultiplier options).

(** The [for] loop over the remaining values of [i], and the [throw] that
    follows it.  [lastError] is [undefined] ([None]) until a call has
    failed; [throw undefined] throws a value that is neither an [Error]
    nor a string. *)
Fixpoint retry_loop (attempts : list nat) (lastError : option Thrown)
  : M (RetryEvent X) St A :=
  match attempts with
  | [] => throw (default JsOther lastError)
  | i :: rest =>
      r ← try_catch
             (emit (Attempt i) ;; a ← lift Inner fn; ret (inl a))
             (λ error,
                (if bool_decide (S i < opt_maxRetries)%nat then
                   emit (Slept (opt_delay * opt_backoffMultiplier ^ Z.of_nat i))
                 else ret tt) ;;
                ret (inr error));
      match r with
      | inl a => ret a
      | inr error => retry_loop rest (Some error)
      end
  end.

Definition retry : M (RetryEvent X) St A :=
  retry_loop (seq 0 opt_maxRetries) None.

End Retry.

(** The calls of [fn] and the sleeps of a run of [retry], in order. *)
Definition attempts_of {X} (t : list (RetryEvent X)) : list nat :=
  omap (λ ev, match ev with Attempt i => Some i | _ => None end) t.

Definition sleeps_of {X} (t : list (RetryEvent X)) : list Z :=
  omap (λ ev, match ev with Slept ms => Some ms | _ => None end) t.

(** The state in which the [i]-th call of [fn] starts, when the calls
    before it have failed. *)
Definition state_at {X St A} (fn : M X St A) (i : nat) (s : St) : St :=
  Nat.iter i (λ s, final (fn s)) s.

End Helpers.

(** ** streamingService.ts, [parseSseLine] *)

Module Sse.

(** [{ event?: string; data?: string }] *)
Record SseFields : Type := {
  sse_event : option jsstring;
  sse_data : option jsstring
}.

(** [s.startsWith(p)] *)
Definition startsWith (p s : jsstring) : bool :=
  bool_decide (take (length p) s = p).

(** [parseSseLine(line)], lines 292-304; [line.substring(n)] is
    [drop n line]. *)
Definition parseSseLine (line : jsstring) : option SseFields :=
  if is_empty (trim line) then None
  else if startsWith (lit "event:") line then
    Some {| sse_event := Some (trim (drop 6 line)); sse_data := None |}
  else if startsWith (lit "data:") line then
    Some {| sse_event := None; sse_data := Some (trim (drop 5 line)) |}
  else None.

End Sse.

(** ** Vocabulary of the properties *)

(** Two properties of a computation that the proofs compose: every event
    that it emits satisfies [ok], and it leaves [f] of the state as it
    was. *)
Definition emits_only {E S A} (ok : E → Prop) (m : M E S A) : Prop :=
  ∀ s, Forall ok (trace (m s)).

Definition keeps {E S A B} (f : S → B) (m : M E S A) : Prop :=
  ∀ s, f (final (m s)) = f s.

(** A computation that leaves the whole state as it was when it starts
    from a state that satisfies [I]. *)
Definition keeps_on {E S A} (I : S → Prop) (m : M E S A) : Prop :=
  ∀ s, I s → final (m s) = s.

(** A computation that never throws. *)
Definition total {E S A} (m : M E S A) : Prop :=
  ∀ s, returned (m s) = true.

Module StreamingSpec.
Import Streaming.

(** The chunks handed to [onChunk], in order. *)
Definition chunks_of {X} (t : list (StreamEvent X)) : list JSON :=
  omap (λ ev, match ev with OnChunk c => Some c | _ => None end) t.

(** The errors handed to [onError], in order. *)
Definition errors_of {X} (t : list (StreamEvent X)) : list Thrown :=
  omap (λ ev, match ev with OnError e => Some e | _ => None end) t.

(** The timers set by the service, in order. *)
Definition timeouts_of {X} (t : list (StreamEvent X)) : list Z :=
  omap (λ ev, match ev with SetTimeout ms => Some ms | _ => None end) t.

(** The requests sent. *)
Definition requests_of {X} (t : list (StreamEvent X)) : nat :=
  length (omap (λ ev, match ev with Fetch _ _ => Some tt | _ => None end) t).

Definition is_OnChunk {X} (ev : StreamEvent X) : Prop :=
  match ev with OnChunk _ => True | _ => False end.

Definition is_OnError {X} (ev : StreamEvent X) : Prop :=
  match ev with OnError _ => True | _ => False end.

Definition is_SetTimeout {X} (ev : StreamEvent X) : Prop :=
  match ev with SetTimeout _ => True | _ => False end.

(** A text delta is a chunk of type [streaming] or [supervisor_streaming];
    its text is its [content]. *)
Definition is_text_delta (c : JSON) : bool :=
  match get_prop c (lit "type") with
  | inl ty => is_str ty "streaming" || is_str ty "supervisor_streaming"
  | inr _ => false
  end.

Definition content_of (c : JSON) : jsstring :=
  if is_text_delta c then
    match get_prop c (lit "content") with
    | inl (Some (JStr s)) => s
    | _ => []
    end
  else [].

Definition delivered_text {X} (t : list (StreamEvent X)) : jsstring :=
  concat (map content_of (List.filter is_text_delta (chunks_of t))).

(** The complete lines of a text: all pieces but the one after the last
    line feed. *)
Definition complete_lines (text : jsstring) : list jsstring :=
  (pop (split LF text)).1.

Definition partial_line (text : jsstring) : jsstring :=
  or_empty (pop (split LF text)).2.

(** The whole input, decoded at once. *)
Definition decoded (P : Platform) (input : list byte) : jsstring :=
  (decode P (decoder_init P) input).2.

(** The payload of a line: what the remainder after the prefix parses to,
    if the line is not blank and the remainder parses. *)
Definition line_payload (P : Platform) (line : jsstring) : option JSON :=
  if is_empty (trim line) then None
  else match JSON_parse P (strip_data_prefix line) with
       | inl chunk => Some chunk
       | inr _ => None
       end.

Definition payloads (P : Platform) (text : jsstring) : list JSON :=
  omap (line_payload P) (complete_lines text).

(** A response with status 200 that streams [frags] and then [fin]. *)
Definition streams (frags : list (list byte)) (fin : ReadEnd) : FetchOutcome :=
  FetchResponds 200 (Some {| fragments := frags; ending := fin |}).

(** The network aborted the request because the signal was aborted:
    [fetch] or a later [read] rejects with the abort exception. *)
Inductive aborted_by_signal : FetchOutcome → Prop :=
  | abort_in_fetch : aborted_by_signal (FetchRejects AbortError)
  | abort_in_read status frags :
      response_ok status = true →
      aborted_by_signal
        (FetchResponds status
           (Some {| fragments := frags; ending := ReadRejects AbortError |})).

End StreamingSpec.

(** ** Vocabulary of the further properties *)

(** Started in a state that satisfies [P], the computation emits events
    that [view] shows as [script], ends with [res] and leaves a state
    that satisfies [Q]. *)
Definition performs {E V S A} (view : list E → list V) (P : S → Prop)
    (m : M E S A) (script : list V) (res : A + Thrown) (Q : S → Prop) : Prop :=
  ∀ s, P s →
    view (trace (m s)) = script ∧ outcome (m s) = res ∧ Q (final (m s)).

Definition any_state {S} : S → Prop := λ _, True.

(** A computation that keeps an invariant of the state, however it
    ends. *)
Definition preserves {E S A} (Inv : S → Prop) (m : M E S A) : Prop :=
  ∀ s, Inv s → Inv (final (m s)).

(** ** What a mock session does *)

Module MockSpec.
Import Streaming.

(** The events of the service itself, without those of the consumer's
    callbacks, and the latter. *)
Definition own_events {X} (t : list (StreamEvent X)) : list (StreamEvent X) :=
  List.filter (λ ev, match ev with Consumer _ => false | _ => true end) t.

Definition consumer_events {X} (t : list (StreamEvent X)) : list X :=
  omap (λ ev, match ev with Consumer x => Some x | _ => None end) t.

(** The texts that grow by one word and a space at a time. *)
Fixpoint running_text (words : list jsstring) (content : jsstring)
  : list jsstring :=
  match words with
  | [] => []
  | word :: rest =>
      (content ++ word ++ [SPACE]) :: running_text rest (content ++ word ++ [SPACE])
  end.

Section Session.
Context {X : Type}.
Variable now : nat → Z.
Variable words : list jsstring.

(** The chunks of a whole session that streams [words]: two status
    lines, the start and the result of the tool, and the response so far
    after every word. *)
Definition session_chunks : list JSON :=
  [text_chunk "streaming" (lit "Analyzing your question") (now 0%nat);
   text_chunk "streaming" (lit "Searching for relevant information") (now 1%nat);
   toolStart_chunk;
   toolUsed_chunk (now 2%nat)]
  ++ imap (λ i content, text_chunk "supervisor_streaming" content (now (3 + i)%nat))
       (running_text words []).

(** The delays of a whole session, the first one apart. *)
Definition later_delays : list Z :=
  [800; 1000; 1500; 500] ++ replicate (length words) 100.

Definition session_delays : list Z := 500 :: later_delays.

(** The events of the service up to the moment when delay [j] is pending:
    the first delay, then every chunk followed by the next delay. *)
Definition session_script (j : nat) : list (StreamEvent X) :=
  SetTimeout 500
  :: concat (zip_with (λ c d, [OnChunk c; SetTimeout d])
               (take j session_chunks) later_delays).

(** The same through a [view] of the events, where [chunk_view c] is
    what the view shows of the delivery of the chunk [c]. *)
Definition narrated {V} (view : list (StreamEvent X) → list V)
    (chunk_view : JSON → list V) (j : nat) : list V :=
  view [SetTimeout 500]
  ++ concat (zip_with (λ c d, chunk_view c ++ view [SetTimeout d])
               (take j session_chunks) later_delays).

End Session.

(** The words of the response of [mockStreaming], and the chunks, delays
    and events of its sessions. *)
Abbreviation mock_words config := (split SPACE (mock_response config)).

Definition mock_chunks {X St} (config : StreamingConfig X St) (now : nat → Z)
  : list JSON :=
  session_chunks now (mock_words config).

Definition mock_delays {X St} (config : StreamingConfig X St) : list Z :=
  session_delays (mock_words config).

Definition mock_script {X St} (config : StreamingConfig X St) (now : nat → Z)
    (j : nat) : list (StreamEvent X) :=
  session_script now (mock_words config) j.

Definition mock_narration {X St V} (config : StreamingConfig X St) (now : nat → Z)
    (view : list (StreamEvent X) → list V) (chunk_view : JSON → list V)
    (j : nat) : list V :=
  narrated now (mock_words config) view chunk_view j.

End MockSpec.

(** ** How a session fails, and the schedule of the reconnections *)

Module FailureSpec.
Import Streaming.

(** The transport fails with [e]: [fetch] rejects, the response has a
    status that is not a success or no body, or a [read] rejects. *)
Inductive fails_with : FetchOutcome → Thrown → Prop :=
  | fetch_rejects e : fails_with (FetchRejects e) e
  | bad_status status body :
      response_ok status = false →
      fails_with (FetchResponds status body) (http_error status)
  | no_body status :
      response_ok status = true →
      fails_with (FetchResponds status None)
        (JsError "Error" "Response body is not readable")
  | read_rejects status frags e :
      response_ok status = true →
      fails_with
        (FetchResponds status (Some {| fragments := frags; ending := ReadRejects e |}))
        e.

(** The fragments that the loop reads. *)
Definition received (net : FetchOutcome) : list (list byte) :=
  match net with
  | FetchResponds status (Some b) =>
      if response_ok status then fragments b else []
  | _ => []
  end.

(** The delays of [n] reconnections that start with [delay]: each is the
    one before times the multiplier, capped at [maxDelay]; the first is
    not capped. *)
Fixpoint backoff_delays (n : nat) (delay multiplier maxDelay : Z) : list Z :=
  match n with
  | 0%nat => []
  | S n' =>
      delay :: backoff_delays n' (Z.min (delay * multiplier) maxDelay)
                 multiplier maxDelay
  end.

End FailureSpec.

(** ** What the streaming hook shows *)

Module HookSpec.
Import Streaming UseStreaming.

Section Options.
Variable options : UseStreamingOptions.

(** What the application sees of the delivery of a chunk, of the
    completion and of an error. *)
Definition chunk_shown (c : JSON) : list HookEvent :=
  if u_onChunk options is Some _ then [UserOnChunk c] else [].

Definition completion_shown : list HookEvent :=
  if u_onComplete options is Some _ then [UserOnComplete] else [].

Definition error_shown (err : Thrown) : list HookEvent :=
  if u_onError options is Some _ then [UserOnError err] else [].

(** Whether [handleError] counts a retry in this state. *)
Definition counts_retry (st : HookState) : bool :=
  opt_enableRetry options
  && bool_decide (retryCountRef st < opt_maxRetries options)%nat.

(** The note of [handleError] about a retry. *)
Definition retry_noted (st : HookState) : list HookEvent :=
  if counts_retry st then
    [HookLog ("Retry attempt " +:+ show_nat (retryCountRef st + 1) +:+ "/"
              +:+ show_nat (opt_maxRetries options) +:+ "...")]
  else [].

(** The retry counter is within its bound, and no error is shown while
    the hook reports streaming. *)
Definition consistent (st : HookState) : Prop :=
  (retryCountRef st ≤ opt_maxRetries options)%nat
  ∧ (is_Some (error st) → isStreaming st = false).

End Options.

End HookSpec.

(** ** What the upload hook shows *)

Module UploadSpec.
Import UseFileUpload.

(** The progress values that [uploadFile] reports. *)
Definition percentages : list Z := [0; 10; 20; 30; 40; 50; 60; 70; 80; 90; 100].

(** The URL that the mock service gives to a file. *)
Definition mock_url (gid : string) (f : File) : string :=
  "https://cdn.example.com/uploads/" +:+ gid +:+ "_" +:+ name f.

(** An entry once its upload has succeeded, and once it has failed at
    some progress. *)
Definition finished (url : string) (f : IExtendedFile) : IExtendedFile := {|
  file := file f;
  filename := filename f;
  cdnUrl := Some url;
  isUploading := Some false;
  uploadId := uploadId f;
  uploadAbortController := uploadAbortController f;
  uploadProgress := Some 100;
  uploadError := uploadError f
|}.

Definition failed_at (progress : Z) (message : string) (f : IExtendedFile)
  : IExtendedFile := {|
  file := file f;
  filename := filename f;
  cdnUrl := cdnUrl f;
  isUploading := Some false;
  uploadId := uploadId f;
  uploadAbortController := uploadAbortController f;
  uploadProgress := Some progress;
  uploadError := Some message
|}.

(** [prev.map(f => f.uploadId === id ? change(f) : f)] *)
Definition change_entries (id : UploadId) (change : IExtendedFile → IExtendedFile)
    (files : list IExtendedFile) : list IExtendedFile :=
  map (λ f, if bool_decide (uploadId f = id) then change f else f) files.

(** The message and the error that the [catch] of [processFileUpload]
    makes of what was thrown. *)
Definition failure_message (error : Thrown) : string :=
  match error with
  | JsError _ message => message
  | _ => UPLOAD_FAILED
  end.

Definition failure_reported (error : Thrown) : Thrown :=
  if instanceof_Error error then error else JsError "Error" (failure_message error).

Section Options.
Variable options : UseFileUploadOptions.

(** What [uploadFiles] accepts of a candidate. *)
Definition accepted (f : File) : bool :=
  includes (opt_allowedTypes options) (type f)
  && N.leb (size f) MAX_FILE_SIZE
  && includes ALLOWED_FILE_TYPES (type f).

End Options.

(** The identifiers of the batch are distinct and were made by this
    hook: their counters are within the counter of the hook. *)
Definition ids_distinct (st : HookState) : Prop :=
  NoDup (map uploadId (uploadedFiles st))
  ∧ Forall (λ f, (uid_counter (uploadId f) ≤ uploadCounterRef st)%nat)
      (uploadedFiles st).

End UploadSpec.

(** ** A platform for the examples: UTF-8 and a tabulated parser *)

Module Utf8.

(** State of the UTF-8 decoder of the Encoding standard, with the flag of
    [TextDecoder] that drops a leading byte order mark. *)
Record State : Type := {
  code_point : N;
  bytes_seen : N;
  bytes_needed : N;
  lower : N;
  upper : N;
  bom_seen : bool
}.

Definition init : State := {|
  code_point := 0; bytes_seen := 0; bytes_needed := 0;
  lower := 128; upper := 191; bom_seen := false
|}.

Definition reset (bom : bool) : State := {|
  code_point := 0; bytes_seen := 0; bytes_needed := 0;
  lower := 128; upper := 191; bom_seen := bom
|}.

(** A code point as UTF-16 code units. *)
Definition utf16 (cp : N) : jsstring :=
  if N.ltb cp 65536 then [cp]
  else [(55296 + (cp - 65536) / 1024)%N; (56320 + (cp - 65536) mod 1024)%N].

(** Output of a code point, dropping a byte order mark at the start. *)
Definition output (bom : bool) (cp : N) : jsstring :=
  if negb bom && N.eqb cp 65279 then [] else utf16 cp.

(** A byte that arrives when no sequence is open. *)
Definition lead (bom : bool) (b : N) : State * jsstring :=
  if N.leb b 127 then (reset true, output bom b)
  else if N.leb 194 b && N.leb b 223 then
    ({| code_point := N.land b 31; bytes_seen := 0; bytes_needed := 1;
        lower := 128; upper := 191; bom_seen := bom |}, [])
  else if N.leb 224 b && N.leb b 239 then
    ({| code_point := N.land b 15; bytes_seen := 0; bytes_needed := 2;
        lower := if N.eqb b 224 then 160 else 128;
        upper := if N.eqb b 237 then 159 else 191; bom_seen := bom |}, [])
  else if N.leb 240 b && N.leb b 244 then
    ({| code_point := N.land b 7; bytes_seen := 0; bytes_needed := 3;
        lower := if N.eqb b 240 then 144 else 128;
        upper := if N.eqb b 244 then 143 else 191; bom_seen := bom |}, [])
  else (reset true, output bom 65533).

Definition step (st : State) (byte : byte) : State * jsstring :=
  let b := Byte.to_N byte in
  if N.eqb (bytes_needed st) 0 then lead (bom_seen st) b
  else if negb (N.leb (lower st) b && N.leb b (upper st)) then
    let (st', out) := lead true b in
    (st', output (bom_seen st) 65533 ++ out)
  else
    let cp := N.lor (N.shiftl (code_point st) 6) (N.land b 63) in
    if N.eqb (bytes_seen st + 1) (bytes_needed st) then
      (reset true, output (bom_seen st) cp)
    else
      ({| code_point := cp; bytes_seen := bytes_seen st + 1;
          bytes_needed := bytes_needed st; lower := 128; upper := 191;
          bom_seen := bom_seen st |}, []).

End Utf8.

(** [JSON.parse] on the texts listed in [table]; a syntax error on the
    others. *)
Definition parse_table (table : list (jsstring * JSON)) (text : jsstring)
  : JSON + Thrown :=
  match assoc text table with
  | Some v => inl v
  | None => inr (JsError "SyntaxError" "Unexpected token")
  end.

Definition example_platform (table : list (jsstring * JSON)) : Platform := {|
  DecoderState := Utf8.State;
  decoder_init := Utf8.init;
  decoder_step := Utf8.step;
  JSON_parse := parse_table table
|}.

(** ** Inputs of the examples *)

Module Examples.
Import Streaming StreamingSpec.

(** A string literal between double quotes. *)
Definition quoted (s : jsstring) : jsstring := [34%N] ++ s ++ [34%N].

(** [{"type":"<type>","content":"<content>"}] *)
Definition record_text (type : string) (content : jsstring) : jsstring :=
  lit "{" ++ quoted (lit "type") ++ lit ":" ++ quoted (lit type) ++ lit ","
  ++ quoted (lit "content") ++ lit ":" ++ quoted content ++ lit "}".

Definition record_value (type : string) (content : jsstring) : JSON :=
  JObj [(lit "type", JStr (lit type)); (lit "content", JStr content)].

(** "Héllo", with a character of two bytes. *)
Definition hello : jsstring := [72; 233; 108; 108; 111]%N.
Definition world : jsstring := lit " world".

Definition table : list (jsstring * JSON) :=
  [(record_text "streaming" hello, record_value "streaming" hello);
   (record_text "supervisor_streaming" world,
    record_value "supervisor_streaming" world);
   (lit "null", JNull)].

Definition platform : Platform := example_platform table.

(** Three complete lines, the second of which is not a record, and the
    beginning of a fourth. *)
Definition text : jsstring :=
  lit "data: " ++ record_text "streaming" hello ++ [LF]
  ++ lit "data: {oops" ++ [LF]
  ++ record_text "supervisor_streaming" world ++ [LF]
  ++ lit "data: {".

(** UTF-8 of a text whose code units are below 2048. *)
Definition utf8_encode (s : jsstring) : list byte :=
  omap Byte.of_N
    (concat (map (λ c, if N.ltb c 128 then [c]
                       else [N.lor 192 (N.shiftr c 6); N.lor 128 (N.land c 63)])%N s)).

Definition input : list byte := utf8_encode text.

(** The input in one piece, and cut inside the two-byte character, inside
    the second line and right after a line feed. *)
Definition whole : list (list byte) := [input].
Definition pieces : list (list byte) :=
  [take 39 input; take 11 (drop 39 input); take 8 (drop 50 input);
   drop 58 input]%nat.

(** A consumer without state that returns from every callback. *)
Definition quiet : StreamingConfig Empty_set unit := {|
  endpoint := lit "/api/stream";
  request := {| message := lit "Hi"; threadId := lit "thread_1";
                uploadedFiles := None; isNewChat := None; productMode := None |};
  onThreadIdChange := None;
  onChunk := λ _, ret tt;
  onComplete := λ _, ret tt;
  onError := λ _, ret tt
|}.

(** A consumer whose error callback throws what it is given. *)
Definition rethrowing : StreamingConfig Empty_set unit := {|
  endpoint := lit "/api/stream";
  request := request quiet;
  onThreadIdChange := None;
  onChunk := λ _, ret tt;
  onComplete := λ _, ret tt;
  onError := λ e, throw e
|}.

Definition default_options : BackoffOptions := {|
  maxRetries := None; initialDelay := None; maxDelay := None; multiplier := None
|}.

Definition connection_refused : Thrown := JsError "TypeError" "Failed to fetch".

(** The transport fails on the first two attempts and succeeds on the
    third. *)
Definition fails_twice (attempt : nat) : FetchOutcome :=
  if bool_decide (attempt < 2)%nat then FetchRejects connection_refused
  else streams whole ReadDone.

(** The signal is aborted while the second fragment is awaited. *)
Definition aborted_midway : FetchOutcome :=
  streams [take 50 input]%nat (ReadRejects AbortError).

(** A clock for the time stamps of the mock session. *)
Definition clock (k : nat) : Z := 1700000000000 + Z.of_nat k.

(** The hook with callbacks that return, and two requests. *)
Definition hook_options : UseStreaming.UseStreamingOptions := {|
  UseStreaming.u_onChunk := Some (λ _, None);
  UseStreaming.u_onComplete := Some (λ _, None);
  UseStreaming.u_onError := Some (λ _, None);
  UseStreaming.enableRetry := None;
  UseStreaming.maxRetries := None
|}.

Definition first_request : StreamRequest := {|
  message := lit "Hello"; threadId := lit "thread_1";
  uploadedFiles := None; isNewChat := None; productMode := None
|}.


(** The hook after [startStream(first_request)] has opened its session
    and is suspended in the first [delay] of [mockStreaming]. *)
Definition streaming_state : UseStreaming.HookState :=
  final (UseStreaming.open_session first_request UseStreaming.initial).

End Examples.

Module UploadExamples.
Import UseFileUpload.

Definition photo (n : nat) : File := {|
  name := "photo" +:+ Streaming.show_nat n +:+ ".png";
  size := 204800;
  type := "image/png"
|}.

Definition options : UseFileUploadOptions := {|
  maxFiles := None;
  allowedTypes := None;
  onUploadComplete := Some (λ _, None);
  onUploadError := Some (λ _, None);
  onProgress := Some (λ _, None)
|}.

Definition clock (k : nat) : Z := 1700000000000 + Z.of_nat k.

(** One photo was enqueued and its upload is under way. *)
Definition one_started : Res UploadEvent HookState (list UploadTask) :=
  uploadFiles options [] clock [photo 1] initial.

Definition photo_id : UploadId := {| uid_time := clock 1; uid_counter := 1 |}.

Definition photo_entry : IExtendedFile := {|
  file := photo 1;
  filename := {| sf_timestamp := clock 0; sf_original := name (photo 1) |};
  cdnUrl := None;
  isUploading := Some true;
  uploadId := photo_id;
  uploadAbortController := Some 0%nat;
  uploadProgress := Some 0;
  uploadError := None
|}.

Definition photo_task : UploadTask := {| t_entry := photo_entry; t_pc := AtProgress 0 |}.

(** The entry of the photo in the batch, at some progress, and once it is
    uploaded. *)
Definition entry_at (progress : Z) : IExtendedFile := {|
  file := photo 1;
  filename := {| sf_timestamp := clock 0; sf_original := name (photo 1) |};
  cdnUrl := None;
  isUploading := Some true;
  uploadId := photo_id;
  uploadAbortController := Some 0%nat;
  uploadProgress := Some progress;
  uploadError := None
|}.

Definition uploaded_entry : IExtendedFile := {|
  file := photo 1;
  filename := {| sf_timestamp := clock 0; sf_original := name (photo 1) |};
  cdnUrl := Some "https://cdn.example.com/uploads/g1_photo1.png"%string;
  isUploading := Some false;
  uploadId := photo_id;
  uploadAbortController := Some 0%nat;
  uploadProgress := Some 100;
  uploadError := None
|}.

(** The upload has reported 0, 10, 20 and 30 percent. *)
Definition at_thirty : Res UploadEvent HookState UploadTask :=
  resume_times options 4 "g1" photo_task (final one_started).

(** Then the application cancels it. *)
Definition cancelled : Res UploadEvent HookState unit :=
  cancelUpload photo_id (final at_thirty).

(** The upload task runs on to its end. *)
Definition after_cancel : Res UploadEvent HookState UploadTask :=
  resume_times options 7 "g1"
    {| t_entry := photo_entry; t_pc := AtProgress 40 |} (final cancelled).

(** The upload has run to its end without being cancelled. *)
Definition uploaded : Res UploadEvent HookState UploadTask :=
  resume_times options 11 "g1" photo_task (final one_started).

(** Four photos were enqueued: one slot remains. *)
Definition four_started : Res UploadEvent HookState (list UploadTask) :=
  uploadFiles options [] clock [photo 1; photo 2; photo 3; photo 4] initial.

(** Two photos were enqueued, and the upload of the first one is
    cancelled: the entry of the second one stays in the batch. *)
Definition two_started : Res UploadEvent HookState (list UploadTask) :=
  uploadFiles options [] clock [photo 1; photo 2] initial.

Definition second_id : UploadId := {| uid_time := clock 3; uid_counter := 2 |}.

Definition second_entry : IExtendedFile := {|
  file := photo 2;
  filename := {| sf_timestamp := clock 2; sf_original := name (photo 2) |};
  cdnUrl := None;
  isUploading := Some true;
  uploadId := second_id;
  uploadAbortController := Some 1%nat;
  uploadProgress := Some 0;
  uploadError := None
|}.

Definition first_cancelled : Res UploadEvent HookState unit :=
  cancelUpload photo_id (final two_started).

(** A progress update, as the progress callback of an upload makes it. *)
Definition progress_updates (progress : Z) : Updates := {|
  set_file := None; set_filename := None; set_cdnUrl := None;
  set_isUploading := None; set_uploadId := None;
  set_uploadAbortController := None;
  set_uploadProgress := Some (Some progress);
  set_uploadError := None
|}.

End UploadExamples.

(** ** Inputs of the further examples *)

Module HelperExamples.
Import Helpers.

(** A function that fails on its first two calls, which it counts in the
    state, and then returns the number of failures. *)
Definition flaky : M Empty_set nat nat :=
  n ← get;
  put (S n) ;;
  if bool_decide (n < 2)%nat then throw (JsError "Error" "busy") else ret n.

(** A function that always fails. *)
Definition failing : M Empty_set unit nat := throw (JsError "Error" "down").

Definition default_options : RetryOptions := {|
  r_maxRetries := None; r_delay := None; r_backoffMultiplier := None
|}.

End HelperExamples.

Module FailureExamples.
Import Streaming StreamingSpec Examples.

(** The transport fails on every attempt. *)
Definition always_refused (attempt : nat) : FetchOutcome :=
  FetchRejects connection_refused.

(** The server answers with status 503. *)
Definition unavailable : FetchOutcome :=
  FetchResponds 503 (Some {| fragments := whole; ending := ReadDone |}).

(** A consumer whose chunk callback throws. *)
Definition choking : StreamingConfig Empty_set unit := {|
  endpoint := lit "/api/stream";
  request := request quiet;
  onThreadIdChange := None;
  onChunk := λ _, throw (JsError "Error" "cannot render");
  onComplete := λ _, ret tt;
  onError := λ _, ret tt
|}.

End FailureExamples.

Module HookExampleInputs.
Import Streaming UseStreaming.

(** The hook with an [onChunk] that throws. *)
Definition choking_options : UseStreamingOptions := {|
  u_onChunk := Some (λ _, Some (JsError "Error" "cannot render"));
  u_onComplete := Some (λ _, None);
  u_onError := Some (λ _, None);
  enableRetry := None;
  maxRetries := None
|}.

End HookExampleInputs.

Module UploadFailureExamples.
Import UseFileUpload UploadExamples.

(** The hook with a progress callback that throws at 30 percent. *)
Definition fragile_options : UseFileUploadOptions := {|
  maxFiles := None;
  allowedTypes := None;
  onUploadComplete := Some (λ _, None);
  onUploadError := Some (λ _, None);
  onProgress :=
    Some (λ report, if bool_decide (report.2 = 30)
                    then Some (JsError "Error" "cannot render") else None)
|}.

End UploadFailureExamples.

(** * Properties *)

(** ** The monad *)

Section MonadFacts.
Context {E S : Type}.
Implicit Types s : S.

Lemma after_nil {A} (r : Res E S A) : after [] r = r.
Proof. by destruct r. Qed.

Lemma after_after {A} t1 t2 (r : Res E S A) :
  after t1 (after t2 r) = after (t1 ++ t2) r.
Proof. unfold after; simpl. by rewrite app_assoc. Qed.

Lemma run_bind {A B} (m : M E S A) (k : A → M E S B) s :
  (m ≫= k) s =
  match outcome (m s) with
  | inl a => after (trace (m s)) (k a (final (m s)))
  | inr e => Result (trace (m s)) (final (m s)) (inr e)
  end.
Proof. reflexivity. Qed.

Lemma run_bind_returns {A B} (m : M E S A) (k : A → M E S B) s a :
  outcome (m s) = inl a →
  (m ≫= k) s = after (trace (m s)) (k a (final (m s))).
Proof. intros H. by rewrite run_bind, H. Qed.

Lemma run_bind_throws {A B} (m : M E S A) (k : A → M E S B) s e :
  outcome (m s) = inr e →
  (m ≫= k) s = Result (trace (m s)) (final (m s)) (inr e).
Proof. intros H. by rewrite run_bind, H. Qed.

Lemma run_try_catch {A} (m : M E S A) h s :
  try_catch m h s =
  match outcome (m s) with
  | inl a => m s
  | inr e => after (trace (m s)) (h e (final (m s)))
  end.
Proof. reflexivity. Qed.

Lemma bind_ret_l {A B} (a : A) (k : A → M E S B) s : (ret a ≫= k) s = k a s.
Proof. rewrite run_bind; simpl. apply after_nil. Qed.

Lemma bind_assoc {A B C} (m : M E S A) (k : A → M E S B) (h : B → M E S C) s :
  ((m ≫= k) ≫= h) s = (m ≫= (λ a, k a ≫= h)) s.
Proof.
  rewrite !run_bind.
  destruct (outcome (m s)) as [a|e] eqn:Hm; simpl; [|done].
  rewrite run_bind.
  destruct (outcome (k a (final (m s)))) as [b|e]; simpl; [|done].
  by rewrite after_after.
Qed.

Lemma bind_ext {A B} (m : M E S A) (k k' : A → M E S B) s :
  (∀ a s', k a s' = k' a s') → (m ≫= k) s = (m ≫= k') s.
Proof. intros H. rewrite !run_bind. destruct (outcome (m s)); by rewrite ?H. Qed.

Lemma bind_ext_l {A B} (m m' : M E S A) (k : A → M E S B) s :
  m s = m' s → (m ≫= k) s = (m' ≫= k) s.
Proof. intros H. by rewrite !run_bind, H. Qed.

Lemma try_catch_ext {A} (m m' : M E S A) h s :
  m s = m' s → try_catch m h s = try_catch m' h s.
Proof. intros H. by rewrite !run_try_catch, H. Qed.

Lemma for_each_app {A} (body : A → M E S unit) l1 l2 s :
  for_each body (l1 ++ l2) s = (for_each body l1 ;; for_each body l2) s.
Proof.
  revert s; induction l1 as [|x l1 IH]; intros s; simpl.
  - by rewrite bind_ret_l.
  - rewrite bind_assoc. by apply bind_ext.
Qed.

(** The events of the first part of a sequence come first. *)
Lemma trace_bind {A B} (m : M E S A) (k : A → M E S B) s :
  ∃ t, trace ((m ≫= k) s) = trace (m s) ++ t.
Proof.
  rewrite run_bind. destruct (outcome (m s)); simpl; eauto.
  exists []. by rewrite app_nil_r.
Qed.

Lemma trace_try_catch {A} (m : M E S A) h s :
  ∃ t, trace (try_catch m h s) = trace (m s) ++ t.
Proof.
  rewrite run_try_catch. destruct (outcome (m s)); simpl; eauto.
  exists []. by rewrite app_nil_r.
Qed.

(** *** Events *)

Section Emits.
Variable ok : E → Prop.

Lemma emits_ret {A} (a : A) : emits_only ok (ret a : M E S A).
Proof. intros s; constructor. Qed.

Lemma emits_throw {A} e : emits_only ok (throw e : M E S A).
Proof. intros s; constructor. Qed.

Lemma emits_get : emits_only ok (get : M E S S).
Proof. intros s; constructor. Qed.

Lemma emits_modify f : emits_only ok (modify f : M E S unit).
Proof. intros s; constructor. Qed.

Lemma emits_put s' : emits_only ok (put s' : M E S unit).
Proof. intros s; constructor. Qed.

Lemma emits_emit ev : ok ev → emits_only ok (emit ev : M E S unit).
Proof. intros H s. by repeat constructor. Qed.

Lemma emits_bind {A B} (m : M E S A) (k : A → M E S B) :
  emits_only ok m → (∀ a, emits_only ok (k a)) → emits_only ok (m ≫= k).
Proof.
  intros Hm Hk s. rewrite run_bind.
  destruct (outcome (m s)); simpl; [|apply Hm].
  apply Forall_app; split; [apply Hm | apply Hk].
Qed.

Lemma emits_try_catch {A} (m : M E S A) h :
  emits_only ok m → (∀ e, emits_only ok (h e)) → emits_only ok (try_catch m h).
Proof.
  intros Hm Hh s. rewrite run_try_catch.
  destruct (outcome (m s)); simpl; [apply Hm|].
  apply Forall_app; split; [apply Hm | apply Hh].
Qed.

Lemma emits_for_each {A} (body : A → M E S unit) l :
  (∀ x, emits_only ok (body x)) → emits_only ok (for_each body l).
Proof.
  intros H. induction l; simpl; [apply emits_ret|].
  apply emits_bind; auto.
Qed.

Lemma emits_lift {X A} (inj : X → E) (m : M X S A) :
  (∀ x, ok (inj x)) → emits_only ok (lift inj m).
Proof.
  intros H s. unfold lift; simpl. apply Forall_fmap, Forall_true. intros x; apply H.
Qed.

Lemma emits_notify {A} (cb : option (Callback A)) ev (x : A) :
  ok ev → emits_only ok (notify cb ev x : M E S unit).
Proof.
  intros H. unfold notify. destruct cb as [f|]; [|apply emits_ret].
  apply emits_bind; [by apply emits_emit|]. intros _.
  destruct (f x); [apply emits_throw | apply emits_ret].
Qed.

End Emits.

(** *** State *)

Section Keeps.
Context {B : Type}.
Variable f : S → B.

Lemma keeps_ret {A} (a : A) : keeps f (ret a : M E S A).
Proof. by intros s. Qed.

Lemma keeps_throw {A} e : keeps f (throw e : M E S A).
Proof. by intros s. Qed.

Lemma keeps_get : keeps f (get : M E S S).
Proof. by intros s. Qed.

Lemma keeps_emit ev : keeps f (emit ev : M E S unit).
Proof. by intros s. Qed.

Lemma keeps_modify g : (∀ s, f (g s) = f s) → keeps f (modify g : M E S unit).
Proof. intros H s. apply H. Qed.

Lemma keeps_bind {A C} (m : M E S A) (k : A → M E S C) :
  keeps f m → (∀ a, keeps f (k a)) → keeps f (m ≫= k).
Proof.
  intros Hm Hk s. rewrite run_bind.
  destruct (outcome (m s)); simpl; [|apply Hm].
  by rewrite Hk, Hm.
Qed.

Lemma keeps_try_catch {A} (m : M E S A) h :
  keeps f m → (∀ e, keeps f (h e)) → keeps f (try_catch m h).
Proof.
  intros Hm Hh s. rewrite run_try_catch.
  destruct (outcome (m s)); simpl; [apply Hm|].
  by rewrite Hh, Hm.
Qed.

Lemma keeps_for_each {A} (body : A → M E S unit) l :
  (∀ x, keeps f (body x)) → keeps f (for_each body l).
Proof.
  intros H. induction l; simpl; [apply keeps_ret|].
  apply keeps_bind; auto.
Qed.

Lemma keeps_notify {A} (cb : option (Callback A)) ev (x : A) :
  keeps f (notify cb ev x : M E S unit).
Proof.
  unfold notify. destruct cb as [g|]; [|apply keeps_ret].
  apply keeps_bind; [apply keeps_emit|]. intros _.
  destruct (g x); [apply keeps_throw | apply keeps_ret].
Qed.

End Keeps.

Lemma keeps_lift {X B A} (f : S → B) (inj : X → E) (m : M X S A) :
  keeps f m → keeps f (lift inj m).
Proof. intros H s. apply H. Qed.

Section KeepsOn.
Variable I : S → Prop.

Lemma keeps_on_ret {A} (a : A) : keeps_on I (ret a : M E S A).
Proof. by intros s. Qed.

Lemma keeps_on_throw {A} e : keeps_on I (throw e : M E S A).
Proof. by intros s. Qed.

Lemma keeps_on_emit ev : keeps_on I (emit ev : M E S unit).
Proof. by intros s. Qed.

Lemma keeps_on_get : keeps_on I (get : M E S S).
Proof. by intros s. Qed.

Lemma keeps_on_modify g : (∀ s, I s → g s = s) → keeps_on I (modify g : M E S unit).
Proof. intros H s. apply H. Qed.

Lemma keeps_on_bind {A C} (m : M E S A) (k : A → M E S C) :
  keeps_on I m → (∀ a, keeps_on I (k a)) → keeps_on I (m ≫= k).
Proof.
  intros Hm Hk s Hs. rewrite run_bind.
  destruct (outcome (m s)); simpl; [|by apply Hm].
  rewrite (Hm s Hs). by apply Hk.
Qed.

Lemma keeps_on_try_catch {A} (m : M E S A) h :
  keeps_on I m → (∀ e, keeps_on I (h e)) → keeps_on I (try_catch m h).
Proof.
  intros Hm Hh s Hs. rewrite run_try_catch.
  destruct (outcome (m s)); simpl; [by apply Hm|].
  rewrite (Hm s Hs). by apply Hh.
Qed.

Lemma keeps_on_notify {A} (cb : option (Callback A)) ev (x : A) :
  keeps_on I (notify cb ev x : M E S unit).
Proof. intros s _. apply (keeps_notify (λ s, s)). Qed.

End KeepsOn.

(** *** Normal return *)

Lemma total_ret {A} (a : A) : total (ret a : M E S A).
Proof. by intros s. Qed.

Lemma total_emit ev : total (emit ev : M E S unit).
Proof. by intros s. Qed.

Lemma total_modify g : total (modify g : M E S unit).
Proof. by intros s. Qed.

Lemma total_bind {A B} (m : M E S A) (k : A → M E S B) :
  total m → (∀ a, total (k a)) → total (m ≫= k).
Proof.
  intros Hm Hk s. unfold returned. rewrite run_bind.
  specialize (Hm s). unfold returned in Hm.
  destruct (outcome (m s)) as [a|]; [|done]. simpl. apply Hk.
Qed.

Lemma total_try_catch {A} (m : M E S A) h :
  (∀ e, total (h e)) → total (try_catch m h).
Proof.
  intros Hh s. unfold returned. rewrite run_try_catch.
  destruct (outcome (m s)) as [a|e] eqn:Hm; [by rewrite Hm|]. simpl. apply Hh.
Qed.

Lemma total_for_each {A} (body : A → M E S unit) l :
  (∀ x, total (body x)) → total (for_each body l).
Proof.
  intros H. induction l; simpl; [apply total_ret|].
  apply total_bind; auto.
Qed.

Lemma total_outcome (m : M E S unit) s : total m → outcome (m s) = inl tt.
Proof.
  intros H. specialize (H s). unfold returned in H.
  by destruct (outcome (m s)) as [[]|].
Qed.

End MonadFacts.

Create HintDb emits.
Create HintDb keeps.
Create HintDb total.
#[local] Hint Resolve emits_ret emits_throw emits_get emits_modify emits_put
  emits_emit emits_bind emits_try_catch emits_for_each emits_lift emits_notify
  : emits.
#[local] Hint Resolve keeps_ret keeps_throw keeps_get keeps_emit keeps_modify
  keeps_bind keeps_try_catch keeps_for_each keeps_notify keeps_lift : keeps.
#[local] Hint Resolve total_ret total_emit total_modify total_bind
  total_try_catch total_for_each : total.

(** An event of one kind is not of another kind, and a setter leaves the
    other fields alone. *)
#[local] Hint Extern 1 (¬ _) => (let H := fresh in intros H; exact H) : emits.
#[local] Hint Extern 1 (_ = _) => reflexivity : keeps.

(** ** Lines *)

Section Lines.
Implicit Types s a b : jsstring.

Lemma split_nonempty sep s : split sep s ≠ [].
Proof.
  destruct s as [|c s]; simpl; [done|].
  destruct (N.eqb c sep); [done|]. by destruct (split sep s).
Qed.

Lemma removelast_cons {A} (x : A) l : l ≠ [] → removelast (x :: l) = x :: removelast l.
Proof. by destruct l. Qed.

Lemma last_cons_nonempty {A} (x : A) l : l ≠ [] → last (x :: l) = last l.
Proof. by destruct l. Qed.

(** Splitting a text that continues: the complete lines of the first part
    stay, and the last piece is continued. *)
Lemma split_app sep a b :
  split sep (a ++ b) =
  removelast (split sep a) ++ split sep (or_empty (last (split sep a)) ++ b).
Proof.
  induction a as [|c a IH]; [done|].
  pose proof (split_nonempty sep a) as Hne.
  simpl. destruct (N.eqb c sep) eqn:Hc.
  - rewrite removelast_cons, last_cons_nonempty by done.
    simpl. by rewrite IH.
  - rewrite IH. destruct (split sep a) as [|l ls] eqn:Hs; [done|].
    destruct ls as [|l' ls]; simpl.
    + by rewrite Hc.
    + done.
Qed.

(** The last piece holds no separator. *)
Lemma split_last sep s :
  split sep (or_empty (last (split sep s))) = [or_empty (last (split sep s))].
Proof.
  induction s as [|c s IH]; [done|].
  pose proof (split_nonempty sep s) as Hne.
  simpl. destruct (N.eqb c sep) eqn:Hc.
  - by rewrite last_cons_nonempty.
  - destruct (split sep s) as [|l ls] eqn:Hs; [done|].
    destruct ls as [|l' ls]; simpl in *.
    + rewrite Hc. by rewrite IH.
    + done.
Qed.

Lemma complete_lines_app a b :
  StreamingSpec.complete_lines (a ++ b) =
  StreamingSpec.complete_lines a
  ++ StreamingSpec.complete_lines (StreamingSpec.partial_line a ++ b).
Proof.
  unfold StreamingSpec.complete_lines, StreamingSpec.partial_line, pop; simpl.
  rewrite split_app. apply removelast_app, split_nonempty.
Qed.

Lemma partial_line_app a b :
  StreamingSpec.partial_line (a ++ b) =
  StreamingSpec.partial_line (StreamingSpec.partial_line a ++ b).
Proof.
  unfold StreamingSpec.partial_line, pop; simpl.
  rewrite split_app.
  pose proof (split_nonempty LF (or_empty (last (split LF a)) ++ b)) as Hne.
  rewrite last_app.
  destruct (last (split LF (or_empty (last (split LF a)) ++ b))) eqn:Hl; [done|].
  by apply last_None in Hl.
Qed.

Lemma complete_lines_partial a :
  StreamingSpec.complete_lines (StreamingSpec.partial_line a) = [].
Proof.
  unfold StreamingSpec.complete_lines, StreamingSpec.partial_line, pop; simpl.
  by rewrite split_last.
Qed.

Lemma partial_line_partial a :
  StreamingSpec.partial_line (StreamingSpec.partial_line a) = StreamingSpec.partial_line a.
Proof.
  unfold StreamingSpec.partial_line, pop; simpl. by rewrite split_last.
Qed.

End Lines.

(** ** The streaming loop *)

Section StreamingFacts.
Import Streaming StreamingSpec.
Context {X St : Type}.
Variable P : Platform.
Variable config : StreamingConfig X St.
Implicit Types s : St.

Local Abbreviation not_chunk := (λ ev : StreamEvent X, ¬ is_OnChunk ev).
Local Abbreviation not_error := (λ ev : StreamEvent X, ¬ is_OnError ev).
Local Abbreviation not_timer := (λ ev : StreamEvent X, ¬ is_SetTimeout ev).

Lemma decode_app d a b :
  decode P d (a ++ b) =
  let (d1, out1) := decode P d a in
  let (d2, out2) := decode P d1 b in
  (d2, out1 ++ out2).
Proof.
  revert d; induction a as [|x a IH]; intros d; simpl.
  - by destruct (decode P d b).
  - destruct (decoder_step P d x) as [d1 o1]. rewrite IH.
    destruct (decode P d1 a) as [d2 o2]. destruct (decode P d2 b) as [d3 o3].
    by rewrite app_assoc.
Qed.

Lemma decode_app_text d a b :
  (decode P d (a ++ b)).2 = (decode P d a).2 ++ (decode P (decode P d a).1 b).2.
Proof.
  rewrite decode_app. destruct (decode P d a) as [d1 o1]; simpl.
  by destruct (decode P d1 b).
Qed.

(** The loop processes the complete lines of what is buffered and still
    to come, whatever the fragments are, and then ends as the stream
    ends. *)
Lemma read_loop_lines frags : ∀ d buffer fin s,
  complete_lines buffer = [] →
  read_loop P config d buffer frags fin s =
  (for_each (process_line P config)
     (complete_lines (buffer ++ (decode P d (concat frags)).2)) ;;
   read_loop P config (decoder_init P) [] [] fin) s.
Proof.
  induction frags as [|value rest IH]; intros d buffer fin s Hbuf.
  - simpl. rewrite app_nil_r, Hbuf. simpl. by rewrite bind_ret_l.
  - simpl. rewrite decode_app_text.
    destruct (decode P d value) as [d' text] eqn:Hd; simpl.
    rewrite app_assoc, complete_lines_app.
    etrans; [|symmetry; apply bind_ext_l, for_each_app].
    rewrite bind_assoc. apply bind_ext. intros _ s'.
    apply (IH d' (partial_line (buffer ++ text))), complete_lines_partial.
Qed.

Lemma startStreaming_streams frags fin s :
  startStreaming P config (streams frags fin) s =
  try_catch
    (emit (Fetch (endpoint config) (requestBody config)) ;;
     (for_each (process_line P config)
        (complete_lines (decoded P (concat frags))) ;;
      read_loop P config (decoder_init P) [] [] fin) ;;
     ret Completed)
    (on_failure config "Stream aborted by user") s.
Proof.
  unfold startStreaming, streams. apply try_catch_ext.
  apply bind_ext. intros _ s'. simpl. apply bind_ext_l.
  by rewrite read_loop_lines.
Qed.

(** *** What a line contributes *)

Lemma chunks_of_none (t : list (StreamEvent X)) :
  Forall not_chunk t → chunks_of t = [].
Proof.
  induction 1 as [|ev t Hev _ IH]; [done|].
  destruct ev; solve [exact IH | by destruct Hev].
Qed.

Lemma chunks_of_app (t1 t2 : list (StreamEvent X)) :
  chunks_of (t1 ++ t2) = chunks_of t1 ++ chunks_of t2.
Proof. apply omap_app. Qed.

Lemma consumer_not_chunk {A} (m : M X St A) : emits_only not_chunk (consumer m).
Proof. apply emits_lift. intros x H. exact H. Qed.

Lemma process_line_total line : total (process_line P config line).
Proof. unfold process_line. destruct (is_empty (trim line)); auto with total. Qed.

(** After the chunk is handed over, the rest of the loop body emits no
    further chunk. *)
Lemma process_line_chunks line s :
  chunks_of (trace (process_line P config line s)) =
  option_list (line_payload P line).
Proof.
  unfold process_line, line_payload.
  destruct (is_empty (trim line)); [done|].
  rewrite run_try_catch.
  destruct (JSON_parse P (strip_data_prefix line)) as [chunk|e]; [|done].
  set (rest := (consumer (onChunk config chunk) ≫= _)).
  assert (Hrest : emits_only not_chunk rest).
  { subst rest. apply emits_bind; [apply consumer_not_chunk|]. intros _.
    destruct (get_prop chunk (lit "type")) as [ty|]; [|apply emits_throw].
    destruct (is_str ty "thread_id"); [|apply emits_ret].
    destruct (onThreadIdChange config) as [cb|]; [|apply emits_ret].
    destruct (get_prop chunk (lit "threadId")); [|apply emits_throw].
    apply emits_bind; [apply emits_emit; intros H; exact H|].
    intros _. apply consumer_not_chunk. }
  rewrite run_bind; simpl.
  destruct (outcome (rest s)) eqn:Hr; simpl.
  - by rewrite (chunks_of_none _ (Hrest s)).
  - by rewrite chunks_of_app, (chunks_of_none _ (Hrest s)).
Qed.

Lemma for_each_lines_chunks lines : ∀ s,
  chunks_of (trace (for_each (process_line P config) lines s)) =
  omap (line_payload P) lines.
Proof.
  induction lines as [|line lines IH]; intros s; [done|].
  simpl. rewrite run_bind.
  rewrite (total_outcome _ s (process_line_total line)); simpl.
  rewrite chunks_of_app, process_line_chunks, IH.
  by destruct (line_payload P line).
Qed.

Lemma for_each_lines_total lines : total (for_each (process_line P config) lines).
Proof. apply total_for_each, process_line_total. Qed.

Lemma chunks_try_catch {A} (m : M (StreamEvent X) St A) h s :
  (∀ e, emits_only not_chunk (h e)) →
  chunks_of (trace (try_catch m h s)) = chunks_of (trace (m s)).
Proof.
  intros Hh. rewrite run_try_catch. destruct (outcome (m s)); simpl; [done|].
  by rewrite chunks_of_app, (chunks_of_none _ (Hh _ _)), app_nil_r.
Qed.

Lemma chunks_bind_tail {A B} (m : M (StreamEvent X) St A) (k : A → M _ St B) s :
  (∀ a, emits_only not_chunk (k a)) →
  chunks_of (trace ((m ≫= k) s)) = chunks_of (trace (m s)).
Proof.
  intros Hk. rewrite run_bind. destruct (outcome (m s)); simpl; [|done].
  by rewrite chunks_of_app, (chunks_of_none _ (Hk _ _)), app_nil_r.
Qed.

#[local] Hint Resolve consumer_not_chunk : emits.

Lemma on_failure_not_chunk msg e : emits_only not_chunk (on_failure config msg e).
Proof. unfold on_failure. destruct (is_AbortError e); eauto 8 with emits. Qed.

Lemma end_of_stream_not_chunk d fin :
  emits_only not_chunk (read_loop P config d [] [] fin).
Proof. destruct fin; simpl; eauto 8 with emits. Qed.

Lemma startStreaming_chunks frags fin s :
  chunks_of (trace (startStreaming P config (streams frags fin) s)) =
  payloads P (decoded P (concat frags)).
Proof.
  rewrite startStreaming_streams.
  rewrite chunks_try_catch by apply on_failure_not_chunk.
  rewrite run_bind; simpl.
  rewrite chunks_bind_tail by (intros; apply emits_ret).
  rewrite chunks_bind_tail
    by (intros; apply (end_of_stream_not_chunk (decoder_init P))).
  apply for_each_lines_chunks.
Qed.

(** C1.  Split-anywhere idempotence of the streaming loop: two sequences
    of fragments with the same concatenation make [startStreaming]
    behave identically (same events, same final state of the consumer,
    same result), the chunks handed to [onChunk] are the payloads of the
    complete lines of the whole decoded input, and so the concatenated
    content of the text-delta chunks is that of those payloads. *)
Theorem split_anywhere_idempotence frags1 frags2 fin s :
  concat frags1 = concat frags2 →
  startStreaming P config (streams frags1 fin) s =
    startStreaming P config (streams frags2 fin) s
  ∧ chunks_of (trace (startStreaming P config (streams frags1 fin) s)) =
      payloads P (decoded P (concat frags2))
  ∧ delivered_text (trace (startStreaming P config (streams frags1 fin) s)) =
      concat (map content_of
                (List.filter is_text_delta (payloads P (decoded P (concat frags2))))).
Proof.
  intros Hsame. split; [|split].
  - by rewrite !startStreaming_streams, Hsame.
  - by rewrite startStreaming_chunks, Hsame.
  - unfold delivered_text. by rewrite startStreaming_chunks, Hsame.
Qed.

End StreamingFacts.

(** ** Failures of the streaming service *)

Section StreamingFailures.
Import Streaming StreamingSpec.
Context {X St : Type}.
Variable P : Platform.
Variable config : StreamingConfig X St.
Implicit Types s : St.

Local Abbreviation not_error := (λ ev : StreamEvent X, ¬ is_OnError ev).
Local Abbreviation not_timer := (λ ev : StreamEvent X, ¬ is_SetTimeout ev).

Lemma errors_of_none (t : list (StreamEvent X)) :
  Forall not_error t → errors_of t = [].
Proof.
  induction 1 as [|ev t Hev _ IH]; [done|].
  destruct ev; solve [exact IH | by destruct Hev].
Qed.

Lemma timeouts_of_none (t : list (StreamEvent X)) :
  Forall not_timer t → timeouts_of t = [].
Proof.
  induction 1 as [|ev t Hev _ IH]; [done|].
  destruct ev; solve [exact IH | by destruct Hev].
Qed.

Lemma timeouts_of_app (t1 t2 : list (StreamEvent X)) :
  timeouts_of (t1 ++ t2) = timeouts_of t1 ++ timeouts_of t2.
Proof. apply omap_app. Qed.

(** The events of the reading loop, for any property of events that holds
    of those the loop can emit. *)
Section LoopEvents.
Variable ok : StreamEvent X → Prop.
Hypothesis ok_chunk : ∀ c, ok (OnChunk c).
Hypothesis ok_thread : ∀ v, ok (OnThreadIdChange v).
Hypothesis ok_warn : ∀ l e, ok (ConsoleWarn l e).
Hypothesis ok_complete : ok OnComplete.
Hypothesis ok_consumer : ∀ x, ok (Consumer x).

Lemma consumer_emits {A} (m : M X St A) : emits_only ok (consumer m).
Proof. by apply emits_lift. Qed.

Lemma process_line_emits line : emits_only ok (process_line P config line).
Proof.
  unfold process_line. destruct (is_empty (trim line)); [apply emits_ret|].
  apply emits_try_catch; [|intros e; by apply emits_emit].
  destruct (JSON_parse P (strip_data_prefix line)) as [chunk|e]; [|apply emits_throw].
  apply emits_bind; [by apply emits_emit|]. intros _.
  apply emits_bind; [apply consumer_emits|]. intros _.
  destruct (get_prop chunk (lit "type")) as [ty|]; [|apply emits_throw].
  destruct (is_str ty "thread_id"); [|apply emits_ret].
  destruct (onThreadIdChange config) as [cb|]; [|apply emits_ret].
  destruct (get_prop chunk (lit "threadId")); [|apply emits_throw].
  apply emits_bind; [by apply emits_emit|]. intros _. apply consumer_emits.
Qed.

Lemma read_loop_emits frags : ∀ d buffer fin,
  emits_only ok (read_loop P config d buffer frags fin).
Proof.
  induction frags as [|value rest IH]; intros d buffer fin; simpl.
  - destruct fin; [|apply emits_throw].
    apply emits_bind; [by apply emits_emit|]. intros _. apply consumer_emits.
  - destruct (decode P d value) as [d' text].
    apply emits_bind; [|intros _; apply IH].
    apply emits_for_each, process_line_emits.
Qed.

End LoopEvents.

(** The [try] block of a session emits the request and the events of the
    loop. *)
Lemma session_body_emits (ok : StreamEvent X → Prop) net :
  (∀ ev, match ev with
         | OnError _ | SetTimeout _ | ConsoleLog _ => True
         | _ => ok ev
         end) →
  emits_only ok
    (emit (Fetch (endpoint config) (requestBody config)) ;;
     match net with
     | FetchRejects e => throw e
     | FetchResponds status body =>
         if negb (response_ok status) then throw (http_error status)
         else match body with
              | None => throw (JsError "Error" "Response body is not readable")
              | Some b =>
                  read_loop P config (decoder_init P) [] (fragments b) (ending b) ;;
                  ret Completed
              end
     end).
Proof.
  intros Hok.
  apply emits_bind; [apply emits_emit, (Hok (Fetch _ _))|]. intros _.
  destruct net as [e|status body]; [apply emits_throw|].
  destruct (negb (response_ok status)); [apply emits_throw|].
  destruct body as [b|]; [|apply emits_throw].
  apply emits_bind; [|intros _; apply emits_ret].
  apply read_loop_emits.
  - intros c. apply (Hok (OnChunk c)).
  - intros v. apply (Hok (OnThreadIdChange v)).
  - intros l e. apply (Hok (ConsoleWarn l e)).
  - apply (Hok OnComplete).
  - intros x. apply (Hok (Consumer x)).
Qed.

(** Nothing but the [catch] of a session reports an error. *)
Lemma session_body_silent net :
  emits_only not_error
    (emit (Fetch (endpoint config) (requestBody config)) ;;
     match net with
     | FetchRejects e => throw e
     | FetchResponds status body =>
         if negb (response_ok status) then throw (http_error status)
         else match body with
              | None => throw (JsError "Error" "Response body is not readable")
              | Some b =>
                  read_loop P config (decoder_init P) [] (fragments b) (ending b) ;;
                  ret Completed
              end
     end).
Proof. apply session_body_emits. intros []; try done; intros H; exact H. Qed.

(** A session sets no timer. *)
Lemma startStreaming_no_timer net :
  emits_only not_timer (startStreaming P config net).
Proof.
  apply emits_try_catch.
  - apply session_body_emits. intros []; try done; intros H; exact H.
  - intros e. unfold on_failure, consumer.
    destruct (is_AbortError e); eauto 8 with emits.
Qed.

(** A [catch] that ends in [Cancelled] has reported no error. *)
Lemma cancelled_silent (body : M (StreamEvent X) St Termination) msg s :
  emits_only not_error body →
  let r := try_catch body (on_failure config msg) s in
  outcome r = inl Cancelled → errors_of (trace r) = [].
Proof.
  intros Hbody r Hr. subst r. apply errors_of_none.
  rewrite run_try_catch in *.
  destruct (outcome (body s)) as [a|e] eqn:Hb; simpl in *; [apply Hbody|].
  apply Forall_app; split; [apply Hbody|].
  unfold on_failure in *. destruct (is_AbortError e).
  - repeat constructor. intros H; exact H.
  - exfalso. rewrite !run_bind in Hr; simpl in Hr.
    destruct (outcome (onError config _ _)); simpl in Hr; discriminate.
Qed.

Lemma startStreaming_responds status frags fin s :
  response_ok status = true →
  startStreaming P config
    (FetchResponds status (Some {| fragments := frags; ending := fin |})) s =
  startStreaming P config (streams frags fin) s.
Proof. intros Hok. unfold startStreaming, streams. by rewrite Hok. Qed.

(** A line that does not parse leaves a warning and nothing else. *)
Lemma process_line_malformed line e s :
  is_empty (trim line) = false →
  JSON_parse P (strip_data_prefix line) = inr e →
  process_line P config line s = Result [ConsoleWarn line e] s (inl tt).
Proof. intros Hline Hparse. unfold process_line. by rewrite Hline, run_try_catch, Hparse. Qed.

(** C7.  A line that fails to parse after the prefix is stripped is
    logged and skipped: the loop over the lines handles the lines before
    it and after it exactly as it would without it, returns normally, so
    that nothing reaches the [catch] of the session or a retry loop, and
    the error callback is not invoked. *)
Theorem malformed_line_is_skipped before line following e s :
  is_empty (trim line) = false →
  JSON_parse P (strip_data_prefix line) = inr e →
  let r1 := for_each (process_line P config) before s in
  let r2 := for_each (process_line P config) following (final r1) in
  let r := for_each (process_line P config) (before ++ line :: following) s in
  r = Result (trace r1 ++ ConsoleWarn line e :: trace r2) (final r2) (inl tt)
  ∧ errors_of (trace r) = []
  ∧ for_each (process_line P config) (before ++ following) s =
      Result (trace r1 ++ trace r2) (final r2) (inl tt).
Proof.
  intros Hline Hparse r1 r2 r.
  pose proof (total_outcome _ s (for_each_lines_total P config before)) as H1.
  pose proof (total_outcome _ (final r1) (for_each_lines_total P config following)) as H2.
  split; [|split].
  - subst r. rewrite for_each_app, run_bind, H1. simpl.
    rewrite run_bind, (process_line_malformed _ _ _ Hline Hparse). simpl.
    fold r1 r2. unfold after; simpl. fold r2 in H2. by rewrite H2.
  - apply errors_of_none. subst r.
    apply emits_for_each. intros l.
    apply process_line_emits; intros; intros H; exact H.
  - rewrite for_each_app, run_bind, H1. fold r1 r2.
    unfold after; simpl. fold r2 in H2. by rewrite H2.
Qed.

Lemma delay_emits abort_at ms k (ok : StreamEvent X → Prop) :
  ok (SetTimeout ms) → emits_only ok (delay (St := St) abort_at ms k).
Proof.
  intros H. apply emits_bind; [by apply emits_emit|]. intros _.
  destruct (bool_decide _); [apply emits_throw | apply emits_ret].
Qed.

Lemma call_onChunk_emits chunk (ok : StreamEvent X → Prop) :
  ok (OnChunk chunk) → (∀ x, ok (Consumer x)) →
  emits_only ok (call_onChunk config chunk).
Proof.
  intros H1 H2. apply emits_bind; [by apply emits_emit|]. intros _.
  by apply emits_lift.
Qed.

Lemma mock_body_silent abort_at now :
  emits_only not_error
    (delay abort_at 500 0 ;;
     call_onChunk config (text_chunk "streaming" (lit "Analyzing your question") (now 0%nat)) ;;
     delay abort_at 800 1 ;;
     call_onChunk config
       (text_chunk "streaming" (lit "Searching for relevant information") (now 1%nat)) ;;
     delay abort_at 1000 2 ;;
     call_onChunk config toolStart_chunk ;;
     delay abort_at 1500 3 ;;
     call_onChunk config (toolUsed_chunk (now 2%nat)) ;;
     delay abort_at 500 4 ;;
     stream_words config abort_at now (split SPACE (mock_response config)) [] 5 ;;
     emit OnComplete ;;
     consumer (onComplete config tt) ;;
     ret Completed).
Proof.
  assert (Hw : ∀ words content k,
            emits_only not_error (stream_words config abort_at now words content k)).
  { induction words as [|w words IH]; intros content k; simpl; [apply emits_ret|].
    apply emits_bind; [apply call_onChunk_emits; intros; intros H; exact H|].
    intros _. apply emits_bind; [apply delay_emits; intros H; exact H|].
    intros _. apply IH. }
  do 4 (apply emits_bind; [apply delay_emits; intros H; exact H|intros _];
        apply emits_bind;
          [apply call_onChunk_emits; intros; intros H; exact H|intros _]).
  apply emits_bind; [apply delay_emits; intros H; exact H|intros _].
  apply emits_bind; [apply Hw|intros _].
  apply emits_bind; [apply emits_emit; intros H; exact H|intros _].
  apply emits_bind; [apply emits_lift; intros x H; exact H|intros _].
  apply emits_ret.
Qed.

(** C8.  Cancellation is absorbed.  When the signal is aborted,
    [startStreaming] ends in [Cancelled] without invoking the error
    callback; a [mockStreaming] session that ends in [Cancelled] has not
    invoked it either; and [reconnectWithBackoff] makes no second attempt
    after an aborted one. *)
Theorem cancellation_is_absorbed :
  (∀ net s, aborted_by_signal net →
     outcome (startStreaming P config net s) = inl Cancelled
     ∧ errors_of (trace (startStreaming P config net s)) = [])
  ∧ (∀ abort_at now s,
       outcome (mockStreaming config abort_at now s) = inl Cancelled →
       errors_of (trace (mockStreaming config abort_at now s)) = [])
  ∧ (∀ options net s, aborted_by_signal (net 0%nat) →
       (0 < opt_maxRetries options)%nat →
       reconnectWithBackoff P config options net s =
       Result (trace (startStreaming P config (net 0%nat) s))
              (final (startStreaming P config (net 0%nat) s)) (inl tt)).
Proof.
  assert (HA : ∀ net s, aborted_by_signal net →
            outcome (startStreaming P config net s) = inl Cancelled).
  { intros net s [|status frags Hok]; [done|].
    rewrite startStreaming_responds, startStreaming_streams by done.
    rewrite run_try_catch, run_bind; simpl.
    rewrite !run_bind; simpl.
    by rewrite (total_outcome _ s (for_each_lines_total P config _)). }
  split; [|split].
  - intros net s Hnet. split; [by apply HA|].
    apply cancelled_silent; [apply session_body_silent | by apply HA].
  - intros abort_at now s. apply cancelled_silent, mock_body_silent.
  - intros options net s Hnet Hmax.
    unfold reconnectWithBackoff.
    destruct (opt_maxRetries options) as [|n] eqn:Hn; [lia|].
    cbn [seq reconnect_loop]. unfold reconnect_round. rewrite Hn.
    rewrite run_bind, run_try_catch, run_bind. rewrite (HA _ s Hnet). simpl.
    unfold after, ret; simpl. by rewrite !app_nil_r.
Qed.

(** One round of the retry loop, after an attempt that returned and after
    one that rejected. *)
Lemma reconnect_round_returns options net attempt delay s t :
  outcome (startStreaming P config (net attempt) s) = inl t →
  reconnect_round P config options net attempt delay s =
  Result (trace (startStreaming P config (net attempt) s))
         (final (startStreaming P config (net attempt) s)) (inl Return).
Proof.
  intros H. unfold reconnect_round.
  rewrite run_try_catch, run_bind, H. simpl.
  unfold after; simpl. by rewrite app_nil_r.
Qed.

Lemma reconnect_round_rejects options net attempt delay s e :
  outcome (startStreaming P config (net attempt) s) = inr e →
  (S attempt < opt_maxRetries options)%nat →
  reconnect_round P config options net attempt delay s =
  Result (trace (startStreaming P config (net attempt) s)
          ++ [ConsoleLog ("Reconnecting in " +:+ show_Z delay +:+ "ms (attempt "
                          +:+ show_nat (attempt + 1) +:+ "/"
                          +:+ show_nat (opt_maxRetries options) +:+ ")...");
              SetTimeout delay])
         (final (startStreaming P config (net attempt) s))
         (inl (Continue (Z.min (delay * opt_multiplier options) (opt_maxDelay options))
                        (asError e))).
Proof.
  intros H Hlt. unfold reconnect_round.
  rewrite run_try_catch, run_bind, H. simpl.
  by rewrite bool_decide_true.
Qed.

Lemma reconnect_round_last options net attempt delay s e :
  outcome (startStreaming P config (net attempt) s) = inr e →
  ¬ (S attempt < opt_maxRetries options)%nat →
  reconnect_round P config options net attempt delay s =
  Result (trace (startStreaming P config (net attempt) s))
         (final (startStreaming P config (net attempt) s))
         (inl (Continue delay (asError e))).
Proof.
  intros H Hlt. unfold reconnect_round.
  rewrite run_try_catch, run_bind, H. simpl.
  rewrite bool_decide_false by done. unfold after; simpl. by rewrite app_nil_r.
Qed.

(** The delays of the retry loop, with three attempts and the default
    backoff.  The loop goes on only when a call of [startStreaming]
    rejects, which takes an error callback that throws: when the first
    two calls reject and the third returns, [reconnectWithBackoff] makes
    exactly these three attempts and waits 1000 ms after the first and
    2000 ms after the second (the initial delay, then the delay times the
    multiplier), 3000 ms in all, which is below 1000 * 2 ^ 2. *)
Lemma backoff_schedule net s :
  let r0 := startStreaming P config (net 0%nat) s in
  let r1 := startStreaming P config (net 1%nat) (final r0) in
  let r2 := startStreaming P config (net 2%nat) (final r1) in
  returned r0 = false → returned r1 = false → returned r2 = true →
  let r := reconnectWithBackoff P config Examples.default_options net s in
  r = Result
        (trace r0
         ++ [ConsoleLog "Reconnecting in 1000ms (attempt 1/3)..."; SetTimeout 1000]
         ++ trace r1
         ++ [ConsoleLog "Reconnecting in 2000ms (attempt 2/3)..."; SetTimeout 2000]
         ++ trace r2)
        (final r2) (inl tt)
  ∧ timeouts_of (trace r) = [1000; 2000]
  ∧ foldr Z.add 0 (timeouts_of (trace r)) = 1000 * (1 + 2)
  ∧ foldr Z.add 0 (timeouts_of (trace r)) < 1000 * 2 ^ 2.
Proof.
  intros r0 r1 r2 H0 H1 H2 r.
  assert (Hr : r = Result
        (trace r0
         ++ [ConsoleLog "Reconnecting in 1000ms (attempt 1/3)..."; SetTimeout 1000]
         ++ trace r1
         ++ [ConsoleLog "Reconnecting in 2000ms (attempt 2/3)..."; SetTimeout 2000]
         ++ trace r2)
        (final r2) (inl tt)).
  { subst r. unfold reconnectWithBackoff.
    change (opt_maxRetries Examples.default_options) with 3%nat.
    change (opt_initialDelay Examples.default_options) with 1000.
    cbn [seq reconnect_loop].
    unfold returned in H0, H1, H2.
    destruct (outcome r0) as [|e0] eqn:E0; [done|].
    destruct (outcome r1) as [|e1] eqn:E1; [done|].
    destruct (outcome r2) as [t2|] eqn:E2; [|done].
    rewrite run_bind, (reconnect_round_rejects _ _ _ _ _ _ E0) by (cbn; lia).
    cbn [outcome final trace].
    rewrite run_bind, (reconnect_round_rejects _ _ _ _ _ _ E1) by (cbn; lia).
    cbn [outcome final trace].
    rewrite run_bind, (reconnect_round_returns _ _ _ _ _ _ E2).
    cbn [outcome final trace]. unfold after, ret; simpl.
    f_equal. rewrite app_nil_r, <- !app_assoc. reflexivity. }
  split; [exact Hr|].
  assert (Ht : timeouts_of (trace r) = [1000; 2000]).
  { rewrite Hr. cbn [trace]. rewrite !timeouts_of_app.
    rewrite (timeouts_of_none (trace r0) (startStreaming_no_timer _ _)).
    rewrite (timeouts_of_none (trace r1) (startStreaming_no_timer _ _)).
    rewrite (timeouts_of_none (trace r2) (startStreaming_no_timer _ _)).
    reflexivity. }
  rewrite Ht. by repeat split.
Qed.

End StreamingFailures.

(** ** The streaming service on the example inputs *)

Section StreamingExamples.
Import Streaming StreamingSpec Examples.

(** The cuts fall where the comment of [pieces] says. *)
Example pieces_cut :
  map last pieces = [Some xc3; Some x61; Some x0a; Some x7b].
Proof. reflexivity. Qed.

Example pieces_run :
  chunks_of (trace (startStreaming platform quiet (streams pieces ReadDone) tt)) =
  [record_value "streaming" hello; record_value "supervisor_streaming" world]
  ∧ delivered_text (trace (startStreaming platform quiet (streams pieces ReadDone) tt)) =
    hello ++ world.
Proof. split; reflexivity. Qed.

Lemma split_anywhere_idempotence_witness :
  concat pieces = concat whole
  ∧ (startStreaming platform quiet (streams pieces ReadDone) tt =
       startStreaming platform quiet (streams whole ReadDone) tt
     ∧ chunks_of (trace (startStreaming platform quiet (streams pieces ReadDone) tt)) =
         payloads platform (decoded platform (concat whole))
     ∧ delivered_text (trace (startStreaming platform quiet (streams pieces ReadDone) tt)) =
         concat (map content_of
                   (List.filter is_text_delta
                      (payloads platform (decoded platform (concat whole)))))).
Proof.
  split; [reflexivity|].
  apply (split_anywhere_idempotence platform quiet pieces whole ReadDone tt).
  reflexivity.
Defined.

Example aborted_midway_run :
  startStreaming platform quiet aborted_midway tt =
  Result [Fetch (lit "/api/stream") (requestBody quiet);
          OnChunk (record_value "streaming" hello);
          ConsoleLog "Stream aborted by user"]
         tt (inl Cancelled).
Proof. reflexivity. Qed.

Lemma malformed_line_is_skipped_witness :
  let before := [lit "data: " ++ record_text "streaming" hello] in
  let line := lit "data: {oops" in
  let following := [record_text "supervisor_streaming" world] in
  let e := JsError "SyntaxError" "Unexpected token" in
  let r1 := for_each (process_line platform quiet) before tt in
  let r2 := for_each (process_line platform quiet) following (final r1) in
  let r := for_each (process_line platform quiet) (before ++ line :: following) tt in
  is_empty (trim line) = false
  ∧ JSON_parse platform (strip_data_prefix line) = inr e
  ∧ r = Result (trace r1 ++ ConsoleWarn line e :: trace r2) (final r2) (inl tt)
  ∧ errors_of (trace r) = []
  ∧ for_each (process_line platform quiet) (before ++ following) tt =
      Result (trace r1 ++ trace r2) (final r2) (inl tt).
Proof.
  intros before line following e r1 r2 r.
  split; [reflexivity|]. split; [reflexivity|].
  apply (malformed_line_is_skipped platform quiet before line following e tt);
    reflexivity.
Defined.

Lemma cancellation_is_absorbed_witness :
  aborted_by_signal aborted_midway
  ∧ outcome (startStreaming platform quiet aborted_midway tt) = inl Cancelled
  ∧ errors_of (trace (startStreaming platform quiet aborted_midway tt)) = []
  ∧ outcome (mockStreaming quiet (Some 2%nat) clock tt) = inl Cancelled
  ∧ errors_of (trace (mockStreaming quiet (Some 2%nat) clock tt)) = []
  ∧ (0 < opt_maxRetries default_options)%nat
  ∧ reconnectWithBackoff platform quiet default_options (λ _, aborted_midway) tt =
    Result (trace (startStreaming platform quiet aborted_midway tt))
           (final (startStreaming platform quiet aborted_midway tt)) (inl tt).
Proof.
  destruct (cancellation_is_absorbed platform quiet) as (HA & HB & HC).
  assert (Hnet : aborted_by_signal aborted_midway)
    by (apply (abort_in_read 200); reflexivity).
  assert (Hmock : outcome (mockStreaming quiet (Some 2%nat) clock tt) = inl Cancelled)
    by reflexivity.
  assert (Hmax : (0 < opt_maxRetries default_options)%nat) by (cbn; lia).
  split; [exact Hnet|].
  split; [exact (proj1 (HA aborted_midway tt Hnet))|].
  split; [exact (proj2 (HA aborted_midway tt Hnet))|].
  split; [exact Hmock|].
  split; [exact (HB (Some 2%nat) clock tt Hmock)|].
  split; [exact Hmax|].
  exact (HC default_options (λ _, aborted_midway) tt Hnet Hmax).
Defined.

(** C6 on the code: three attempts are allowed, the transport refuses the
    first two requests and would serve the third, on which a session
    completes, and the callbacks of the consumer return.
    [reconnectWithBackoff] sends the first request only:
    [startStreaming] catches the failure, hands it to the error
    callback and returns, which the retry loop takes for success.  There
    is no second attempt and no backoff delay, no chunk is delivered and
    the session is never completed. *)
Theorem reconnect_reports_first_failure :
  let r := reconnectWithBackoff platform quiet default_options fails_twice tt in
  opt_maxRetries default_options = 3%nat
  ∧ fails_twice 0%nat = FetchRejects connection_refused
  ∧ fails_twice 1%nat = FetchRejects connection_refused
  ∧ outcome (startStreaming platform quiet (fails_twice 2%nat) tt) = inl Completed
  ∧ (∀ e, onError quiet e tt = Result [] tt (inl tt))
  ∧ r = Result [Fetch (lit "/api/stream") (requestBody quiet);
                OnError connection_refused]
               tt (inl tt)
  ∧ errors_of (trace r) = [connection_refused]
  ∧ requests_of (trace r) = 1%nat
  ∧ timeouts_of (trace r) = []
  ∧ chunks_of (trace r) = []
  ∧ (OnComplete ∉ trace r)
  ∧ ¬ (errors_of (trace r) = []
       ∧ 1000 * 2 ^ 2 ≤ foldr Z.add 0 (timeouts_of (trace r))).
Proof.
  intros r.
  assert (Hr : r = Result [Fetch (lit "/api/stream") (requestBody quiet);
                           OnError connection_refused]
                          tt (inl tt)) by reflexivity.
  do 4 (split; [reflexivity|]). split; [by intros e|]. split; [exact Hr|].
  rewrite Hr. cbn [trace].
  do 4 (split; [reflexivity|]). split.
  - intros [H|H]%elem_of_cons; [discriminate H|].
    apply elem_of_cons in H as [H|H]; [discriminate H|].
    by apply elem_of_nil in H.
  - intros [H _]. discriminate H.
Qed.

(** The schedule on the example: the error callback rethrows, so the
    first two attempts reject. *)
Example backoff_schedule_run :
  let r0 := startStreaming platform rethrowing (fails_twice 0%nat) tt in
  let r1 := startStreaming platform rethrowing (fails_twice 1%nat) (final r0) in
  let r2 := startStreaming platform rethrowing (fails_twice 2%nat) (final r1) in
  let r := reconnectWithBackoff platform rethrowing default_options fails_twice tt in
  returned r0 = false ∧ returned r1 = false ∧ returned r2 = true
  ∧ r = Result
          (trace r0
           ++ [ConsoleLog "Reconnecting in 1000ms (attempt 1/3)..."; SetTimeout 1000]
           ++ trace r1
           ++ [ConsoleLog "Reconnecting in 2000ms (attempt 2/3)..."; SetTimeout 2000]
           ++ trace r2)
          (final r2) (inl tt)
  ∧ timeouts_of (trace r) = [1000; 2000]
  ∧ foldr Z.add 0 (timeouts_of (trace r)) = 1000 * (1 + 2)
  ∧ foldr Z.add 0 (timeouts_of (trace r)) < 1000 * 2 ^ 2.
Proof.
  intros r0 r1 r2 r.
  split; [reflexivity|]. split; [reflexivity|]. split; [reflexivity|].
  apply (backoff_schedule platform rethrowing fails_twice tt); reflexivity.
Qed.

End StreamingExamples.

(** ** The streaming hook *)

Section HookFacts.
Import Streaming StreamingSpec UseStreaming.
Variable options : UseStreamingOptions.

Lemma handleChunk_keeps_refs chunk : keeps refs (handleChunk options chunk).
Proof. apply keeps_notify. Qed.

Lemma handleComplete_keeps_refs : keeps refs (handleComplete options tt).
Proof. unfold handleComplete. eauto 12 with keeps. Qed.

Lemma handleError_keeps_refs err : keeps refs (handleError options err).
Proof.
  unfold handleError.
  do 3 (apply keeps_bind; [auto with keeps|intros _]).
  apply keeps_bind; [apply keeps_get|intros st].
  destruct (_ && _); eauto 6 with keeps.
Qed.

Lemma mockStreaming_keeps_refs config abort_at now :
  keeps refs (mockStreaming (session_config options config) abort_at now).
Proof.
  assert (Hd : ∀ ms k, keeps refs (delay (X := HookEvent) (St := HookState) abort_at ms k)).
  { intros ms k. apply keeps_bind; [apply keeps_emit|intros _].
    destruct (bool_decide _); [apply keeps_throw | apply keeps_ret]. }
  assert (Hc : ∀ chunk, keeps refs (call_onChunk (session_config options config) chunk)).
  { intros chunk. apply keeps_bind; [apply keeps_emit|intros _].
    apply keeps_lift, handleChunk_keeps_refs. }
  assert (Hw : ∀ words content k,
            keeps refs (stream_words (session_config options config) abort_at now
                          words content k)).
  { induction words as [|w words IH]; intros content k; simpl; [apply keeps_ret|].
    apply keeps_bind; [apply Hc|intros _].
    apply keeps_bind; [apply Hd|intros _]. apply IH. }
  apply keeps_try_catch.
  - do 4 (apply keeps_bind; [apply Hd|intros _];
          apply keeps_bind; [apply Hc|intros _]).
    apply keeps_bind; [apply Hd|intros _].
    apply keeps_bind; [apply Hw|intros _].
    apply keeps_bind; [apply keeps_emit|intros _].
    apply keeps_bind; [apply keeps_lift, handleComplete_keeps_refs|intros _].
    apply keeps_ret.
  - intros e. unfold on_failure. destruct (is_AbortError e).
    + apply keeps_bind; [apply keeps_emit|intros _]. apply keeps_ret.
    + apply keeps_bind; [apply keeps_emit|intros _].
      apply keeps_bind; [apply keeps_lift, handleError_keeps_refs|intros _].
      apply keeps_ret.
Qed.

Lemma open_session_run config st :
  open_session config st =
  Result [] {| isStreaming := true; error := None;
               abortControllerRef := Some (controllers st);
               lastConfigRef := Some config;
               retryCountRef := retryCountRef st;
               aborted := match abortControllerRef st with
                          | Some c => {[ c ]} ∪ aborted st
                          | None => aborted st
                          end;
               controllers := S (controllers st) |} (inl tt).
Proof. unfold open_session. destruct st as [? ? [c|] ? ? ? ?]; reflexivity. Qed.

Lemma session_keeps_refs config abort_at now :
  keeps refs
    (try_catch
       (mockStreaming (session_config options config) abort_at now ;; ret tt)
       (λ err,
          if instanceof_Error err && negb (is_AbortError err) then
            lift Consumer (handleError options err)
          else ret tt)).
Proof.
  apply keeps_try_catch.
  - apply keeps_bind; [apply mockStreaming_keeps_refs|intros _; apply keeps_ret].
  - intros e. destruct (_ && _); [|apply keeps_ret].
    apply keeps_lift, handleError_keeps_refs.
Qed.


End HookFacts.

Section HookTheorems.
Import Streaming StreamingSpec UseStreaming.
Variable options : UseStreamingOptions.


End HookTheorems.

(** ** The streaming hook on the example inputs *)

Section HookExamples.
Import Streaming StreamingSpec UseStreaming Examples.






End HookExamples.

(** ** The upload hook *)

Section UploadFacts.
Import UseFileUpload.
Variable options : UseFileUploadOptions.
Implicit Types st : HookState.

Lemma setUploadedFiles_id st : setUploadedFiles (λ prev, prev) st = st.
Proof. by destruct st. Qed.

(** *** updateFile *)

Lemma update_entries_length id updates prev :
  length (update_entries id updates prev) = length prev.
Proof. apply length_map. Qed.

Lemma update_entries_absent id updates prev :
  absent id prev → update_entries id updates prev = prev.
Proof.
  intros Habs. unfold update_entries.
  induction prev as [|f prev IH]; [done|]. simpl.
  rewrite bool_decide_false by (apply Habs; left).
  f_equal. apply IH. intros g Hg. apply Habs. by right.
Qed.

Lemma update_entries_lookup id updates prev i :
  update_entries id updates prev !! i =
  (λ f, if bool_decide (uploadId f = id) then spread f updates else f) <$> prev !! i.
Proof. apply list_lookup_fmap. Qed.

Lemma updateFile_run id updates st :
  updateFile id updates st =
  Result [] (setUploadedFiles (update_entries id updates) st) (inl tt).
Proof. reflexivity. Qed.

Lemma updateFile_absent id updates st :
  absent id (uploadedFiles st) →
  updateFile id updates st = Result [] st (inl tt).
Proof.
  intros Habs. rewrite updateFile_run. f_equal.
  destruct st as [files ? ? ?]; unfold setUploadedFiles; simpl in *.
  by rewrite update_entries_absent.
Qed.

(** The callbacks of the application do not change the state. *)
Lemma notify_final {A} (cb : option (Callback A)) (ev : UploadEvent) (x : A) st :
  final (notify cb ev x st) = st.
Proof. apply (keeps_notify (λ s, s)). Qed.

Lemma notify_run {A} (cb : option (Callback A)) (ev : UploadEvent) (x : A) st :
  notify cb ev x st =
  Result (match cb with Some _ => [ev] | None => [] end) st
         (match cb with
          | Some f => match f x with Some e => inr e | None => inl tt end
          | None => inl tt
          end).
Proof.
  unfold notify. destruct cb as [f|]; [|done].
  rewrite run_bind; simpl. by destruct (f x).
Qed.

(** *** Resuming a task whose entry is gone *)

Lemma updateFile_keeps_absent id updates :
  keeps_on (λ st, absent id (uploadedFiles st)) (updateFile id updates).
Proof. intros st Habs. by rewrite updateFile_absent. Qed.

Lemma resume_absent gid task :
  keeps_on (λ st, absent (uploadId (t_entry task)) (uploadedFiles st))
    (resume options gid task).
Proof.
  unfold resume. destruct (t_pc task) as [progress|]; [|apply keeps_on_ret].
  apply keeps_on_bind; [|intros pc; apply keeps_on_ret].
  apply keeps_on_try_catch.
  - apply keeps_on_bind.
    + unfold uploadFile_turn. apply keeps_on_bind.
      * apply keeps_on_bind; [apply updateFile_keeps_absent|intros _].
        apply keeps_on_notify.
      * intros _. destruct (bool_decide _); [|apply keeps_on_ret].
        apply keeps_on_bind; [apply keeps_on_emit|intros _; apply keeps_on_ret].
    + intros [progress'|result]; [apply keeps_on_ret|].
      destruct (success result); [|apply keeps_on_throw].
      destruct (data result); [|apply keeps_on_throw].
      apply keeps_on_bind; [apply updateFile_keeps_absent|intros _].
      apply keeps_on_ret.
  - intros e. unfold upload_failed.
    apply keeps_on_bind; [apply updateFile_keeps_absent|intros _].
    apply keeps_on_bind; [apply keeps_on_notify|intros _; apply keeps_on_ret].
Qed.

(** C10.  A state update keyed on an identifier that no entry of the
    batch has leaves the batch, and the whole state of the hook, as it
    was: this holds for [updateFile] with any updates, and for every
    resumption of an upload task (a progress report, the success update
    or the failure update) whose entry is no longer in the batch. *)
Theorem late_updates_are_ignored id st :
  absent id (uploadedFiles st) →
  (∀ updates, update_entries id updates (uploadedFiles st) = uploadedFiles st)
  ∧ (∀ updates, final (updateFile id updates st) = st)
  ∧ (∀ gid task, uploadId (t_entry task) = id →
       final (resume options gid task st) = st)
  ∧ (∀ error, final (upload_failed options id error st) = st).
Proof.
  intros Habs. split; [|split; [|split]].
  - intros updates. by apply update_entries_absent.
  - intros updates. by apply updateFile_keeps_absent.
  - intros gid task <-. by apply resume_absent.
  - intros error. unfold upload_failed.
    apply (keeps_on_bind (λ st, absent id (uploadedFiles st))); [| |done].
    + apply updateFile_keeps_absent.
    + intros _. apply keeps_on_bind; [apply keeps_on_notify|].
      intros _; apply keeps_on_ret.
Qed.

(** A resumed task reports its progress to the application without
    looking at the signal of its controller: the state, and with it the
    set of aborted controllers, is arbitrary here. *)
Lemma resume_reports_progress gid task progress cb st :
  t_pc task = AtProgress progress →
  onProgress options = Some cb →
  OnProgress (uploadId (t_entry task)) progress
    ∈ trace (resume options gid task st).
Proof.
  intros Hpc Hcb. unfold resume. rewrite Hpc.
  match goal with
  | |- context [trace ((?m ≫= ?k) st)] => destruct (trace_bind m k st) as [t1 ->]
  end.
  match goal with
  | |- context [trace (try_catch ?m ?h st)] =>
      destruct (trace_try_catch m h st) as [t2 ->]
  end.
  match goal with
  | |- context [trace ((?m ≫= ?k) st)] => destruct (trace_bind m k st) as [t3 ->]
  end.
  unfold uploadFile_turn.
  match goal with
  | |- context [trace ((?m ≫= ?k) st)] => destruct (trace_bind m k st) as [t4 ->]
  end.
  simpl. rewrite notify_run, Hcb. simpl. by left.
Qed.

(** *** cancelUpload *)

Lemma abort_opt_run c st :
  abort_opt c st =
  Result [] (match c with Some c => abort c st | None => st end) (inl tt).
Proof. by destruct c. Qed.

Lemma abort_cancelled_run id l : ∀ st,
  let r := for_each
             (λ f, if to_cancel id f then abort_opt (uploadAbortController f)
                   else ret tt) l st in
  trace r = [] ∧ outcome r = inl tt
  ∧ uploadedFiles (final r) = uploadedFiles st
  ∧ aborted st ⊆ aborted (final r)
  ∧ (∀ f c, f ∈ l → to_cancel id f = true → uploadAbortController f = Some c →
       c ∈ aborted (final r)).
Proof.
  induction l as [|f l IH]; intros st; simpl.
  - repeat split; [done|]. intros f c Hf. by apply elem_of_nil in Hf.
  - rewrite run_bind.
    set (body := if to_cancel id f then abort_opt (uploadAbortController f) else ret tt).
    assert (Hb : ∃ st1, body st = Result [] st1 (inl tt)
                        ∧ uploadedFiles st1 = uploadedFiles st
                        ∧ aborted st ⊆ aborted st1
                        ∧ (∀ c, to_cancel id f = true →
                             uploadAbortController f = Some c → c ∈ aborted st1)).
    { subst body. destruct (to_cancel id f).
      - rewrite abort_opt_run. eexists; split; [done|].
        destruct (uploadAbortController f) as [c|]; simpl.
        + repeat split; [set_solver|]. intros c' _ [= <-]. set_solver.
        + repeat split; done.
      - exists st. repeat split; done. }
    destruct Hb as (st1 & -> & Hfiles & Hsub & Hc). simpl.
    destruct (IH st1) as (Ht & Ho & Hf1 & Hsub1 & Hc1).
    rewrite Ht, Ho. repeat split; [congruence | set_solver |].
    intros g c [->|Hg]%elem_of_cons Hcancel Hctl.
    + apply Hsub1. by apply Hc.
    + by apply (Hc1 g).
Qed.

Lemma cancelUpload_run id st :
  let r := cancelUpload id st in
  trace r = [] ∧ outcome r = inl tt
  ∧ uploadedFiles (final r) =
      List.filter (λ f, negb (to_cancel id f)) (uploadedFiles st)
  ∧ aborted st ⊆ aborted (final r)
  ∧ (∀ f c, f ∈ uploadedFiles st → to_cancel id f = true →
       uploadAbortController f = Some c → c ∈ aborted (final r)).
Proof.
  unfold cancelUpload. rewrite run_bind; simpl. rewrite run_bind.
  destruct (abort_cancelled_run id (uploadedFiles st) st) as (Ht & Ho & Hf & Hsub & Hc).
  rewrite Ho; simpl. rewrite Ht; simpl. by rewrite Hf.
Qed.

(** Once [cancelUpload] has run, no entry that is uploading has the
    identifier; if every entry with the identifier was uploading, as when
    identifiers are unique, the identifier is absent from the batch. *)
Lemma cancelUpload_absent id st :
  (∀ f, f ∈ uploadedFiles st → uploadId f = id → truthy_bool (isUploading f) = true) →
  absent id (uploadedFiles (final (cancelUpload id st))).
Proof.
  intros Hall f Hf Hid.
  destruct (cancelUpload_run id st) as (_ & _ & Hfiles & _).
  rewrite Hfiles in Hf. apply list_elem_of_In, filter_In in Hf as [Hin Hkeep].
  apply list_elem_of_In in Hin. unfold to_cancel in Hkeep.
  rewrite (Hall f Hin Hid), bool_decide_true in Hkeep by done. discriminate.
Qed.

(** [deleteFile] takes out the entry at the index; with unique
    identifiers, the identifier of that entry is then absent. *)
Lemma deleteFile_absent index st f :
  0 ≤ index →
  uploadedFiles st !! Z.to_nat index = Some f →
  NoDup (map uploadId (uploadedFiles st)) →
  absent (uploadId f) (uploadedFiles (final (deleteFile index st))).
Proof.
  intros Hpos Hf Hnodup.
  assert (Hfiles : uploadedFiles (final (deleteFile index st)) =
                   delete (Z.to_nat index) (uploadedFiles st)).
  { unfold deleteFile. rewrite run_bind; simpl. rewrite bool_decide_true by done.
    rewrite Hf, run_bind.
    destruct (truthy_bool (isUploading f)); [rewrite abort_opt_run|]; simpl;
      [by destruct (uploadAbortController f)|done]. }
  rewrite Hfiles. clear Hfiles.
  revert Hf Hnodup. generalize (Z.to_nat index) as i. generalize (uploadedFiles st) as l.
  induction l as [|g l IH]; intros [|i] Hf Hnodup; simpl in *; try done.
  - injection Hf as ->. apply NoDup_cons in Hnodup as [Hnotin _].
    intros h Hh Hid. apply Hnotin. rewrite <- Hid. by apply list_elem_of_fmap_2.
  - apply NoDup_cons in Hnodup as [Hnotin Hnodup].
    intros h [->|Hh]%elem_of_cons Hid.
    + apply Hnotin. rewrite Hid. apply list_elem_of_fmap_2.
      by apply list_elem_of_lookup_2 in Hf.
    + by apply (IH i Hf Hnodup h).
Qed.

(** C4, amended.  [cancelUpload] aborts the controller of every entry
    that has the identifier and is uploading, and takes these entries
    out of the batch: they are no longer in the batch, hence not among
    the ready files, and the batch is shorter by their number.  The
    entries that are not uploading or have another identifier stay as
    they are, in order.  No cancelled state is recorded. *)
Theorem cancelUpload_removes id st :
  let r := cancelUpload id st in
  uploadedFiles (final r) =
    List.filter (λ f, negb (to_cancel id f)) (uploadedFiles st)
  ∧ outcome r = inl tt
  ∧ (length (uploadedFiles (final r))
     + length (List.filter (to_cancel id) (uploadedFiles st))
     = length (uploadedFiles st))%nat
  ∧ (∀ f, f ∈ uploadedFiles st → to_cancel id f = true →
       (f ∉ uploadedFiles (final r))
       ∧ (f ∉ ready (uploadedFiles (final r)))
       ∧ ∀ c, uploadAbortController f = Some c → c ∈ aborted (final r))
  ∧ (∀ f, f ∈ uploadedFiles st → to_cancel id f = false →
       f ∈ uploadedFiles (final r)).
Proof.
  intros r. destruct (cancelUpload_run id st) as (_ & Ho & Hf & _ & Hc).
  fold r in Ho, Hf, Hc.
  assert (Hin : ∀ f, f ∈ uploadedFiles (final r) →
                     f ∈ uploadedFiles st ∧ to_cancel id f = false).
  { intros f. rewrite Hf, !list_elem_of_In, filter_In.
    intros [? H]. split; [done|]. by destruct (to_cancel id f). }
  split; [exact Hf|]. split; [exact Ho|]. split; [|split].
  - rewrite Hf. clear. induction (uploadedFiles st) as [|f l IH]; [done|].
    simpl. destruct (to_cancel id f); simpl; lia.
  - intros f Hfin Hcancel. split; [|split].
    + intros [_ H]%Hin. congruence.
    + unfold ready. rewrite list_elem_of_In, filter_In, <- list_elem_of_In.
      intros [[_ H]%Hin _]. congruence.
    + intros c Hctl. by apply (Hc f).
  - intros f Hfin Hkeep. rewrite Hf, list_elem_of_In, filter_In, <- list_elem_of_In.
    split; [done|]. by rewrite Hkeep.
Qed.

(** *** Starting tasks *)

Lemma processFileUpload_run f st :
  processFileUpload f st =
  if match uploadAbortController f with
     | Some c => bool_decide (c ∈ aborted st)
     | None => false
     end
  then Result [] st (inl {| t_entry := f; t_pc := Finished |})
  else Result [Sleep 100] st (inl {| t_entry := f; t_pc := AtProgress 0 |}).
Proof.
  unfold processFileUpload. rewrite run_bind; simpl.
  by destruct (match uploadAbortController f with Some _ => _ | None => _ end).
Qed.

Lemma upload_errors_of_app t1 t2 :
  upload_errors_of (t1 ++ t2) = upload_errors_of t1 ++ upload_errors_of t2.
Proof. apply omap_app. Qed.

Lemma start_all_run files : ∀ st,
  ∃ t tasks, start_all files st = Result t st (inl tasks)
             ∧ upload_errors_of t = []
             ∧ map t_entry tasks = files.
Proof.
  induction files as [|f files IH]; intros st; simpl.
  - by exists [], [].
  - rewrite run_bind, processFileUpload_run.
    destruct (IH st) as (t & tasks & Hrun & Ht & Hentries).
    destruct (match uploadAbortController f with Some _ => _ | None => _ end);
      simpl; rewrite run_bind, Hrun; simpl; eexists _, _;
      (split; [reflexivity|]); simpl; by rewrite app_nil_r, Ht, Hentries.
Qed.

Lemma make_extended_run now files : ∀ k st,
  ∃ extended st',
    make_extended now k files st = Result [] st' (inl extended)
    ∧ map file extended = files
    ∧ uploadedFiles st' = uploadedFiles st
    ∧ aborted st' = aborted st
    ∧ controllers st' = (controllers st + length files)%nat
    ∧ Forall (λ f, cdnUrl f = None ∧ isUploading f = Some true
                   ∧ uploadProgress f = Some 0 ∧ uploadError f = None) extended.
Proof.
  induction files as [|f files IH]; intros k st; simpl.
  - exists [], st. repeat split; [lia|constructor].
  - rewrite run_bind; simpl. rewrite run_bind; simpl. rewrite !after_nil.
    set (st1 := {| uploadedFiles := uploadedFiles st;
                   uploadCounterRef := uploadCounterRef st + 1;
                   aborted := aborted st;
                   controllers := S (controllers st) |}).
    destruct (IH (S k) st1) as (ext & st' & Hrun & Hf & Hu & Ha & Hc & Hall).
    rewrite run_bind, Hrun; simpl.
    eexists _, _. split; [reflexivity|]. simpl in *.
    rewrite Hf. repeat split; try done; [lia|].
    constructor; [done|exact Hall].
Qed.

(** *** retryUpload *)

Lemma retryUpload_run snapshot id st :
  retryUpload snapshot id st =
  match List.find (λ f, bool_decide (uploadId f = id)) snapshot with
  | None => Result [ConsoleError "File not found for retry"] st (inl None)
  | Some fileToRetry =>
      let updatedFile := {|
        file := file fileToRetry;
        filename := filename fileToRetry;
        cdnUrl := cdnUrl fileToRetry;
        isUploading := Some true;
        uploadId := uploadId fileToRetry;
        uploadAbortController := Some (controllers st);
        uploadProgress := Some 0;
        uploadError := None |} in
      let st2 := {|
        uploadedFiles :=
          update_entries id {|
            set_file := Some (file fileToRetry);
            set_filename := Some (filename fileToRetry);
            set_cdnUrl := Some <$> cdnUrl fileToRetry;
            set_isUploading := Some (Some true);
            set_uploadId := Some (uploadId fileToRetry);
            set_uploadAbortController := Some (Some (controllers st));
            set_uploadProgress := Some (Some 0);
            set_uploadError := Some None |} (uploadedFiles st);
        uploadCounterRef := uploadCounterRef st;
        aborted := aborted st;
        controllers := S (controllers st) |} in
      if bool_decide (controllers st ∈ aborted st) then
        Result [] st2 (inl (Some {| t_entry := updatedFile; t_pc := Finished |}))
      else
        Result [Sleep 100] st2
          (inl (Some {| t_entry := updatedFile; t_pc := AtProgress 0 |}))
  end.
Proof.
  unfold retryUpload. destruct (List.find _ snapshot) as [f0|]; [|done].
  rewrite run_bind; simpl. rewrite after_nil, run_bind, updateFile_run; simpl.
  rewrite after_nil, run_bind, processFileUpload_run; simpl.
  by destruct (bool_decide (controllers st ∈ aborted st)).
Qed.

(** C3, amended.  [retryUpload] never changes the length of the batch
    and leaves every entry with another identifier as it is.  It is a
    no-op only for an identifier that no entry has.  For an identifier
    that an entry has, whatever the status of that entry, it sets the
    entry to uploading with progress 0, no error and a fresh controller,
    and starts the upload task again. *)
Theorem retryUpload_effect id st :
  let snapshot := uploadedFiles st in
  let r := retryUpload snapshot id st in
  length (uploadedFiles (final r)) = length snapshot
  ∧ (∀ i f, snapshot !! i = Some f → uploadId f ≠ id →
       uploadedFiles (final r) !! i = Some f)
  ∧ (absent id snapshot → final r = st ∧ outcome r = inl None)
  ∧ (∀ i f, snapshot !! i = Some f → uploadId f = id →
       ∃ f', uploadedFiles (final r) !! i = Some f'
             ∧ isUploading f' = Some true ∧ uploadProgress f' = Some 0
             ∧ uploadError f' = None
             ∧ uploadAbortController f' = Some (controllers st))
  ∧ (¬ absent id snapshot → well_formed st →
       ∃ task, r = Result [Sleep 100] (final r) (inl (Some task))
               ∧ t_pc task = AtProgress 0
               ∧ uploadId (t_entry task) = id).
Proof.
  intros snapshot r. subst r snapshot. rewrite retryUpload_run.
  destruct (List.find _ (uploadedFiles st)) as [f0|] eqn:Hfind.
  - apply find_some in Hfind as [Hin Hid].
    apply list_elem_of_In in Hin. apply bool_decide_eq_true in Hid.
    assert (Hother : ∀ u i f, uploadedFiles st !! i = Some f → uploadId f ≠ id →
                       update_entries id u (uploadedFiles st) !! i = Some f).
    { intros u i f Hi Hne. rewrite update_entries_lookup, Hi; simpl.
      by rewrite bool_decide_false. }
    cbv zeta.
    destruct (bool_decide_reflect (controllers st ∈ aborted st)) as [Hab|Hab];
      cbn [final outcome trace uploadedFiles].
    + split; [apply update_entries_length|]. split; [apply Hother|].
      split; [intros Habs; by destruct (Habs f0 Hin)|]. split.
      * intros i f Hi Heq. rewrite update_entries_lookup, Hi; simpl.
        rewrite bool_decide_true by done. eexists; split; [done|]. by simpl.
      * intros _ Hwf. apply Hwf in Hab. lia.
    + split; [apply update_entries_length|]. split; [apply Hother|].
      split; [intros Habs; by destruct (Habs f0 Hin)|]. split.
      * intros i f Hi Heq. rewrite update_entries_lookup, Hi; simpl.
        rewrite bool_decide_true by done. eexists; split; [done|]. by simpl.
      * intros _ _. eexists. split; [reflexivity|]. by simpl.
  - assert (Hnone : absent id (uploadedFiles st)).
    { intros f Hf%list_elem_of_In Hid.
      pose proof (find_none _ _ Hfind f Hf) as Hb; simpl in Hb.
      by rewrite bool_decide_true in Hb. }
    cbn [final outcome trace].
    split; [done|]. split; [done|]. split; [done|]. split.
    + intros i f Hi Hid. destruct (Hnone f); [|done].
      by apply list_elem_of_lookup_2 in Hi.
    + intros Hne. by destruct Hne.
Qed.

(** *** uploadFiles *)

(** What [uploadFiles] does once the batch is known not to be full and
    the candidates are validated. *)
Lemma enqueue_run now filesToUpload st :
  ∃ t extended st',
    (if bool_decide (length filesToUpload = 0)%nat then ret []
     else
       extendedFiles ← make_extended now 0 filesToUpload;
       modify (setUploadedFiles (λ prev, prev ++ extendedFiles)) ;;
       start_all extendedFiles) st
    = Result t st' (inl (A := list UploadTask) extended)
    ∧ upload_errors_of t = []
    ∧ ∃ entries, uploadedFiles st' = uploadedFiles st ++ entries
                 ∧ map file entries = filesToUpload.
Proof.
  destruct (bool_decide_reflect (length filesToUpload = 0)%nat) as [Hz|Hnz].
  - exists [], [], st. split; [done|]. split; [done|]. exists [].
    apply nil_length_inv in Hz. by rewrite app_nil_r, Hz.
  - destruct (make_extended_run now filesToUpload 0 st)
      as (ext & st1 & Hrun & Hf & Hu & _).
    rewrite run_bind, Hrun; simpl. rewrite run_bind; simpl.
    destruct (start_all_run ext (setUploadedFiles (λ prev, prev ++ ext) st1))
      as (t & tasks & Hstart & Ht & _).
    rewrite Hstart; simpl. eexists _, _, _. split; [reflexivity|].
    split; [done|]. exists ext. simpl. by rewrite Hu.
Qed.

(** C2, amended.  Called with the current batch, [uploadFiles] keeps the
    batch within the maximum.  It appends the first [slots] valid
    candidates, in order, where [slots] is what the maximum leaves free,
    and says nothing about the valid candidates beyond them: the error
    callback is invoked only for the candidates that fail validation, or,
    when the batch is already full, once with the capacity error, and
    then nothing is appended. *)
Theorem uploadFiles_capacity now files st :
  let snapshot := uploadedFiles st in
  let slots := (opt_maxFiles options - length snapshot)%nat in
  let valid := (validate options files).1 in
  let errors := (validate options files).2 in
  let r := uploadFiles options snapshot now files st in
  (length snapshot ≤ opt_maxFiles options)%nat →
  (length (uploadedFiles (final r)) ≤ opt_maxFiles options)%nat
  ∧ (∃ entries, uploadedFiles (final r) = snapshot ++ entries
       ∧ (returned r = true → map file entries = take slots valid))
  ∧ upload_errors_of (trace r) =
      match onUploadError options with
      | None => []
      | Some _ =>
          if bool_decide (opt_maxFiles options ≤ length snapshot)%nat
          then [JsError "Error" MAX_FILES_EXCEEDED]
          else if bool_decide (0 < length errors)%nat
               then [JsError "Error" (join newline errors)]
               else []
      end.
Proof.
  intros snapshot slots valid errors r Hle.
  assert (Hmain :
    (∃ entries, uploadedFiles (final r) = snapshot ++ entries
       ∧ (length entries ≤ slots)%nat
       ∧ (returned r = true → map file entries = take slots valid))
    ∧ upload_errors_of (trace r) =
      match onUploadError options with
      | None => []
      | Some _ =>
          if bool_decide (opt_maxFiles options ≤ length snapshot)%nat
          then [JsError "Error" MAX_FILES_EXCEEDED]
          else if bool_decide (0 < length errors)%nat
               then [JsError "Error" (join newline errors)]
               else []
      end).
  { subst r valid errors. unfold uploadFiles.
    destruct (bool_decide_reflect (opt_maxFiles options ≤ length snapshot)%nat)
      as [Hfull|Hroom].
    - rewrite run_bind, notify_run. cbn [outcome trace final].
      assert (Hslots : slots = 0%nat) by (subst slots; lia).
      split.
      + exists []. rewrite app_nil_r, Hslots.
        destruct (onUploadError options) as [cb|]; [destruct (cb _)|]; simpl;
          (split; [done|]); split; (lia || done).
      + destruct (onUploadError options) as [cb|]; [destruct (cb _)|]; done.
    - destruct (validate options files) as [validFiles errs]. cbn [fst snd].
      rewrite run_bind.
      destruct (enqueue_run now (take slots validFiles) st)
        as (t & tasks & st' & Hrun & Ht & entries & Hentries & Hfiles).
      fold snapshot in Hentries.
      assert (Hlen : (length entries ≤ slots)%nat).
      { rewrite <- (length_map file), Hfiles, length_take. lia. }
      destruct (bool_decide (0 < length errs)%nat).
      + rewrite notify_run. cbn [outcome trace final].
        destruct (onUploadError options) as [cb|]; [destruct (cb _)|].
        * split; [|done]. exists []. rewrite app_nil_r. simpl.
          split; [done|]. split; [lia|done].
        * fold slots. rewrite Hrun. simpl. split; [|by rewrite Ht].
          exists entries. by repeat split.
        * fold slots. rewrite Hrun. simpl. split; [|by rewrite Ht].
          exists entries. by repeat split.
      + simpl. fold slots. rewrite Hrun. simpl. split.
        * exists entries. by repeat split.
        * rewrite Ht. by destruct (onUploadError options). }
  destruct Hmain as [(entries & Heq & Hlen & Hret) Herr].
  split; [|split; [|exact Herr]].
  - rewrite Heq, length_app. subst slots. lia.
  - exists entries. by split.
Qed.

End UploadFacts.

(** ** The upload hook on the example inputs *)

Section UploadExampleFacts.
Import UseFileUpload UploadExamples.

Example one_started_is :
  one_started =
  Result [Sleep 100]
    {| uploadedFiles := [photo_entry]; uploadCounterRef := 1;
       aborted := ∅; controllers := 1 |}
    (inl [photo_task]).
Proof. reflexivity. Qed.

Example at_thirty_is :
  at_thirty =
  Result [OnProgress photo_id 0; Sleep 100; OnProgress photo_id 10; Sleep 100;
          OnProgress photo_id 20; Sleep 100; OnProgress photo_id 30; Sleep 100]
    {| uploadedFiles := [entry_at 30]; uploadCounterRef := 1;
       aborted := ∅; controllers := 1 |}
    (inl {| t_entry := photo_entry; t_pc := AtProgress 40 |}).
Proof. reflexivity. Qed.

Example cancelled_is :
  cancelled =
  Result [] {| uploadedFiles := []; uploadCounterRef := 1;
               aborted := {[ 0%nat ]} ∪ ∅; controllers := 1 |} (inl tt).
Proof. reflexivity. Qed.

Example uploaded_is :
  final uploaded =
  {| uploadedFiles := [uploaded_entry]; uploadCounterRef := 1;
     aborted := ∅; controllers := 1 |}
  ∧ ready (uploadedFiles (final uploaded)) = [uploaded_entry]
  ∧ hasFailedUploads (uploadedFiles (final uploaded)) = false.
Proof. split; [|split]; vm_compute; reflexivity. Qed.

(** What follows [await Promise.all] sees the objects that [uploadFiles]
    created, which no update has touched: it never finds a successful
    file. *)
Example settled_without_callback :
  uploadFiles_settled options [photo_entry] (final uploaded) =
  Result [] (final uploaded) (inl tt).
Proof. reflexivity. Qed.

(** C2, as stated, fails: with one slot left and two valid candidates,
    the first is appended and the second is dropped without any error
    being reported. *)
Lemma overflow_is_dropped_silently :
  let st := final four_started in
  let r := uploadFiles options (uploadedFiles st) clock [photo 5; photo 6] st in
  map file (uploadedFiles st) = [photo 1; photo 2; photo 3; photo 4]
  ∧ (validate options [photo 5; photo 6]).1 = [photo 5; photo 6]
  ∧ returned r = true
  ∧ map file (uploadedFiles (final r)) =
      [photo 1; photo 2; photo 3; photo 4; photo 5]
  ∧ upload_errors_of (trace r) = []
  ∧ ¬ (JsError "Error" MAX_FILES_EXCEEDED ∈ upload_errors_of (trace r)).
Proof.
  intros st r.
  assert (Herr : upload_errors_of (trace r) = []) by (vm_compute; reflexivity).
  do 4 (split; [vm_compute; reflexivity|]).
  split; [exact Herr|].
  rewrite Herr. apply not_elem_of_nil.
Qed.

Lemma uploadFiles_capacity_witness :
  let st := final four_started in
  let r := uploadFiles options (uploadedFiles st) clock [photo 5; photo 6] st in
  (length (uploadedFiles st) ≤ opt_maxFiles options)%nat
  ∧ (length (uploadedFiles (final r)) ≤ opt_maxFiles options)%nat
  ∧ (∃ entries, uploadedFiles (final r) = uploadedFiles st ++ entries
       ∧ (returned r = true →
          map file entries =
          take (opt_maxFiles options - length (uploadedFiles st))
               (validate options [photo 5; photo 6]).1))
  ∧ upload_errors_of (trace r) =
      match onUploadError options with
      | None => []
      | Some _ =>
          if bool_decide (opt_maxFiles options ≤ length (uploadedFiles st))%nat
          then [JsError "Error" MAX_FILES_EXCEEDED]
          else if bool_decide
                    (0 < length (validate options [photo 5; photo 6]).2)%nat
               then [JsError "Error"
                       (join newline (validate options [photo 5; photo 6]).2)]
               else []
      end.
Proof.
  intros st r.
  assert (Hle : (length (uploadedFiles st) ≤ opt_maxFiles options)%nat)
    by (vm_compute; lia).
  split; [exact Hle|].
  exact (uploadFiles_capacity options clock [photo 5; photo 6] st Hle).
Defined.

(** C3, as stated, fails: the entry is uploaded, not failed, and
    [retryUpload] sets it back to uploading at progress 0 and starts its
    upload task again. *)
Lemma retry_of_uploaded_restarts :
  let st := final uploaded in
  let r := retryUpload (uploadedFiles st) photo_id st in
  uploadedFiles st = [uploaded_entry]
  ∧ hasFailedUploads (uploadedFiles st) = false
  ∧ map uploadProgress (uploadedFiles (final r)) = [Some 0]
  ∧ map isUploading (uploadedFiles (final r)) = [Some true]
  ∧ trace r = [Sleep 100]
  ∧ match outcome r with
    | inl (Some task) => t_pc task = AtProgress 0
    | _ => False
    end
  ∧ uploadedFiles (final r) ≠ uploadedFiles st.
Proof.
  intros st r.
  do 5 (split; [vm_compute; reflexivity|]).
  split; [vm_compute; reflexivity|].
  intros H. vm_compute in H. discriminate H.
Qed.

Lemma retryUpload_effect_witness :
  let st := final uploaded in
  let r := retryUpload (uploadedFiles st) photo_id st in
  ¬ absent photo_id (uploadedFiles st)
  ∧ well_formed st
  ∧ (∃ f', uploadedFiles (final r) !! 0%nat = Some f'
           ∧ isUploading f' = Some true ∧ uploadProgress f' = Some 0
           ∧ uploadError f' = None
           ∧ uploadAbortController f' = Some (controllers st))
  ∧ (∃ task, r = Result [Sleep 100] (final r) (inl (Some task))
             ∧ t_pc task = AtProgress 0
             ∧ uploadId (t_entry task) = photo_id).
Proof.
  intros st r.
  destruct (retryUpload_effect photo_id st) as (_ & _ & _ & Hsame & Hstart).
  assert (Hpresent : ¬ absent photo_id (uploadedFiles st)).
  { intros Habs. apply (Habs uploaded_entry); [|reflexivity].
    subst st. rewrite (proj1 uploaded_is). simpl. by left. }
  assert (Hwf : well_formed st).
  { intros c Hc. subst st. rewrite (proj1 uploaded_is) in Hc. simpl in Hc.
    by apply not_elem_of_empty in Hc. }
  split; [exact Hpresent|]. split; [exact Hwf|]. split.
  - apply (Hsame 0%nat uploaded_entry); reflexivity.
  - exact (Hstart Hpresent Hwf).
Defined.

(** C4, as stated, fails: the cancelled entry is taken out of the batch,
    which becomes shorter; no record of it stays. *)
Lemma cancelled_entry_is_removed :
  let st := final at_thirty in
  let r := cancelUpload photo_id st in
  uploadedFiles st = [entry_at 30]
  ∧ to_cancel photo_id (entry_at 30) = true
  ∧ uploadedFiles (final r) = []
  ∧ length (uploadedFiles (final r)) ≠ length (uploadedFiles st).
Proof.
  intros st r. do 3 (split; [vm_compute; reflexivity|]). vm_compute. lia.
Qed.

Lemma cancelUpload_removes_witness :
  let st := final at_thirty in
  let r := cancelUpload photo_id st in
  entry_at 30 ∈ uploadedFiles st
  ∧ to_cancel photo_id (entry_at 30) = true
  ∧ (entry_at 30 ∉ uploadedFiles (final r))
  ∧ (entry_at 30 ∉ ready (uploadedFiles (final r)))
  ∧ (∀ c, uploadAbortController (entry_at 30) = Some c → c ∈ aborted (final r)).
Proof.
  intros st r.
  destruct (cancelUpload_removes photo_id st) as (_ & _ & _ & Hgone & _).
  assert (Hin : entry_at 30 ∈ uploadedFiles st).
  { subst st. rewrite at_thirty_is. simpl. by left. }
  split; [exact Hin|]. split; [reflexivity|].
  exact (Hgone (entry_at 30) Hin eq_refl).
Defined.

(** C9 on the code: the upload of the photo is cancelled after it has
    reported 30 percent; its entry is out of the batch and its controller
    is aborted, and the upload task goes on to report 40 up to 100
    percent to the progress callback of the application. *)
Theorem progress_after_cancel :
  outcome one_started = inl [photo_task]
  ∧ outcome at_thirty = inl {| t_entry := photo_entry; t_pc := AtProgress 40 |}
  ∧ uploadAbortController photo_entry = Some 0%nat
  ∧ uploadedFiles (final cancelled) = []
  ∧ 0%nat ∈ aborted (final cancelled)
  ∧ progress_of (trace after_cancel) =
      [(photo_id, 40); (photo_id, 50); (photo_id, 60); (photo_id, 70);
       (photo_id, 80); (photo_id, 90); (photo_id, 100)].
Proof.
  do 4 (split; [vm_compute; reflexivity|]).
  split; [|vm_compute; reflexivity].
  rewrite cancelled_is. simpl. apply elem_of_union_l, elem_of_singleton. done.
Qed.

Example first_cancelled_is :
  final first_cancelled =
  {| uploadedFiles := [second_entry]; uploadCounterRef := 2;
     aborted := {[ 0%nat ]} ∪ ∅; controllers := 2 |}.
Proof. reflexivity. Qed.

(** The batch holds the entry of the second photo when the late updates
    of the first one arrive: they leave that entry as it is, whereas the
    same updates under the identifier of the second photo change it. *)
Lemma late_updates_are_ignored_witness :
  let st := final first_cancelled in
  let late := {| t_entry := photo_entry; t_pc := AtProgress 40 |} in
  uploadedFiles st = [second_entry]
  ∧ absent photo_id (uploadedFiles st)
  ∧ update_entries second_id (progress_updates 40) (uploadedFiles st)
      ≠ uploadedFiles st
  ∧ final (resume options "g1" {| t_entry := second_entry; t_pc := AtProgress 40 |} st)
      ≠ st
  ∧ update_entries photo_id (progress_updates 40) (uploadedFiles st) = [second_entry]
  ∧ final (resume options "g1" late st) = st
  ∧ final (resume_times options 7 "g1" late st) = st
  ∧ (∀ updates, update_entries photo_id updates (uploadedFiles st) = uploadedFiles st)
  ∧ (∀ updates, final (updateFile photo_id updates st) = st)
  ∧ (∀ gid task, uploadId (t_entry task) = photo_id →
       final (resume options gid task st) = st)
  ∧ (∀ error, final (upload_failed options photo_id error st) = st).
Proof.
  intros st late.
  assert (Hst : uploadedFiles st = [second_entry]) by reflexivity.
  assert (Habs : absent photo_id (uploadedFiles st)).
  { rewrite Hst. intros f Hf. apply list_elem_of_singleton in Hf as ->.
    discriminate. }
  destruct (late_updates_are_ignored options photo_id st Habs)
    as (H1 & H2 & H3 & H4).
  split; [exact Hst|]. split; [exact Habs|].
  split; [rewrite Hst; discriminate|].
  split.
  { intros H. apply (f_equal uploadedFiles) in H. rewrite Hst in H.
    vm_compute in H. discriminate H. }
  split; [by rewrite H1|].
  split; [by apply H3|].
  split; [vm_compute; reflexivity|].
  split; [exact H1|]. split; [exact H2|]. split; [exact H3|exact H4].
Defined.

End UploadExampleFacts.

(** * Further properties of the code *)

(** ** The helpers *)

Section HelperFacts.
Import Helpers.
Implicit Types s str : jsstring.

Lemma substring_prefix str n :
  substring str 0 n = take (Z.to_nat n) str.
Proof.
  unfold substring. cbn zeta.
  set (len := Z.of_nat (length str)).
  assert (0 ≤ len) by lia.
  replace (Z.min (Z.max 0 0) len) with 0 by lia.
  set (e := Z.min (Z.max n 0) len).
  replace (Z.min 0 e) with 0 by lia. replace (Z.max 0 e) with e by lia.
  change (Z.to_nat 0) with 0%nat. rewrite drop_0.
  destruct (decide (n ≤ len)).
  - by replace (Z.to_nat (e - 0)) with (Z.to_nat n) by lia.
  - rewrite !take_ge; [done| |]; lia.
Qed.

(** X1.  [truncate] keeps what it is given up to [maxLength] code units,
    appends three dots when it cuts, so that a cut string has
    [maxLength + 3] code units, and is idempotent. *)
Theorem truncate_cuts str maxLength :
  take (Z.to_nat maxLength) (truncate str maxLength) = take (Z.to_nat maxLength) str
  ∧ (maxLength < Z.of_nat (length str) →
       truncate str maxLength = take (Z.to_nat maxLength) str ++ lit "..."
       ∧ Z.of_nat (length (truncate str maxLength)) = Z.max maxLength 0 + 3)
  ∧ (Z.of_nat (length str) ≤ maxLength → truncate str maxLength = str)
  ∧ truncate (truncate str maxLength) maxLength = truncate str maxLength.
Proof.
  assert (Hcut : ∀ x : jsstring, maxLength < Z.of_nat (length x) →
            truncate x maxLength = take (Z.to_nat maxLength) x ++ lit "...").
  { intros x H. unfold truncate. rewrite bool_decide_false by lia.
    by rewrite substring_prefix. }
  assert (Hlen : ∀ x : jsstring, maxLength < Z.of_nat (length x) →
            length (take (Z.to_nat maxLength) x) = Z.to_nat maxLength).
  { intros x H. rewrite length_take. lia. }
  assert (Hkeep : ∀ x : jsstring, Z.of_nat (length x) ≤ maxLength →
            truncate x maxLength = x).
  { intros x H. unfold truncate. by rewrite bool_decide_true. }
  split; [|split; [|split]].
  - unfold truncate. case_bool_decide as H; [done|].
    rewrite substring_prefix, take_app_le, take_take by (rewrite Hlen; lia).
    f_equal. lia.
  - intros H. split; [by apply Hcut|].
    rewrite Hcut, length_app, Hlen by done. simpl. lia.
  - apply Hkeep.
  - destruct (decide (Z.of_nat (length str) ≤ maxLength)) as [H|H].
    + rewrite (Hkeep str H). apply (Hkeep str H).
    + rewrite (Hcut str) by lia. rewrite Hcut.
      * rewrite take_app_le by (rewrite Hlen; lia).
        by rewrite take_take, Nat.min_id.
      * rewrite length_app, Hlen by lia. simpl. lia.
Qed.

Lemma lastIndexOf_from_app c a b i found :
  lastIndexOf_from c (a ++ b) i found =
  lastIndexOf_from c b (i + Z.of_nat (length a)) (lastIndexOf_from c a i found).
Proof.
  revert i found. induction a as [|x a IH]; intros i found; simpl.
  - f_equal. lia.
  - rewrite IH. f_equal. lia.
Qed.

Lemma lastIndexOf_from_absent c s i found :
  c ∉ s → lastIndexOf_from c s i found = found.
Proof.
  revert i found. induction s as [|x s IH]; intros i found Hc; [done|].
  apply not_elem_of_cons in Hc as [Hx Hs]. simpl.
  rewrite IH by done. destruct (N.eqb_spec x c); congruence.
Qed.

Lemma lastIndexOf_last c base ext :
  c ∉ ext → lastIndexOf c (base ++ c :: ext) = Z.of_nat (length base).
Proof.
  intros Hc. unfold lastIndexOf. rewrite lastIndexOf_from_app. simpl.
  rewrite lastIndexOf_from_absent by done. by rewrite N.eqb_refl.
Qed.

Lemma getFileExtension_none filename :
  Z.of_nat (length filename) ≤ 2 ^ 32 →
  lastIndexOf DOT filename ≤ 0 → -1 ≤ lastIndexOf DOT filename →
  getFileExtension filename = [].
Proof.
  intros Hlen Hle Hge. unfold getFileExtension, slice_from, to_uint32.
  apply drop_ge. unfold relative_index.
  assert (lastIndexOf DOT filename = -1 ∨ lastIndexOf DOT filename = 0)
    as [->| ->] by lia.
  - change ((-1 - 1) mod 2 ^ 32 + 2) with (2 ^ 32).
    rewrite bool_decide_false by lia. lia.
  - change ((0 - 1) mod 2 ^ 32 + 2) with (2 ^ 32 + 1).
    rewrite bool_decide_false by lia. lia.
Qed.

Lemma getFileExtension_last base ext :
  Z.of_nat (length (base ++ DOT :: ext)) ≤ 2 ^ 32 →
  base ≠ [] → DOT ∉ ext →
  getFileExtension (base ++ DOT :: ext) = ext.
Proof.
  intros Hlen Hbase Hext. unfold getFileExtension, slice_from, to_uint32.
  rewrite lastIndexOf_last by done.
  rewrite length_app in *. simpl in *.
  assert (0 < length base)%nat by (destruct base; [done|simpl; lia]).
  rewrite Z.mod_small by lia.
  unfold relative_index. rewrite bool_decide_false by lia.
  replace (Z.to_nat _) with (length base + 1)%nat by lia.
  rewrite <- drop_drop, drop_app_length. done.
Qed.

(** X2.  [getFileExtension] returns what follows the last dot of a file
    name, and the empty string when the name has no dot or no dot but a
    leading one; the result never holds a dot.  The unsigned shift wraps
    at 2^32, which bounds the length of the names for which this
    holds. *)
Theorem getFileExtension_after_last_dot filename :
  Z.of_nat (length filename) ≤ 2 ^ 32 →
  (DOT ∉ getFileExtension filename)
  ∧ (DOT ∉ filename → getFileExtension filename = [])
  ∧ (∀ ext, filename = DOT :: ext → DOT ∉ ext → getFileExtension filename = [])
  ∧ (∀ base ext, filename = base ++ DOT :: ext → base ≠ [] → DOT ∉ ext →
       getFileExtension filename = ext).
Proof.
  intros Hlen.
  assert (Hnone : DOT ∉ filename → getFileExtension filename = []).
  { intros H. apply getFileExtension_none; [done| |];
      unfold lastIndexOf; rewrite lastIndexOf_from_absent by done; lia. }
  assert (Hlead : ∀ ext, filename = DOT :: ext → DOT ∉ ext →
            getFileExtension filename = []).
  { intros ext -> H. pose proof (lastIndexOf_last DOT [] ext H) as Hi.
    simpl in Hi. apply getFileExtension_none; [done| |]; rewrite Hi; lia. }
  assert (Hlast : ∀ base ext, filename = base ++ DOT :: ext → base ≠ [] →
            DOT ∉ ext → getFileExtension filename = ext).
  { intros base ext -> Hb He. by apply getFileExtension_last. }
  split; [|by repeat split].
  destruct (decide (DOT ∈ filename)) as [Hin|Hnot].
  - apply list_elem_of_split_r in Hin as (base & ext & Heq & Hext).
    destruct base as [|b base].
    + rewrite (Hlead ext Heq Hext). apply not_elem_of_nil.
    + by rewrite (Hlast (b :: base) ext Heq).
  - rewrite (Hnone Hnot). apply not_elem_of_nil.
Qed.

(** *** slugify *)

Lemma drop_hyphens_suffix s : ∃ k, drop_hyphens s = drop k s.
Proof.
  induction s as [|c s [k IH]]; [by exists 0%nat|]. simpl.
  destruct (N.eqb c HYPHEN); [by exists (S k) | by exists 0%nat].
Qed.

Lemma drop_hyphens_head s : head (drop_hyphens s) ≠ Some HYPHEN.
Proof.
  induction s as [|c s IH]; [done|]. simpl.
  destruct (N.eqb_spec c HYPHEN); [done|]. simpl. congruence.
Qed.

Lemma drop_hyphens_snoc s x :
  x ≠ HYPHEN → drop_hyphens (s ++ [x]) = drop_hyphens s ++ [x].
Proof.
  intros Hx. induction s as [|c s IH]; simpl.
  - by destruct (N.eqb_spec x HYPHEN).
  - by destruct (N.eqb c HYPHEN).
Qed.

(** Stripping the hyphens at both ends leaves a segment of the string
    that neither begins nor ends with a hyphen. *)
Lemma strip_hyphens_segment s :
  (∃ k n, strip_hyphens s = take n (drop k s))
  ∧ head (strip_hyphens s) ≠ Some HYPHEN
  ∧ last (strip_hyphens s) ≠ Some HYPHEN.
Proof.
  unfold strip_hyphens.
  destruct (drop_hyphens_suffix s) as [k Hk].
  pose proof (drop_hyphens_head s) as Hhead.
  destruct (drop_hyphens s) as [|x d] eqn:Hd.
  { split; [|done]. exists 0%nat, 0%nat. by rewrite take_0. }
  assert (Hx : x ≠ HYPHEN) by (simpl in Hhead; congruence).
  rewrite reverse_cons, drop_hyphens_snoc, reverse_app by done. simpl.
  destruct (drop_hyphens_suffix (reverse d)) as [j Hj].
  split; [|split].
  - exists k, (S (length d - j))%nat. rewrite <- Hk. simpl. f_equal.
    by rewrite Hj, drop_reverse, reverse_involutive.
  - simpl. congruence.
  - change (x :: reverse (drop_hyphens (reverse d)))
      with (reverse [x] ++ reverse (drop_hyphens (reverse d))).
    rewrite <- reverse_app, last_reverse.
    destruct (drop_hyphens (reverse d)) as [|y e] eqn:He; simpl; [congruence|].
    pose proof (drop_hyphens_head (reverse d)) as H. rewrite He in H. exact H.
Qed.

Lemma hyphenate_in_run_head s : head (hyphenate true s) ≠ Some HYPHEN.
Proof.
  induction s as [|c s IH]; [done|]. simpl.
  destruct (is_separator c) eqn:Hc; [done|]. simpl.
  intros [= ->]. by vm_compute in Hc.
Qed.

Lemma hyphenate_single in_run s i :
  hyphenate in_run s !! i = Some HYPHEN →
  hyphenate in_run s !! S i ≠ Some HYPHEN.
Proof.
  revert in_run i. induction s as [|c s IH]; intros in_run i; [done|]. simpl.
  destruct (is_separator c) eqn:Hc.
  - destruct in_run; [apply IH|].
    destruct i as [|i]; simpl; [|apply IH].
    intros _. pose proof (hyphenate_in_run_head s) as H.
    by destruct (hyphenate true s).
  - destruct i as [|i]; simpl; [|apply IH].
    intros [= ->]. by vm_compute in Hc.
Qed.

Lemma hyphenate_alnum in_run s :
  Forall (λ c, is_word c || isWhiteSpace c || N.eqb c HYPHEN = true) s →
  Forall (λ c, is_alnum c = true ∨ c = HYPHEN) (hyphenate in_run s).
Proof.
  intros Hs. revert in_run. induction Hs as [|c s Hc _ IH]; intros in_run; [done|].
  simpl. destruct (is_separator c) eqn:Hsep.
  - destruct in_run; [apply IH|]. constructor; [by right | apply IH].
  - constructor; [|apply IH]. left.
    unfold is_separator, is_word in *.
    destruct (is_alnum c); [done|].
    destruct (isWhiteSpace c), (N.eqb c UNDERSCORE), (N.eqb c HYPHEN); done.
Qed.

(** X3.  A slug is made of ASCII letters, digits and hyphens only, so that
    no dot, white space or underscore is left in it; it neither begins
    nor ends with a hyphen and has no two hyphens in a row.  This holds
    whatever [toLowerCase] does to the text. *)
Theorem slugify_shape (toLowerCase : jsstring → jsstring) str :
  let slug := slugify toLowerCase str in
  Forall (λ c, is_alnum c = true ∨ c = HYPHEN) slug
  ∧ head slug ≠ Some HYPHEN
  ∧ last slug ≠ Some HYPHEN
  ∧ (∀ i, slug !! i = Some HYPHEN → slug !! S i ≠ Some HYPHEN)
  ∧ (DOT ∉ slug) ∧ (UNDERSCORE ∉ slug) ∧ Forall (λ c, isWhiteSpace c = false) slug.
Proof.
  intros slug. subst slug. unfold slugify.
  set (t := strip_symbols (trim (toLowerCase str))).
  destruct (strip_hyphens_segment (hyphenate false t)) as ((k & n & Hseg) & Hhead & Hlast).
  assert (Hall : Forall (λ c, is_alnum c = true ∨ c = HYPHEN)
                   (strip_hyphens (hyphenate false t))).
  { rewrite Hseg. apply Forall_take, Forall_drop, hyphenate_alnum.
    subst t. unfold strip_symbols. apply Forall_forall. intros c Hc.
    apply list_elem_of_In, filter_In in Hc as [_ Hc]. exact Hc. }
  split; [exact Hall|]. split; [exact Hhead|]. split; [exact Hlast|].
  split; [|split; [|split]].
  - intros i. rewrite Hseg. intros Hi.
    apply lookup_take_Some in Hi as [Hi Hlt].
    rewrite lookup_drop in Hi. intros Hsi.
    apply lookup_take_Some in Hsi as [Hsi _]. rewrite lookup_drop in Hsi.
    apply (hyphenate_single _ _ _ Hi). by rewrite <- Nat.add_succ_r.
  - intros Hin. apply (proj1 (Forall_forall _ _) Hall) in Hin as [H| H];
      by vm_compute in H.
  - intros Hin. apply (proj1 (Forall_forall _ _) Hall) in Hin as [H| H];
      by vm_compute in H.
  - eapply Forall_impl; [exact Hall|]. intros c [H| ->]; [|by vm_compute].
    unfold is_alnum in H. unfold isWhiteSpace.
    repeat match goal with
           | |- context [N.eqb c ?n] => destruct (N.eqb_spec c n); [subst; by vm_compute in H|]
           end.
    simpl. destruct (N.leb_spec 8192 c); [|done].
    exfalso. repeat (apply orb_prop in H as [H|H]);
      apply andb_prop in H as [_ H]; apply N.leb_le in H; lia.
Qed.

(** *** unique and chunk *)

Section ArrayFacts.
Context {A : Type} `{EqDecision A}.
Implicit Types array seen : list A.

Lemma add_all_snoc seen array x :
  add_all seen (array ++ [x]) =
  if bool_decide (x ∈ add_all seen array) then add_all seen array
  else add_all seen array ++ [x].
Proof.
  revert seen. induction array as [|y array IH]; intros seen; simpl; [done|].
  destruct (bool_decide (y ∈ seen)); apply IH.
Qed.

Lemma add_all_elem_of seen array x :
  x ∈ add_all seen array ↔ x ∈ seen ∨ x ∈ array.
Proof.
  revert seen. induction array as [|y array IH]; intros seen; simpl.
  - rewrite elem_of_nil. tauto.
  - case_bool_decide as Hy; rewrite IH; set_solver.
Qed.

Lemma add_all_NoDup seen array : NoDup seen → NoDup (add_all seen array).
Proof.
  revert seen. induction array as [|y array IH]; intros seen Hseen; simpl; [done|].
  case_bool_decide as Hy; apply IH; [done|].
  apply NoDup_app. split; [done|]. split; [|apply NoDup_singleton].
  intros z Hz ->%list_elem_of_singleton. done.
Qed.

Lemma add_all_sublist seen array :
  ∃ rest, add_all seen array = seen ++ rest ∧ sublist rest array.
Proof.
  revert seen. induction array as [|y array IH]; intros seen; simpl.
  - exists []. by rewrite app_nil_r.
  - case_bool_decide as Hy.
    + destruct (IH seen) as (rest & -> & Hsub). exists rest.
      split; [done|]. by apply sublist_cons.
    + destruct (IH (seen ++ [y])) as (rest & -> & Hsub). exists (y :: rest).
      split; [by rewrite <- app_assoc|]. by apply sublist_skip.
Qed.

Lemma add_all_fresh seen array :
  NoDup (seen ++ array) → add_all seen array = seen ++ array.
Proof.
  revert seen. induction array as [|y array IH]; intros seen Hnd; simpl.
  - by rewrite app_nil_r.
  - apply NoDup_app in Hnd as (Hs & Hdisj & Ha).
    apply NoDup_cons in Ha as [Hy Ha].
    rewrite bool_decide_false by (intros Hin; apply (Hdisj y Hin); by left).
    rewrite IH; [by rewrite <- app_assoc|].
    rewrite <- app_assoc. apply NoDup_app. split; [done|]. split.
    + intros z Hz. apply Hdisj, Hz.
    + by apply NoDup_cons.
Qed.

(** X4.  [unique] returns the distinct elements of the array in the order
    of their first occurrence: an element is appended when it is met for
    the first time and dropped when it is met again.  The result has no
    duplicates and the same elements, and an array without duplicates,
    in particular a result of [unique], comes back as it is. *)
Theorem unique_first_occurrences array :
  NoDup (unique array)
  ∧ (∀ x, x ∈ unique array ↔ x ∈ array)
  ∧ sublist (unique array) array
  ∧ (∀ x, unique (array ++ [x]) =
          if bool_decide (x ∈ array) then unique array else unique array ++ [x])
  ∧ (NoDup array ↔ unique array = array)
  ∧ unique (unique array) = unique array.
Proof.
  assert (Hnd : NoDup (unique array)) by apply add_all_NoDup, NoDup_nil_2.
  assert (Hin : ∀ x, x ∈ unique array ↔ x ∈ array).
  { intros x. unfold unique. rewrite add_all_elem_of, elem_of_nil. tauto. }
  assert (Hfix : ∀ l : list A, NoDup l → unique l = l).
  { intros l Hl. unfold unique. by rewrite add_all_fresh. }
  split; [exact Hnd|]. split; [exact Hin|]. split; [|split; [|split]].
  - unfold unique. by destruct (add_all_sublist [] array) as (rest & -> & Hsub).
  - intros x. unfold unique. rewrite add_all_snoc.
    fold (unique array).
    destruct (decide (x ∈ array)) as [Hx|Hx].
    + rewrite !bool_decide_true; [done..|]. by apply Hin.
    + rewrite !bool_decide_false; [done..|]. by rewrite Hin.
  - split; [apply Hfix|]. intros <-. exact Hnd.
  - by apply Hfix.
Qed.

Lemma slice_window array (size i : Z) :
  0 ≤ i → 0 < size →
  slice array i (i + size) = take (Z.to_nat size) (drop (Z.to_nat i) array).
Proof.
  intros Hi Hsize. unfold slice, relative_index. cbn zeta.
  rewrite !bool_decide_false by lia.
  set (len := Z.of_nat (length array)).
  destruct (decide (i + size ≤ len)).
  - rewrite Z.min_l, Z.min_l by lia. f_equal. lia.
  - destruct (decide (i ≤ len)).
    + rewrite (Z.min_l i), Z.min_r by lia.
      rewrite !take_ge; [done| |]; rewrite length_drop; lia.
    + rewrite !drop_ge by lia. by rewrite !take_nil.
Qed.

Lemma chunk_loop_run array size :
  0 < size → ∀ fuel i chunks,
  0 ≤ i → (0 < fuel)%nat → (Z.of_nat (length array) - i < Z.of_nat fuel) →
  ∃ rest,
    chunk_loop fuel array size i chunks = Some (chunks ++ rest)
    ∧ concat rest = drop (Z.to_nat i) array
    ∧ Forall (λ c, c ≠ [] ∧ Z.of_nat (length c) ≤ size) rest
    ∧ (∀ j c, rest !! j = Some c → (S j < length rest)%nat →
         Z.of_nat (length c) = size).
Proof.
  intros Hsize. induction fuel as [|fuel IH]; intros i chunks Hi Hpos Hfuel; [lia|].
  simpl. case_bool_decide as Hlt.
  - destruct (IH (i + size) (chunks ++ [slice array i (i + size)]))
      as (rest & Hrun & Hcat & Hall & Hfull); [lia..|].
    rewrite slice_window in * by done.
    set (c := take (Z.to_nat size) (drop (Z.to_nat i) array)) in *.
    exists (c :: rest). rewrite Hrun, <- app_assoc. split; [done|].
    assert (Hc : Z.of_nat (length c) = Z.min size (Z.of_nat (length array) - i)).
    { subst c. rewrite length_take, length_drop. lia. }
    split; [|split].
    + simpl. rewrite Hcat. subst c.
      replace (Z.to_nat (i + size)) with (Z.to_nat i + Z.to_nat size)%nat by lia.
      by rewrite <- drop_drop, take_drop.
    + constructor; [|done]. split; [|lia].
      intros Hnil. rewrite Hnil in Hc. simpl in Hc. lia.
    + intros [|j] c' Hj Hlen; simpl in *; [|apply (Hfull j c' Hj); lia].
      injection Hj as <-.
      destruct rest as [|c1 rest]; [simpl in Hlen; lia|].
      assert (drop (Z.to_nat (i + size)) array ≠ []) as Hne.
      { rewrite <- Hcat. simpl. apply Forall_cons in Hall as [[Hc1 _] _].
        by destruct c1. }
      assert ((Z.to_nat (i + size) < length array)%nat).
      { destruct (decide (Z.to_nat (i + size) < length array)%nat); [done|].
        exfalso. apply Hne, drop_ge. lia. }
      lia.
  - exists []. rewrite app_nil_r. split; [done|].
    split; [|split; [done|by intros []]].
    simpl. symmetry. apply drop_ge. lia.
Qed.

(** X5.  For a positive size, [chunk] ends after at most one more test of
    its condition than the array has elements, and its chunks cut the
    array into consecutive pieces: their concatenation is the array, none
    is empty, and all have [size] elements except possibly the last,
    which has at most [size]. *)
Theorem chunk_partitions fuel array size :
  0 < size → (length array < fuel)%nat →
  ∃ chunks,
    chunk fuel array size = Some chunks
    ∧ concat chunks = array
    ∧ Forall (λ c, c ≠ [] ∧ Z.of_nat (length c) ≤ size) chunks
    ∧ (∀ j c, chunks !! j = Some c → (S j < length chunks)%nat →
         Z.of_nat (length c) = size).
Proof.
  intros Hsize Hfuel.
  destruct (chunk_loop_run array size Hsize fuel 0 []) as (rest & H); [lia..|].
  exists rest. exact H.
Qed.

(** X6.  With a size that is zero or negative, the loop of [chunk] never
    ends on an array that is not empty: the index never reaches the
    length. *)
Theorem chunk_never_returns fuel array size :
  size ≤ 0 → array ≠ [] → chunk fuel array size = None.
Proof.
  intros Hsize Hne. unfold chunk.
  assert (H : ∀ i chunks, i ≤ 0 → chunk_loop fuel array size i chunks = None).
  { induction fuel as [|n IH]; intros i chunks Hi; [done|]. simpl.
    rewrite bool_decide_true; [apply IH; lia|].
    destruct array; [done|]. simpl. lia. }
  by apply H.
Qed.

End ArrayFacts.

End HelperFacts.

(** *** retry *)

Section RetryFacts.
Import Helpers.
Context {X St A : Type}.
Variable fn : M X St A.
Variable options : RetryOptions.

Local Abbreviation pause :=
  (λ i : nat, opt_delay options * opt_backoffMultiplier options ^ Z.of_nat i).

Lemma attempts_of_inner (t : list X) : attempts_of (map Inner t) = [].
Proof. by induction t. Qed.

Lemma sleeps_of_inner (t : list X) : sleeps_of (map Inner t) = [].
Proof. by induction t. Qed.

Lemma retry_round_success i rest lastError s a :
  outcome (fn s) = inl a →
  retry_loop fn options (i :: rest) lastError s =
  Result (Attempt i :: map Inner (trace (fn s))) (final (fn s)) (inl a).
Proof.
  intros H. simpl. rewrite run_bind, run_try_catch, !run_bind. simpl.
  rewrite H. simpl. unfold after, ret; simpl. by rewrite !app_nil_r.
Qed.

Lemma retry_round_failure i rest lastError s e :
  outcome (fn s) = inr e →
  retry_loop fn options (i :: rest) lastError s =
  after (Attempt i :: map Inner (trace (fn s))
         ++ (if bool_decide (S i < opt_maxRetries options)%nat
             then [Slept (pause i)] else []))
        (retry_loop fn options rest (Some e) (final (fn s))).
Proof.
  intros H. cbn [retry_loop]. rewrite run_bind, run_try_catch, !run_bind. simpl.
  rewrite H. simpl.
  destruct (bool_decide (S i < opt_maxRetries options)%nat); simpl;
    unfold after; simpl; by rewrite ?app_nil_r.
Qed.

Lemma retry_loop_success k : ∀ j s lastError a,
  (j + k < opt_maxRetries options)%nat →
  (∀ i, (i < k)%nat → returned (fn (state_at fn i s)) = false) →
  outcome (fn (state_at fn k s)) = inl a →
  let r := retry_loop fn options (seq j (opt_maxRetries options - j)) lastError s in
  outcome r = inl a
  ∧ final r = final (fn (state_at fn k s))
  ∧ attempts_of (trace r) = seq j (S k)
  ∧ sleeps_of (trace r) = map pause (seq j k).
Proof.
  induction k as [|k IH]; intros j s lastError a Hlt Hfail Hok r; subst r.
  - replace (opt_maxRetries options - j)%nat
      with (S (opt_maxRetries options - S j)) by lia.
    cbn [seq]. rewrite (retry_round_success _ _ _ _ _ Hok). simpl.
    by rewrite attempts_of_inner, sleeps_of_inner.
  - replace (opt_maxRetries options - j)%nat
      with (S (opt_maxRetries options - S j)) by lia.
    cbn [seq].
    pose proof (Hfail 0%nat ltac:(lia)) as H0. unfold returned in H0. simpl in H0.
    destruct (outcome (fn s)) as [|e] eqn:He; [done|].
    rewrite (retry_round_failure _ _ _ _ _ He).
    rewrite bool_decide_true by lia.
    destruct (IH (S j) (final (fn s)) (Some e) a) as (Ho & Hf & Ha & Hs).
    + lia.
    + intros i Hi. specialize (Hfail (S i) ltac:(lia)).
      unfold state_at in *. by rewrite Nat.iter_succ_r in Hfail.
    + unfold state_at in *. by rewrite Nat.iter_succ_r in Hok.
    + unfold state_at in *. rewrite Nat.iter_succ_r.
      split; [exact Ho|]. split; [exact Hf|]. simpl. split.
      * unfold attempts_of in *. rewrite omap_app, omap_app.
        fold (attempts_of (map Inner (trace (fn s)))).
        rewrite attempts_of_inner. simpl. by rewrite Ha.
      * unfold sleeps_of in *. rewrite omap_app, omap_app.
        fold (sleeps_of (map Inner (trace (fn s)))).
        rewrite sleeps_of_inner. simpl. by rewrite Hs.
Qed.

(** X7.  When the first [k] calls of [fn] fail and the next one returns,
    within the allowed number of calls, [retry] returns that value after
    exactly [k + 1] calls, having slept [delay * backoffMultiplier ^ i]
    after the failure of call [i]; the delays are not capped. *)
Theorem retry_returns_first_success k a s :
  (k < opt_maxRetries options)%nat →
  (∀ i, (i < k)%nat → returned (fn (state_at fn i s)) = false) →
  outcome (fn (state_at fn k s)) = inl a →
  let r := retry fn options s in
  outcome r = inl a
  ∧ final r = final (fn (state_at fn k s))
  ∧ attempts_of (trace r) = seq 0 (S k)
  ∧ sleeps_of (trace r) = map pause (seq 0 k).
Proof.
  intros Hk Hfail Hok. unfold retry.
  pose proof (retry_loop_success k 0 s None a Hk Hfail Hok) as H.
  by rewrite Nat.sub_0_r in H.
Qed.

Lemma retry_loop_exhausted (e : nat → Thrown) n : ∀ j s lastError,
  (j + n = opt_maxRetries options)%nat →
  (∀ i, (i < n)%nat → outcome (fn (state_at fn i s)) = inr (e (j + i)%nat)) →
  let r := retry_loop fn options (seq j n) lastError s in
  outcome r = inr (match n with
                   | 0%nat => default JsOther lastError
                   | S n' => e (j + n')%nat
                   end)
  ∧ final r = state_at fn n s
  ∧ attempts_of (trace r) = seq j n
  ∧ sleeps_of (trace r) = map pause (seq j (n - 1)).
Proof.
  induction n as [|n IH]; intros j s lastError Hj Hfail r; subst r; [done|].
  cbn [seq].
  pose proof (Hfail 0%nat ltac:(lia)) as H0. simpl in H0. rewrite Nat.add_0_r in H0.
  rewrite (retry_round_failure _ _ _ _ _ H0).
  destruct (IH (S j) (final (fn s)) (Some (e j))) as (Ho & Hf & Ha & Hs).
  - lia.
  - intros i Hi. specialize (Hfail (S i) ltac:(lia)).
    unfold state_at in *. rewrite Nat.iter_succ_r in Hfail.
    by rewrite Nat.add_succ_r in Hfail.
  - unfold state_at in *. rewrite Nat.iter_succ_r.
    split; [|split; [exact Hf|]].
    + simpl. rewrite Ho. destruct n as [|n']; simpl.
      * by rewrite Nat.add_0_r.
      * by rewrite Nat.add_succ_r.
    + simpl. split.
      * unfold attempts_of in *. rewrite omap_app, omap_app.
        fold (attempts_of (map Inner (trace (fn s)))).
        rewrite attempts_of_inner, Ha.
        by destruct (bool_decide (S j < opt_maxRetries options)%nat).
      * unfold sleeps_of in *. rewrite omap_app, omap_app.
        fold (sleeps_of (map Inner (trace (fn s)))).
        rewrite sleeps_of_inner, Hs.
        destruct n as [|n'].
        -- by rewrite bool_decide_false by lia.
        -- rewrite bool_decide_true by lia. simpl. by rewrite Nat.sub_0_r.
Qed.

(** X8.  When every call of [fn] fails, [retry] calls it [maxRetries]
    times, sleeps between the calls but not after the last, and throws
    what the last call threw; with [maxRetries = 0] it does not call
    [fn] at all and throws [undefined]. *)
Theorem retry_rethrows_last (e : nat → Thrown) s :
  (∀ i, (i < opt_maxRetries options)%nat →
     outcome (fn (state_at fn i s)) = inr (e i)) →
  let r := retry fn options s in
  outcome r = inr (match opt_maxRetries options with
                   | 0%nat => JsOther
                   | S n => e n
                   end)
  ∧ final r = state_at fn (opt_maxRetries options) s
  ∧ attempts_of (trace r) = seq 0 (opt_maxRetries options)
  ∧ sleeps_of (trace r) = map pause (seq 0 (opt_maxRetries options - 1)).
Proof.
  intros Hfail. by apply (retry_loop_exhausted e).
Qed.

End RetryFacts.

Section HelperExampleFacts.
Import Helpers HelperExamples.

Lemma getFileExtension_after_last_dot_witness :
  Z.of_nat (length (lit "archive.tar.gz")) ≤ 2 ^ 32
  ∧ (DOT ∉ getFileExtension (lit "archive.tar.gz"))
  ∧ getFileExtension (lit "archive.tar.gz") = lit "gz".
Proof.
  assert (H : Z.of_nat (length (lit "archive.tar.gz")) ≤ 2 ^ 32)
    by (vm_compute; discriminate).
  destruct (getFileExtension_after_last_dot (lit "archive.tar.gz") H)
    as (Hdot & _ & _ & Hext).
  split; [exact H|]. split; [exact Hdot|].
  apply (Hext (lit "archive.tar") (lit "gz")); [reflexivity|discriminate|].
  apply (bool_decide_unpack _). vm_compute. exact I.
Defined.

Lemma chunk_partitions_witness :
  0 < 2 ∧ (length [1; 2; 3; 4; 5] < 6)%nat
  ∧ ∃ chunks,
      chunk 6 [1; 2; 3; 4; 5] 2 = Some chunks
      ∧ concat chunks = [1; 2; 3; 4; 5]
      ∧ Forall (λ c, c ≠ [] ∧ Z.of_nat (length c) ≤ 2) chunks
      ∧ (∀ j c, chunks !! j = Some c → (S j < length chunks)%nat →
           Z.of_nat (length c) = 2).
Proof.
  assert (H1 : 0 < 2) by lia.
  assert (H2 : (length [1; 2; 3; 4; 5] < 6)%nat) by (simpl; lia).
  split; [exact H1|]. split; [exact H2|].
  exact (chunk_partitions 6 [1; 2; 3; 4; 5] 2 H1 H2).
Defined.

Example chunk_of_five : chunk 6 [1; 2; 3; 4; 5] 2 = Some [[1; 2]; [3; 4]; [5]].
Proof. reflexivity. Qed.

Lemma chunk_never_returns_witness :
  0 ≤ 0 ∧ [1; 2; 3] ≠ [] ∧ chunk 1000 [1; 2; 3] 0 = None.
Proof.
  assert (H1 : 0 ≤ 0) by lia.
  assert (H2 : [1; 2; 3] ≠ []) by discriminate.
  split; [exact H1|]. split; [exact H2|].
  exact (chunk_never_returns 1000 [1; 2; 3] 0 H1 H2).
Defined.

Lemma retry_returns_first_success_witness :
  let r := retry flaky default_options 0%nat in
  (2 < opt_maxRetries default_options)%nat
  ∧ outcome r = inl 2%nat
  ∧ attempts_of (trace r) = [0; 1; 2]%nat
  ∧ sleeps_of (trace r) = [1000; 2000].
Proof.
  intros r.
  assert (H1 : (2 < opt_maxRetries default_options)%nat) by (cbn; lia).
  assert (H2 : ∀ i, (i < 2)%nat →
            returned (flaky (state_at flaky i 0%nat)) = false).
  { intros [|[|i]] Hi; [reflexivity|reflexivity|lia]. }
  assert (H3 : outcome (flaky (state_at flaky 2 0%nat)) = inl 2%nat) by reflexivity.
  destruct (retry_returns_first_success flaky default_options 2 2%nat 0%nat H1 H2 H3)
    as (Ho & _ & Ha & Hs).
  split; [exact H1|]. split; [exact Ho|]. split; [exact Ha|exact Hs].
Defined.

Lemma retry_rethrows_last_witness :
  let r := retry failing default_options tt in
  outcome r = inr (JsError "Error" "down")
  ∧ attempts_of (trace r) = [0; 1; 2]%nat
  ∧ sleeps_of (trace r) = [1000; 2000].
Proof.
  intros r.
  assert (H : ∀ i, (i < opt_maxRetries default_options)%nat →
            outcome (failing (state_at failing i tt)) = inr (JsError "Error" "down")).
  { intros i _. reflexivity. }
  destruct (retry_rethrows_last failing default_options
              (λ _, JsError "Error" "down") tt H) as (Ho & _ & Ha & Hs).
  split; [exact Ho|]. split; [exact Ha|exact Hs].
Defined.

End HelperExampleFacts.

(** ** Lines of server-sent events *)

Section SseFacts.
Import Sse.
Implicit Types s line : jsstring.

Lemma trimStart_all s : trimStart s = [] ↔ forallb isWhiteSpace s = true.
Proof.
  induction s as [|c s IH]; simpl; [done|].
  destruct (isWhiteSpace c); simpl; [exact IH|]. split; discriminate.
Qed.

Lemma trimStart_idemp s : trimStart (trimStart s) = trimStart s.
Proof.
  induction s as [|c s IH]; simpl; [done|].
  destruct (isWhiteSpace c) eqn:Hc; [exact IH|]. simpl. by rewrite Hc.
Qed.

Lemma trim_trimStart s : trim (trimStart s) = trim s.
Proof. unfold trim. by rewrite trimStart_idemp. Qed.

Lemma trim_idemp s : trim (trim s) = trim s.
Proof.
  unfold trim.
  set (t := trimStart (reverse (trimStart s))).
  assert (Ht : trimStart t = t) by apply trimStart_idemp.
  assert (Hr : trimStart (reverse t) = reverse t).
  { subst t. clear Ht.
    pose proof (trimStart_idemp s) as Hs.
    destruct (trimStart s) as [|c u] eqn:Hu; [done|].
    simpl in Hs. destruct (isWhiteSpace c) eqn:Hc.
    { exfalso. clear -Hu Hc. revert c u Hu Hc.
      induction s as [|x s IH]; intros c u Hu Hc; [done|]. simpl in Hu.
      destruct (isWhiteSpace x) eqn:Hx; [by apply (IH c u)|].
      injection Hu as -> ->. congruence. }
    rewrite reverse_cons.
    assert (Hsnoc : ∀ l, trimStart (l ++ [c]) = trimStart l ++ [c]).
    { induction l as [|y l IHl]; simpl; [by rewrite Hc|].
      by destruct (isWhiteSpace y). }
    rewrite Hsnoc, reverse_app. simpl. by rewrite Hc. }
  by rewrite Hr, reverse_involutive, Ht.
Qed.

Lemma trim_blank s : is_empty (trim s) = true → forallb isWhiteSpace s = true.
Proof.
  unfold trim. intros H.
  destruct (reverse _) as [|? ?] eqn:Hrev in H; [|done].
  apply (f_equal reverse) in Hrev. rewrite reverse_involutive in Hrev.
  simpl in Hrev. apply trimStart_all in Hrev.
  rewrite forallb_forall in Hrev.
  destruct (trimStart s) as [|c u] eqn:Hu; [by apply trimStart_all|].
  exfalso.
  assert (Hc : isWhiteSpace c = false).
  { clear -Hu. revert c u Hu. induction s as [|x s IH]; intros c u Hu; [done|].
    simpl in Hu. destruct (isWhiteSpace x) eqn:Hx; [by apply (IH c u)|].
    by injection Hu as -> ->. }
  rewrite (Hrev c) in Hc; [done|].
  apply list_elem_of_In. rewrite elem_of_reverse. by left.
Qed.

Lemma startsWith_drop_prefix p s :
  drop_prefix p s = if startsWith p s then Some (drop (length p) s) else None.
Proof.
  unfold startsWith. revert s. induction p as [|a p IH]; intros s; simpl.
  - done.
  - destruct s as [|b s]; simpl; [done|].
    destruct (N.eqb_spec a b) as [->|Hab].
    + rewrite IH. case_bool_decide as H1; case_bool_decide as H2; congruence.
    + rewrite bool_decide_false; [done|]. congruence.
Qed.

(** X9.  [parseSseLine] returns nothing exactly for the lines that begin
    with neither [event:] nor [data:] (a blank line is one of them, and
    so is a line with white space before the field name).  For a line
    that begins with [data:], the data are what the streaming loop parses
    from that line, the line without the prefix and the white space after
    it, with the white space at the end removed as well; the value has
    no white space at either end. *)
Theorem parseSseLine_fields line :
  (parseSseLine line = None ↔
     startsWith (lit "event:") line = false ∧ startsWith (lit "data:") line = false)
  ∧ (startsWith (lit "data:") line = true →
       parseSseLine line =
         Some {| sse_event := None;
                 sse_data := Some (trim (strip_data_prefix line)) |})
  ∧ (∀ fields v, parseSseLine line = Some fields →
       sse_event fields = Some v ∨ sse_data fields = Some v → trim v = v).
Proof.
  assert (Hblank : is_empty (trim line) = true →
            startsWith (lit "event:") line = false
            ∧ startsWith (lit "data:") line = false).
  { intros H%trim_blank. unfold startsWith.
    destruct line as [|c line]; [done|].
    simpl in H. apply andb_prop in H as [Hc _].
    split; apply bool_decide_eq_false; intros Heq;
      apply (f_equal head) in Heq; simpl in Heq; injection Heq as ->;
      by vm_compute in Hc. }
  assert (Hexcl : startsWith (lit "data:") line = true →
            startsWith (lit "event:") line = false).
  { unfold startsWith. destruct line as [|c line]; [done|].
    intros H%bool_decide_eq_true. apply (f_equal head) in H. simpl in H.
    injection H as ->.
    apply bool_decide_eq_false. intros Heq. apply (f_equal head) in Heq.
    by vm_compute in Heq. }
  split; [|split].
  - unfold parseSseLine.
    destruct (is_empty (trim line)); [split; [intros _; by apply Hblank|done]|].
    destruct (startsWith (lit "event:") line); [split; [done|by intros [? ?]]|].
    destruct (startsWith (lit "data:") line); [split; [done|by intros [? ?]]|].
    done.
  - intros Hd. unfold parseSseLine, strip_data_prefix.
    destruct (is_empty (trim line)).
    { destruct (Hblank eq_refl) as [_ He]. congruence. }
    rewrite (Hexcl Hd), Hd, startsWith_drop_prefix, Hd.
    by rewrite trim_trimStart.
  - intros fields v Hp Hv. unfold parseSseLine in Hp.
    destruct (is_empty (trim line)); [done|].
    destruct (startsWith (lit "event:") line).
    { injection Hp as <-. simpl in Hv. destruct Hv as [[= <-]|[=]]. apply trim_idemp. }
    destruct (startsWith (lit "data:") line); [|done].
    injection Hp as <-. simpl in Hv. destruct Hv as [[=]|[= <-]]. apply trim_idemp.
Qed.

End SseFacts.

(** ** Mock sessions *)

Section PerformsFacts.
Context {E V S : Type}.
Variable view : list E → list V.
Hypothesis view_nil : view [] = [].
Hypothesis view_app : ∀ a b, view (a ++ b) = view a ++ view b.
Implicit Types P Q R : S → Prop.

Lemma performs_ret {A} P (a : A) : performs view P (ret a) [] (inl a) P.
Proof. intros s Hs. by rewrite <- view_nil. Qed.

Lemma performs_throw {A} P e : performs view P (throw e : M E S A) [] (inr e) P.
Proof. intros s Hs. by rewrite <- view_nil. Qed.

Lemma performs_emit P ev : performs view P (emit ev) (view [ev]) (inl tt) P.
Proof. by intros s Hs. Qed.

Lemma performs_modify Q f :
  performs view (λ s, Q (f s)) (modify f) [] (inl tt) Q.
Proof. intros s Hs. by rewrite <- view_nil. Qed.

Lemma performs_bind {A B} P Q R (m : M E S A) (k : A → M E S B) l1 l2 a res :
  performs view P m l1 (inl a) Q →
  performs view Q (k a) l2 res R →
  performs view P (m ≫= k) (l1 ++ l2) res R.
Proof.
  intros Hm Hk s Hs. destruct (Hm s Hs) as (Ht & Ho & Hq).
  destruct (Hk _ Hq) as (Ht' & Ho' & Hr).
  rewrite run_bind, Ho. simpl. by rewrite view_app, Ht, Ht'.
Qed.

Lemma performs_bind_throw {A B} P Q (m : M E S A) (k : A → M E S B) l e :
  performs view P m l (inr e) Q →
  performs view P (m ≫= k) l (inr e) Q.
Proof.
  intros Hm s Hs. destruct (Hm s Hs) as (Ht & Ho & Hq).
  by rewrite run_bind, Ho.
Qed.

Lemma performs_try {A} P Q (m : M E S A) h l a :
  performs view P m l (inl a) Q →
  performs view P (try_catch m h) l (inl a) Q.
Proof.
  intros Hm s Hs. destruct (Hm s Hs) as (Ht & Ho & Hq).
  by rewrite run_try_catch, Ho.
Qed.

Lemma performs_catch {A} P Q R (m : M E S A) h l1 l2 e res :
  performs view P m l1 (inr e) Q →
  performs view Q (h e) l2 res R →
  performs view P (try_catch m h) (l1 ++ l2) res R.
Proof.
  intros Hm Hh s Hs. destruct (Hm s Hs) as (Ht & Ho & Hq).
  destruct (Hh _ Hq) as (Ht' & Ho' & Hr).
  rewrite run_try_catch, Ho. simpl. by rewrite view_app, Ht, Ht'.
Qed.

Lemma performs_seq {A B} P Q R (m : M E S A) (k : A → M E S B) l l1 l2 a res :
  performs view P m l1 (inl a) Q →
  performs view Q (k a) l2 res R →
  l = l1 ++ l2 →
  performs view P (m ≫= k) l res R.
Proof. intros Hm Hk ->. by eapply performs_bind. Qed.

Lemma performs_caught {A} P Q R (m : M E S A) h l l1 l2 e res :
  performs view P m l1 (inr e) Q →
  performs view Q (h e) l2 res R →
  l = l1 ++ l2 →
  performs view P (try_catch m h) l res R.
Proof. intros Hm Hk ->. by eapply performs_catch. Qed.

Lemma performs_weaken {A} P P' Q Q' (m : M E S A) l res :
  performs view P m l res Q →
  (∀ s, P' s → P s) → (∀ s, Q s → Q' s) →
  performs view P' m l res Q'.
Proof.
  intros Hm HP HQ s Hs. destruct (Hm s (HP s Hs)) as (Ht & Ho & Hq).
  auto.
Qed.

End PerformsFacts.

Section MockFacts.
Import Streaming StreamingSpec MockSpec.
Context {X St : Type}.
Variable config : StreamingConfig X St.
Variable now : nat → Z.
Implicit Types s : St.
Implicit Types t : list (StreamEvent X).

Lemma own_events_app t1 t2 : own_events (t1 ++ t2) = own_events t1 ++ own_events t2.
Proof. apply List.filter_app. Qed.

Lemma own_events_consumer (t : list X) : own_events (map Consumer t) = [].
Proof. by induction t. Qed.

Lemma consumer_events_app t1 t2 :
  consumer_events (t1 ++ t2) = consumer_events t1 ++ consumer_events t2.
Proof. apply omap_app. Qed.

Lemma consumer_events_consumer (t : list X) : consumer_events (map Consumer t) = t.
Proof. induction t as [|x t IH]; [done|]. simpl. by rewrite IH. Qed.

Lemma chunks_of_own t : chunks_of (own_events t) = chunks_of t.
Proof. induction t as [|[] t IH]; simpl; by rewrite ?IH. Qed.

Lemma timeouts_of_own t : timeouts_of (own_events t) = timeouts_of t.
Proof. induction t as [|[] t IH]; simpl; by rewrite ?IH. Qed.

Lemma errors_of_own t : errors_of (own_events t) = errors_of t.
Proof. induction t as [|[] t IH]; simpl; by rewrite ?IH. Qed.

Lemma own_events_elem_of t ev :
  ev ∈ own_events t ↔ ev ∈ t ∧ match ev with Consumer _ => False | _ => True end.
Proof.
  unfold own_events. rewrite !list_elem_of_In, filter_In.
  destruct ev; naive_solver.
Qed.

Lemma running_text_length words content :
  length (running_text words content) = length words.
Proof.
  revert content. induction words as [|w words IH]; intros content; simpl; [done|].
  by rewrite IH.
Qed.

Lemma session_chunks_length words :
  length (session_chunks now words) = (4 + length words)%nat.
Proof.
  unfold session_chunks. rewrite length_app, length_imap, running_text_length. done.
Qed.

Lemma later_delays_length words :
  length (later_delays words) = (4 + length words)%nat.
Proof. unfold later_delays. by rewrite length_app, length_replicate. Qed.

(** The [try] block of [mockStreaming], for any list of words. *)
Local Abbreviation mock_body := (λ abort_at words,
  delay abort_at 500 0 ;;
  call_onChunk config (text_chunk "streaming" (lit "Analyzing your question") (now 0%nat)) ;;
  delay abort_at 800 1 ;;
  call_onChunk config
    (text_chunk "streaming" (lit "Searching for relevant information") (now 1%nat)) ;;
  delay abort_at 1000 2 ;;
  call_onChunk config toolStart_chunk ;;
  delay abort_at 1500 3 ;;
  call_onChunk config (toolUsed_chunk (now 2%nat)) ;;
  delay abort_at 500 4 ;;
  stream_words config abort_at now words [] 5 ;;
  emit OnComplete ;;
  consumer (onComplete config tt) ;;
  ret Completed).

(** *** A session through a view of its events *)

Section Narration.
Context {V : Type}.
Variable view : list (StreamEvent X) → list V.
Hypothesis view_nil : view [] = [].
Hypothesis view_app : ∀ a b, view (a ++ b) = view a ++ view b.
Variable Inv : St → Prop.
Variable chunk_view : JSON → list V.
Hypothesis chunk_seen : ∀ c,
  performs view Inv (call_onChunk config c) (chunk_view c) (inl tt) Inv.

Local Abbreviation does := (performs view Inv).

Lemma delay_passes abort_at ms k :
  abort_at ≠ Some k →
  does (delay (St := St) abort_at ms k) (view [SetTimeout ms]) (inl tt) Inv.
Proof.
  intros H s Hs. unfold delay. rewrite run_bind. simpl.
  by rewrite bool_decide_false.
Qed.

Lemma delay_aborts ms k :
  does (delay (St := St) (Some k) ms k) (view [SetTimeout ms]) (inr AbortError) Inv.
Proof.
  intros s Hs. unfold delay. rewrite run_bind. simpl.
  by rewrite bool_decide_true.
Qed.

Local Abbreviation word_chunk :=
  (λ (k i : nat) content, text_chunk "supervisor_streaming" content (now (k + i - 2)%nat)).

Local Abbreviation pair_up :=
  (λ (c : JSON) (d : Z), chunk_view c ++ view [SetTimeout (X := X) d]).

Local Abbreviation beat := (λ c : JSON, pair_up c 100).

(** The script of a sequence is the script of its first part followed
    by that of the rest. *)
Ltac script_eq := first [reflexivity | symmetry; apply List.app_assoc].

Ltac mock_step :=
  first
    [ eapply (performs_seq _ view_app); [apply chunk_seen| |script_eq]
    | eapply (performs_seq _ view_app);
        [apply delay_passes; discriminate| |script_eq] ].

Lemma stream_words_all abort_at words : ∀ content k,
  (∀ j, abort_at = Some j → ¬ (k ≤ j < k + length words)%nat) →
  does (stream_words config abort_at now words content k)
    (concat (map beat (imap (word_chunk k) (running_text words content))))
    (inl tt) Inv.
Proof.
  induction words as [|w words IH]; intros content k Hj.
  { apply (performs_ret view view_nil). }
  cbn [stream_words running_text imap map concat].
  rewrite Nat.add_0_r.
  eapply (performs_seq _ view_app); [apply chunk_seen| |script_eq].
  eapply (performs_seq _ view_app);
    [apply delay_passes; intros H; apply (Hj k H); simpl; lia| |script_eq].
  erewrite imap_ext; [apply IH|].
  - intros j H. specialize (Hj j H). simpl in Hj. lia.
  - intros i x _. simpl. f_equal. f_equal. lia.
Qed.

Lemma stream_words_cut words : ∀ content k j,
  (k ≤ j < k + length words)%nat →
  does (stream_words config (Some j) now words content k)
    (concat (map beat (take (S (j - k))
                         (imap (word_chunk k) (running_text words content)))))
    (inr AbortError) Inv.
Proof.
  induction words as [|w words IH]; intros content k j Hj.
  { simpl in Hj. lia. }
  cbn [stream_words running_text imap take map concat].
  rewrite Nat.add_0_r.
  destruct (decide (j = k)) as [->|Hne].
  - rewrite Nat.sub_diag, take_0. cbn [map concat]. rewrite app_nil_r.
    eapply (performs_seq _ view_app); [apply chunk_seen| |script_eq].
    apply (performs_bind_throw view). apply delay_aborts.
  - eapply (performs_seq _ view_app); [apply chunk_seen| |script_eq].
    eapply (performs_seq _ view_app);
      [apply delay_passes; congruence| |script_eq].
    replace (j - k)%nat with (S (j - S k)) by lia.
    erewrite imap_ext; [apply IH|].
    + simpl in Hj. lia.
    + intros i x _. simpl. f_equal. f_equal. lia.
Qed.

Lemma zip_with_replicate (cs : list JSON) n d :
  (length cs ≤ n)%nat →
  zip_with pair_up cs (replicate n d) = map (λ c, pair_up c d) cs.
Proof.
  revert n. induction cs as [|c cs IH]; intros n Hn; [done|].
  destruct n as [|n]; simpl in *; [lia|]. rewrite IH; [done|lia].
Qed.

Variable complete_view : list V.
Variable Q : St → Prop.
Hypothesis complete_seen :
  performs view Inv (consumer (onComplete config tt)) complete_view (inl tt) Q.

Lemma mock_body_runs words :
  does (mock_body None words)
    (narrated now words view chunk_view (length (session_chunks now words))
     ++ view [OnComplete] ++ complete_view)
    (inl Completed) Q.
Proof.
  eassert (H : does (mock_body None words) _ (inl Completed) Q).
  { do 9 mock_step.
    eapply (performs_seq _ view_app);
      [apply stream_words_all; by intros j [=]| |script_eq].
    eapply (performs_seq _ view_app);
      [apply (performs_emit view)| |script_eq].
    eapply (performs_seq _ view_app); [apply complete_seen| |script_eq].
    apply (performs_ret view view_nil). }
  intros s Hs. destruct (H s Hs) as (Ht & Ho & Hq). split; [|done].
  rewrite Ht. unfold narrated. rewrite firstn_all.
  unfold session_chunks, later_delays.
  cbn [app zip_with concat].
  rewrite zip_with_replicate by (by rewrite length_imap, running_text_length).
  rewrite app_nil_r, <- !List.app_assoc. reflexivity.
Qed.

Lemma mock_body_stops words j :
  (j < length (session_delays words))%nat →
  does (mock_body (Some j) words)
    (narrated now words view chunk_view j) (inr AbortError) Inv.
Proof.
  intros Hj. unfold session_delays in Hj. cbn [length] in Hj.
  rewrite later_delays_length in Hj.
  unfold narrated, session_chunks, later_delays.
  destruct j as [|[|[|[|[|j]]]]]; cbn [app take zip_with concat];
    rewrite ?app_nil_r.
  1-5: repeat mock_step; apply (performs_bind_throw view), delay_aborts.
  do 9 mock_step.
  apply (performs_bind_throw view).
  rewrite zip_with_replicate
    by (rewrite length_take, length_imap, running_text_length; lia).
  assert (Hcut := stream_words_cut words [] 5 (5 + j)).
  replace (5 + j - 5)%nat with j in Hcut by lia.
  apply Hcut. lia.
Qed.

Lemma mock_session_performs words :
  does (try_catch (mock_body None words) (on_failure config "Mock streaming aborted"))
    (narrated now words view chunk_view (length (session_chunks now words))
     ++ view [OnComplete] ++ complete_view)
    (inl Completed) Q.
Proof. apply (performs_try view), mock_body_runs. Qed.

Lemma mock_session_interrupted words j :
  (j < length (session_delays words))%nat →
  does (try_catch (mock_body (Some j) words)
          (on_failure config "Mock streaming aborted"))
    (narrated now words view chunk_view j
     ++ view [ConsoleLog "Mock streaming aborted"])
    (inl Cancelled) Inv.
Proof.
  intros Hj. eapply (performs_catch view view_app).
  - by apply mock_body_stops.
  - by intros s Hs.
Qed.

End Narration.

(** *** The events of the service itself *)

Lemma call_onChunk_does c :
  total (onChunk config c) →
  performs own_events any_state (call_onChunk config c) [OnChunk c] (inl tt) any_state.
Proof.
  intros Htot s _. unfold call_onChunk, consumer.
  rewrite run_bind. simpl.
  split; [by rewrite own_events_consumer|]. split; [|done].
  specialize (Htot s). unfold returned in Htot.
  by destruct (outcome (onChunk config c s)) as [[]|].
Qed.

Lemma onComplete_does :
  total (onComplete config tt) →
  performs own_events any_state (consumer (onComplete config tt)) [] (inl tt) any_state.
Proof.
  intros Hcomplete s' _. unfold consumer, lift. simpl.
  split; [apply own_events_consumer|]. split; [|done].
  specialize (Hcomplete s'). unfold returned in Hcomplete.
  by destruct (outcome (onComplete config tt s')) as [[]|].
Qed.

Lemma narrated_own words j :
  narrated now words own_events (λ c, [OnChunk (X := X) c]) j =
  session_script now words j.
Proof. reflexivity. Qed.

Lemma script_chunks (cs : list JSON) (ds : list Z) :
  (length cs ≤ length ds)%nat →
  let script := concat (zip_with (λ c d, [OnChunk (X := X) c; SetTimeout d]) cs ds) in
  chunks_of script = cs
  ∧ timeouts_of script = take (length cs) ds
  ∧ errors_of script = []
  ∧ OnComplete ∉ script.
Proof.
  revert ds. induction cs as [|c cs IH]; intros ds Hlen.
  { repeat split; try done. apply not_elem_of_nil. }
  destruct ds as [|d ds]; simpl in *; [lia|].
  destruct (IH ds) as (H1 & H2 & H3 & H4); [lia|].
  rewrite H1, H2, H3. repeat split; try done.
  intros [?|[?|?]%elem_of_cons]%elem_of_cons; done.
Qed.

Lemma projections_timer ms t :
  chunks_of (SetTimeout ms :: t) = chunks_of t
  ∧ timeouts_of (SetTimeout ms :: t) = ms :: timeouts_of t
  ∧ errors_of (SetTimeout ms :: t) = errors_of t.
Proof. done. Qed.

(** What the projections of a script are. *)
Lemma session_script_projections words j :
  (j ≤ length (session_chunks now words))%nat →
  chunks_of (session_script (X := X) now words j) = take j (session_chunks now words)
  ∧ timeouts_of (session_script (X := X) now words j) = take (S j) (session_delays words)
  ∧ errors_of (session_script (X := X) now words j) = []
  ∧ OnComplete ∉ session_script (X := X) now words j.
Proof.
  intros Hj. unfold session_script, session_delays.
  assert (Hfit : (length (take j (session_chunks now words))
                  ≤ length (later_delays words))%nat).
  { rewrite length_take, later_delays_length.
    rewrite session_chunks_length in Hj. lia. }
  destruct (script_chunks _ _ Hfit) as (H1 & H2 & H3 & H4).
  match goal with
  | |- context [SetTimeout 500 :: ?t] =>
      destruct (projections_timer 500 t) as (E1 & E2 & E3)
  end.
  rewrite E1, E2, E3, H1, H2, H3, length_take.
  rewrite (Nat.min_l _ _ Hj).
  split; [reflexivity|]. split; [reflexivity|]. split; [reflexivity|].
  intros [Heq|Hin]%elem_of_cons; [discriminate Heq|exact (H4 Hin)].
Qed.

Lemma join_split sep (s : jsstring) :
  concat (map (λ w, w ++ [sep]) (split sep s)) = s ++ [sep].
Proof.
  induction s as [|c s IH]; [done|]. simpl.
  destruct (N.eqb_spec c sep) as [->|Hc]; simpl; [by rewrite IH|].
  destruct (split sep s) as [|l ls]; simpl in *; [|by rewrite <- IH].
  by destruct s.
Qed.

Lemma running_text_last words content :
  words ≠ [] →
  last (running_text words content) =
  Some (content ++ concat (map (λ w, w ++ [SPACE]) words)).
Proof.
  revert content. induction words as [|w words IH]; intros content Hne; [done|].
  destruct words as [|w' words].
  - simpl. by rewrite app_nil_r.
  - change (running_text (w :: w' :: words) content)
      with ((content ++ w ++ [SPACE])
            :: running_text (w' :: words) (content ++ w ++ [SPACE])).
    rewrite last_cons_nonempty by done.
    rewrite IH by done. cbn [map concat]. by rewrite <- !app_assoc.
Qed.

Lemma errors_of_app t1 t2 : errors_of (t1 ++ t2) = errors_of t1 ++ errors_of t2.
Proof. apply omap_app. Qed.

Lemma projections_last t ev :
  match ev with OnComplete | ConsoleLog _ => True | _ => False end →
  chunks_of (t ++ [ev]) = chunks_of t
  ∧ timeouts_of (t ++ [ev]) = timeouts_of t
  ∧ errors_of (t ++ [ev]) = errors_of t.
Proof.
  intros Hev. unfold chunks_of, timeouts_of, errors_of. rewrite !omap_app.
  destruct ev; try done; simpl; by rewrite !app_nil_r.
Qed.

Lemma mock_session_runs words s :
  (∀ c, total (onChunk config c)) →
  total (onComplete config tt) →
  let r := try_catch (mock_body None words)
             (on_failure config "Mock streaming aborted") s in
  outcome r = inl Completed
  ∧ own_events (trace r) =
      session_script now words (length (session_chunks now words)) ++ [OnComplete]
  ∧ chunks_of (trace r) = session_chunks now words
  ∧ timeouts_of (trace r) = session_delays words
  ∧ errors_of (trace r) = [].
Proof.
  intros Hchunk Hcomplete r.
  destruct (mock_session_performs own_events eq_refl own_events_app any_state
              (λ c, [OnChunk c]) (λ c, call_onChunk_does c (Hchunk c))
              [] any_state (onComplete_does Hcomplete) words s I) as (Ht & Ho & _).
  fold r in Ht, Ho. clearbody r. rewrite narrated_own in Ht.
  change (own_events [OnComplete] ++ []) with [OnComplete (X := X)] in Ht.
  destruct (session_script_projections words
              (length (session_chunks now words)) (le_n _))
    as (H1 & H2 & H3 & _).
  destruct (projections_last
              (session_script now words (length (session_chunks now words)))
              OnComplete I) as (E1 & E2 & E3).
  split; [exact Ho|]. split; [exact Ht|].
  split; [|split].
  - by rewrite <- chunks_of_own, Ht, E1, H1, firstn_all.
  - rewrite <- timeouts_of_own, Ht, E2, H2. apply take_ge.
    unfold session_delays. cbn [length].
    rewrite later_delays_length, session_chunks_length. lia.
  - by rewrite <- errors_of_own, Ht, E3, H3.
Qed.

Lemma mock_session_stops words j s :
  (∀ c, total (onChunk config c)) →
  (j < length (session_delays words))%nat →
  let r := try_catch (mock_body (Some j) words)
             (on_failure config "Mock streaming aborted") s in
  outcome r = inl Cancelled
  ∧ own_events (trace r) =
      session_script now words j ++ [ConsoleLog "Mock streaming aborted"]
  ∧ chunks_of (trace r) = take j (session_chunks now words)
  ∧ timeouts_of (trace r) = take (S j) (session_delays words)
  ∧ errors_of (trace r) = []
  ∧ OnComplete ∉ trace r.
Proof.
  intros Hchunk Hj r.
  destruct (mock_session_interrupted own_events own_events_app any_state
              (λ c, [OnChunk c]) (λ c, call_onChunk_does c (Hchunk c))
              words j Hj s I) as (Ht & Ho & _).
  fold r in Ht, Ho. clearbody r. rewrite narrated_own in Ht.
  change (own_events [ConsoleLog ?m]) with [ConsoleLog (X := X) m] in Ht.
  assert (Hle : (j ≤ length (session_chunks now words))%nat).
  { unfold session_delays in Hj. cbn [length] in Hj.
    rewrite later_delays_length in Hj. rewrite session_chunks_length. lia. }
  destruct (session_script_projections words j Hle) as (H1 & H2 & H3 & H4).
  destruct (projections_last (session_script now words j)
              (ConsoleLog "Mock streaming aborted") I) as (E1 & E2 & E3).
  split; [exact Ho|]. split; [exact Ht|].
  split; [|split; [|split]].
  - by rewrite <- chunks_of_own, Ht, E1, H1.
  - by rewrite <- timeouts_of_own, Ht, E2, H2.
  - by rewrite <- errors_of_own, Ht, E3, H3.
  - intros Hin.
    assert (Hown : OnComplete ∈ own_events (trace r)).
    { by apply own_events_elem_of. }
    rewrite Ht in Hown. apply elem_of_app in Hown as [Hown|Hown]; [by apply H4|].
    apply list_elem_of_singleton in Hown. discriminate Hown.
Qed.

(** What is said of [mockStreaming], in terms of the words of the
    response. *)
Lemma mock_chunks_words :
  mock_chunks config now = session_chunks now (mock_words config).
Proof. reflexivity. Qed.

Lemma mock_delays_words : mock_delays config = session_delays (mock_words config).
Proof. reflexivity. Qed.

Lemma mock_script_words j :
  mock_script config now j = session_script now (mock_words config) j.
Proof. reflexivity. Qed.

Lemma mock_narration_words {V} (view : list (StreamEvent X) → list V) chunk_view j :
  mock_narration config now view chunk_view j =
  narrated now (mock_words config) view chunk_view j.
Proof. reflexivity. Qed.

(** The same of [mockStreaming] itself. *)
Lemma mockStreaming_performs {V} (view : list (StreamEvent X) → list V)
    (Inv : St → Prop) chunk_view complete_view (Q : St → Prop) :
  view [] = [] →
  (∀ a b, view (a ++ b) = view a ++ view b) →
  (∀ c, performs view Inv (call_onChunk config c) (chunk_view c) (inl tt) Inv) →
  performs view Inv (consumer (onComplete config tt)) complete_view (inl tt) Q →
  performs view Inv (mockStreaming config None now)
    (mock_narration config now view chunk_view (length (mock_chunks config now))
     ++ view [OnComplete] ++ complete_view)
    (inl Completed) Q.
Proof.
  intros Hnil Happ Hchunk Hcomplete s Hs.
  pose proof (mock_session_performs view Hnil Happ Inv chunk_view Hchunk
                complete_view Q Hcomplete (mock_words config) s Hs) as H.
  rewrite mock_narration_words, mock_chunks_words.
  unfold mockStreaming. cbv beta zeta. cbv beta zeta in H. exact H.
Qed.

Lemma mockStreaming_interrupted {V} (view : list (StreamEvent X) → list V)
    (Inv : St → Prop) chunk_view j :
  (∀ a b, view (a ++ b) = view a ++ view b) →
  (∀ c, performs view Inv (call_onChunk config c) (chunk_view c) (inl tt) Inv) →
  (j < length (mock_delays config))%nat →
  performs view Inv (mockStreaming config (Some j) now)
    (mock_narration config now view chunk_view j
     ++ view [ConsoleLog "Mock streaming aborted"])
    (inl Cancelled) Inv.
Proof.
  intros Happ Hchunk Hj s Hs. rewrite mock_delays_words in Hj.
  pose proof (mock_session_interrupted view Happ Inv chunk_view Hchunk
                (mock_words config) j Hj s Hs) as H.
  rewrite mock_narration_words.
  unfold mockStreaming. cbv beta zeta. cbv beta zeta in H. exact H.
Qed.

(** What [mockStreaming] does when its callbacks return. *)
Lemma mockStreaming_runs s :
  (∀ c, total (onChunk config c)) →
  total (onComplete config tt) →
  let r := mockStreaming config None now s in
  outcome r = inl Completed
  ∧ own_events (trace r) =
      mock_script config now (length (mock_chunks config now)) ++ [OnComplete]
  ∧ chunks_of (trace r) = mock_chunks config now
  ∧ timeouts_of (trace r) = mock_delays config
  ∧ errors_of (trace r) = [].
Proof.
  intros Hchunk Hcomplete.
  pose proof (mock_session_runs (mock_words config) s Hchunk Hcomplete) as H.
  rewrite mock_script_words, !mock_chunks_words, mock_delays_words.
  unfold mockStreaming.
  cbv beta zeta. cbv beta zeta in H. exact H.
Qed.

Lemma mockStreaming_stops j s :
  (∀ c, total (onChunk config c)) →
  (j < length (mock_delays config))%nat →
  let r := mockStreaming config (Some j) now s in
  outcome r = inl Cancelled
  ∧ own_events (trace r) =
      mock_script config now j ++ [ConsoleLog "Mock streaming aborted"]
  ∧ chunks_of (trace r) = take j (mock_chunks config now)
  ∧ timeouts_of (trace r) = take (S j) (mock_delays config)
  ∧ errors_of (trace r) = []
  ∧ OnComplete ∉ trace r.
Proof.
  intros Hchunk Hj. rewrite mock_delays_words in Hj.
  pose proof (mock_session_stops (mock_words config) j s Hchunk Hj) as H.
  rewrite mock_script_words, !mock_chunks_words, mock_delays_words.
  unfold mockStreaming. cbv beta zeta. cbv beta zeta in H.
  exact H.
Qed.

(** What a view that shows the consumer's events shows of a session. *)
Lemma narrated_consumer (chunk_view : JSON → list X) words j :
  (j ≤ length (session_chunks now words))%nat →
  narrated now words consumer_events chunk_view j =
  concat (map chunk_view (take j (session_chunks now words))).
Proof.
  intros Hj. unfold narrated.
  assert (Hfit : (length (take j (session_chunks now words))
                  ≤ length (later_delays words))%nat).
  { rewrite length_take, later_delays_length.
    rewrite session_chunks_length in Hj. lia. }
  revert Hfit. generalize (take j (session_chunks now words)) as cs.
  generalize (later_delays words) as ds.
  intros ds cs. revert ds. induction cs as [|c cs IH]; intros ds Hfit; [done|].
  destruct ds as [|d ds]; simpl in *; [lia|].
  rewrite app_nil_r. f_equal. apply (IH ds). lia.
Qed.

Lemma mock_narration_consumer (chunk_view : JSON → list X) j :
  (j ≤ length (mock_chunks config now))%nat →
  mock_narration config now consumer_events chunk_view j =
  concat (map chunk_view (take j (mock_chunks config now))).
Proof.
  rewrite mock_narration_words, mock_chunks_words. apply narrated_consumer.
Qed.

Lemma mock_delays_length :
  length (mock_delays config) = S (length (mock_chunks config now)).
Proof.
  rewrite mock_delays_words, mock_chunks_words. unfold session_delays.
  cbn [length]. by rewrite later_delays_length, session_chunks_length.
Qed.

(** X10.  A mock session that is not aborted, with callbacks that return,
    first waits, then hands over each of its chunks followed by the next
    delay, and completes: the chunks are the two status lines, the start
    and the result of the tool, and then one chunk per word of the
    response that carries the whole response so far, the last one
    carrying the response followed by a space.  The error callback is not
    invoked. *)
Theorem mock_session_completes s :
  (∀ c, total (onChunk config c)) →
  total (onComplete config tt) →
  let r := mockStreaming config None now s in
  outcome r = inl Completed
  ∧ own_events (trace r) =
      mock_script config now (length (mock_chunks config now)) ++ [OnComplete]
  ∧ chunks_of (trace r) = mock_chunks config now
  ∧ timeouts_of (trace r) = mock_delays config
  ∧ errors_of (trace r) = []
  ∧ last (running_text (mock_words config) []) =
      Some (mock_response config ++ [SPACE]).
Proof.
  intros Hchunk Hcomplete.
  destruct (mockStreaming_runs s Hchunk Hcomplete) as (H1 & H2 & H3 & H4 & H5).
  split; [exact H1|]. split; [exact H2|]. split; [exact H3|].
  split; [exact H4|]. split; [exact H5|].
  rewrite running_text_last by apply split_nonempty.
  by rewrite join_split.
Qed.

(** X11.  A mock session whose signal is aborted while its delay [j] is
    pending ends there as cancelled: the chunks handed over are the
    first [j] chunks of a whole session, the timers set are its first
    [j + 1] delays, and neither the completion callback nor the error
    callback is invoked. *)
Theorem mock_session_cancelled j s :
  (∀ c, total (onChunk config c)) →
  (j < length (mock_delays config))%nat →
  let r := mockStreaming config (Some j) now s in
  outcome r = inl Cancelled
  ∧ own_events (trace r) =
      mock_script config now j ++ [ConsoleLog "Mock streaming aborted"]
  ∧ chunks_of (trace r) = take j (mock_chunks config now)
  ∧ timeouts_of (trace r) = take (S j) (mock_delays config)
  ∧ errors_of (trace r) = []
  ∧ OnComplete ∉ trace r.
Proof.
  intros Hchunk Hj. exact (mockStreaming_stops j s Hchunk Hj).
Qed.

End MockFacts.
(** ** Mock sessions on the example inputs *)

Section MockExamples.
Import Streaming StreamingSpec MockSpec Examples.

Lemma mock_session_completes_witness :
  let r := mockStreaming quiet None clock tt in
  (∀ c, total (onChunk quiet c))
  ∧ total (onComplete quiet tt)
  ∧ outcome r = inl Completed
  ∧ chunks_of (trace r) = mock_chunks quiet clock
  ∧ timeouts_of (trace r) = mock_delays quiet
  ∧ errors_of (trace r) = [].
Proof.
  intros r.
  assert (H1 : ∀ c, total (onChunk quiet c)) by (intros c []; reflexivity).
  assert (H2 : total (onComplete quiet tt)) by (intros []; reflexivity).
  destruct (mock_session_completes quiet clock tt H1 H2) as (Ho & _ & Hc & Ht & He & _).
  split; [exact H1|]. split; [exact H2|]. split; [exact Ho|].
  split; [exact Hc|]. split; [exact Ht|exact He].
Defined.

Lemma mock_session_cancelled_witness :
  let r := mockStreaming quiet (Some 2%nat) clock tt in
  (2 < length (mock_delays quiet))%nat
  ∧ outcome r = inl Cancelled
  ∧ chunks_of (trace r) =
      [text_chunk "streaming" (lit "Analyzing your question") (clock 0%nat);
       text_chunk "streaming" (lit "Searching for relevant information") (clock 1%nat)]
  ∧ timeouts_of (trace r) = [500; 800; 1000]
  ∧ (OnComplete ∉ trace r).
Proof.
  intros r.
  assert (H1 : ∀ c, total (onChunk quiet c)) by (intros c []; reflexivity).
  assert (H2 : (2 < length (mock_delays quiet))%nat) by (vm_compute; lia).
  destruct (mock_session_cancelled quiet clock 2 tt H1 H2) as (Ho & _ & Hc & Ht & _ & Hn).
  split; [exact H2|]. split; [exact Ho|].
  split; [etransitivity; [exact Hc|reflexivity]|].
  split; [etransitivity; [exact Ht|reflexivity]|exact Hn].
Defined.

End MockExamples.

(** ** Sessions that fail, and reconnection *)

Section SessionFacts.
Import Streaming StreamingSpec FailureSpec.
Context {X St : Type}.
Variable P : Platform.
Variable config : StreamingConfig X St.
Implicit Types s : St.

Local Abbreviation body := (λ net : FetchOutcome,
  emit (Fetch (endpoint config) (requestBody config)) ;;
  match net with
  | FetchRejects e => throw e
  | FetchResponds status body =>
      if negb (response_ok status) then throw (http_error status)
      else match body with
           | None => throw (JsError "Error" "Response body is not readable")
           | Some b =>
               read_loop P config (decoder_init P) [] (fragments b) (ending b) ;;
               ret Completed
           end
  end).

Lemma errors_of_consumer (t : list X) : errors_of (map Consumer t) = [].
Proof. by induction t. Qed.

Lemma try_catch_returned {A} (m : M (StreamEvent X) St A) h s :
  returned (m s) = true → try_catch m h s = m s.
Proof.
  intros H. rewrite run_try_catch. unfold returned in H.
  by destruct (outcome (m s)).
Qed.

Lemma read_loop_total frags : ∀ d buffer,
  total (onComplete config tt) →
  total (read_loop P config d buffer frags ReadDone).
Proof.
  induction frags as [|value rest IH]; intros d buffer Hc; simpl.
  - apply total_bind; [apply total_emit|]. intros _ s. apply (Hc s).
  - destruct (decode P d value) as [d' text].
    apply total_bind; [apply for_each_lines_total|]. intros _. by apply IH.
Qed.

(** X12.  Nothing that [onChunk] or [onThreadIdChange] throws ends a
    session or reaches [onError]: when the stream ends normally and
    [onComplete] returns, the session completes, every chunk of a
    complete line has been offered to [onChunk], and no error is
    reported; what the callback threw is logged as a warning about the
    line. *)
Theorem callbacks_cannot_fail_session frags s :
  total (onComplete config tt) →
  let r := startStreaming P config (streams frags ReadDone) s in
  outcome r = inl Completed
  ∧ chunks_of (trace r) = payloads P (decoded P (concat frags))
  ∧ errors_of (trace r) = []
  ∧ (∀ line chunk e s',
       is_empty (trim line) = false →
       JSON_parse P (strip_data_prefix line) = inl chunk →
       outcome (onChunk config chunk s') = inr e →
       process_line P config line s' =
       Result (OnChunk chunk :: map Consumer (trace (onChunk config chunk s'))
               ++ [ConsoleWarn line e])
              (final (onChunk config chunk s')) (inl tt)).
Proof.
  intros Hc r.
  assert (Hbody : total (body (streams frags ReadDone))).
  { apply total_bind; [apply total_emit|]. intros _. simpl.
    apply total_bind; [by apply read_loop_total|]. intros _. apply total_ret. }
  assert (Hr : r = body (streams frags ReadDone) s).
  { subst r. unfold startStreaming. by rewrite try_catch_returned by apply Hbody. }
  split; [|split; [apply startStreaming_chunks|split]].
  - rewrite Hr. cbv beta. rewrite run_bind. simpl. rewrite run_bind.
    pose proof (read_loop_total frags (decoder_init P) [] Hc s) as Hl.
    unfold returned in Hl.
    by destruct (outcome (read_loop P config (decoder_init P) [] frags ReadDone s))
      as [[]|].
  - rewrite Hr. apply errors_of_none, session_body_silent.
  - intros line chunk e s' Hline Hparse Hthrow. unfold process_line.
    rewrite Hline, run_try_catch, Hparse, !run_bind. simpl.
    unfold consumer, lift at 1. simpl. rewrite Hthrow. reflexivity.
Qed.

(** *** Failures of the transport *)

Local Abbreviation incomplete := (λ ev : StreamEvent X, ev ≠ OnComplete).

Lemma process_line_incomplete line : emits_only incomplete (process_line P config line).
Proof.
  unfold process_line. destruct (is_empty (trim line)); [apply emits_ret|].
  apply emits_try_catch; [|intros e; by apply emits_emit].
  destruct (JSON_parse P (strip_data_prefix line)) as [chunk|e]; [|apply emits_throw].
  apply emits_bind; [by apply emits_emit|]. intros _.
  apply emits_bind; [by apply emits_lift|]. intros _.
  destruct (get_prop chunk (lit "type")) as [ty|]; [|apply emits_throw].
  destruct (is_str ty "thread_id"); [|apply emits_ret].
  destruct (onThreadIdChange config) as [cb|]; [|apply emits_ret].
  destruct (get_prop chunk (lit "threadId")); [|apply emits_throw].
  apply emits_bind; [by apply emits_emit|]. intros _. by apply emits_lift.
Qed.

(** A loop whose [read] rejects throws what it rejects with, after the
    lines received. *)
Lemma read_loop_rejects frags e s :
  outcome (read_loop P config (decoder_init P) [] frags (ReadRejects e) s) = inr e
  ∧ Forall incomplete
      (trace (read_loop P config (decoder_init P) [] frags (ReadRejects e) s)).
Proof.
  rewrite read_loop_lines by done. rewrite run_bind.
  rewrite (total_outcome _ s (for_each_lines_total P config _)). simpl.
  split; [done|]. rewrite app_nil_r.
  apply emits_for_each, process_line_incomplete.
Qed.

Lemma body_fails net e s :
  fails_with net e →
  outcome (body net s) = inr e ∧ Forall incomplete (trace (body net s)).
Proof.
  intros Hnet. cbv beta. rewrite run_bind. simpl.
  destruct Hnet as [e|status b Hs|status Hs|status frags e Hs]; simpl.
  - split; [done|]. by repeat constructor.
  - rewrite Hs. simpl. split; [done|]. by repeat constructor.
  - rewrite Hs. simpl. split; [done|]. by repeat constructor.
  - rewrite Hs. simpl. rewrite run_bind.
    destruct (read_loop_rejects frags e s) as [-> Hall]. simpl.
    split; [done|]. by constructor.
Qed.

(** What the [catch] of a session does with a failure that is not an
    abort. *)
Lemma catch_reports (m : M (StreamEvent X) St Termination) msg e s :
  outcome (m s) = inr e →
  is_AbortError e = false →
  errors_of (trace (m s)) = [] →
  let r := try_catch m (on_failure config msg) s in
  errors_of (trace r) = [asError e]
  ∧ (Forall incomplete (trace (m s)) → OnComplete ∉ trace r)
  ∧ ((∀ x, total (onError config x)) → outcome r = inl Failed).
Proof.
  intros Hout Habort Hsilent r.
  assert (Hr : r = after (trace (m s)) (on_failure config msg e (final (m s)))).
  { subst r. by rewrite run_try_catch, Hout. }
  clearbody r. clear Hout.
  remember (trace (m s)) as t0 eqn:Et0. clear Et0.
  remember (final (m s)) as s1 eqn:Es1. clear Es1.
  unfold on_failure in Hr. rewrite Habort in Hr.
  rewrite !run_bind in Hr. unfold consumer, lift in Hr. simpl in Hr.
  remember (onError config (asError e) s1) as cb eqn:Ecb.
  assert (Htr : trace r = t0 ++ OnError (asError e) :: map Consumer (trace cb)).
  { rewrite Hr. destruct (outcome cb); simpl; by rewrite ?app_nil_r. }
  split; [|split].
  - rewrite Htr, errors_of_app, Hsilent. simpl. by rewrite errors_of_consumer.
  - rewrite Htr. intros Hinc Hin.
    assert (Hall : Forall incomplete
              (t0 ++ OnError (asError e) :: map Consumer (trace cb))).
    { apply Forall_app. split; [exact Hinc|]. constructor; [done|].
      apply Forall_fmap, Forall_true. by intros x. }
    rewrite Forall_forall in Hall. by apply (Hall OnComplete).
  - intros Htot. rewrite Hr.
    specialize (Htot (asError e) s1). unfold returned in Htot. rewrite <- Ecb in Htot.
    by destruct (outcome cb).
Qed.

(** X13.  When the transport fails with something that is not an abort,
    the session reports it to [onError] exactly once, as an [Error],
    after the chunks of the complete lines that were received, and never
    invokes [onComplete]; the body of a response whose status is not a
    success is not read.  The session ends as failed when [onError]
    returns. *)
Theorem transport_failure_is_reported net e s :
  fails_with net e →
  is_AbortError e = false →
  let r := startStreaming P config net s in
  chunks_of (trace r) = payloads P (decoded P (concat (received net)))
  ∧ errors_of (trace r) = [asError e]
  ∧ (OnComplete ∉ trace r)
  ∧ ((∀ x, total (onError config x)) → outcome r = inl Failed).
Proof.
  intros Hnet Habort r.
  assert (Hchunks : chunks_of (trace r) =
                    payloads P (decoded P (concat (received net)))).
  { subst r. destruct Hnet as [e|status b Hs|status Hs|status frags e Hs].
    + unfold startStreaming.
      rewrite chunks_try_catch by apply on_failure_not_chunk. done.
    + unfold startStreaming, received.
      rewrite chunks_try_catch by apply on_failure_not_chunk.
      rewrite run_bind. simpl. rewrite Hs. simpl. by destruct b.
    + unfold startStreaming, received.
      rewrite chunks_try_catch by apply on_failure_not_chunk.
      rewrite run_bind. simpl. by rewrite Hs.
    + rewrite startStreaming_responds by done.
      unfold received. rewrite Hs. apply startStreaming_chunks. }
  split; [exact Hchunks|].
  destruct (body_fails net e s Hnet) as [Hout Hinc].
  destruct (catch_reports (body net) "Stream aborted by user" e s Hout Habort)
    as (H1 & H2 & H3); [apply errors_of_none, session_body_silent|].
  split; [exact H1|]. split; [exact (H2 Hinc)|exact H3].
Qed.

(** *** The last line *)

Lemma split_single sep (x : jsstring) : sep ∉ x → split sep x = [x].
Proof.
  induction x as [|c x IH]; intros Hx; [done|].
  apply not_elem_of_cons in Hx as [Hc Hx]. simpl.
  destruct (N.eqb_spec c sep); [congruence|]. by rewrite IH.
Qed.

Lemma split_single_inv sep (x : jsstring) : split sep x = [x] → sep ∉ x.
Proof.
  induction x as [|c x IH]; [intros _; apply not_elem_of_nil|]. simpl.
  destruct (N.eqb_spec c sep) as [->|Hc].
  - intros [=].
  - destruct (split sep x) as [|l ls] eqn:Hs;
      [by destruct (split_nonempty sep x)|].
    intros [= -> ->]. apply not_elem_of_cons. split; [congruence|]. by apply IH.
Qed.

Lemma complete_lines_tail text tail :
  LF ∉ tail → complete_lines (text ++ tail) = complete_lines text.
Proof.
  intros Htail. rewrite complete_lines_app.
  assert (Hp : LF ∉ partial_line text).
  { apply split_single_inv. unfold partial_line, pop. simpl. apply split_last. }
  unfold complete_lines at 2. unfold pop. simpl.
  rewrite split_single; [by rewrite app_nil_r|].
  rewrite elem_of_app. tauto.
Qed.

(** X14.  What follows the last line feed of the input is never parsed:
    a record that is not terminated by a line feed is not delivered,
    even when the stream ends there. *)
Theorem unterminated_tail_is_dropped frags fin text tail s :
  decoded P (concat frags) = text ++ tail →
  LF ∉ tail →
  chunks_of (trace (startStreaming P config (streams frags fin) s)) =
  payloads P text.
Proof.
  intros Hdec Htail. rewrite startStreaming_chunks, Hdec.
  unfold payloads. by rewrite complete_lines_tail.
Qed.

(** *** Reconnection *)

Local Abbreviation not_request :=
  (λ ev : StreamEvent X, match ev with Fetch _ _ => False | _ => True end).

Lemma requests_of_none (t : list (StreamEvent X)) :
  Forall not_request t → requests_of t = 0%nat.
Proof.
  unfold requests_of. induction 1 as [|ev t Hev _ IH]; [done|].
  by destruct ev.
Qed.

Lemma requests_of_app (t1 t2 : list (StreamEvent X)) :
  requests_of (t1 ++ t2) = (requests_of t1 + requests_of t2)%nat.
Proof. unfold requests_of. by rewrite omap_app, length_app. Qed.

(** An attempt sends one request. *)
Lemma startStreaming_one_request net s :
  requests_of (trace (startStreaming P config net s)) = 1%nat.
Proof.
  unfold startStreaming.
  set (rest := match net with FetchRejects e => throw e | _ => _ end).
  assert (Hrest : emits_only not_request rest).
  { subst rest. destruct net as [e|status b]; [apply emits_throw|].
    destruct (negb (response_ok status)); [apply emits_throw|].
    destruct b as [b|]; [|apply emits_throw].
    apply emits_bind; [|intros _; apply emits_ret].
    by apply read_loop_emits. }
  assert (Hcatch : ∀ e, emits_only not_request
                          (on_failure config "Stream aborted by user" e)).
  { intros e. unfold on_failure, consumer.
    destruct (is_AbortError e); eauto 8 with emits. }
  rewrite run_try_catch, run_bind. simpl.
  destruct (outcome (rest s)) as [a|e] eqn:Hr; simpl.
  - unfold requests_of. simpl. f_equal. apply (requests_of_none _ (Hrest s)).
  - rewrite app_comm_cons, requests_of_app.
    rewrite (requests_of_none _ (Hcatch _ _)).
    unfold requests_of. simpl. rewrite Nat.add_0_r. f_equal.
    apply (requests_of_none _ (Hrest s)).
Qed.

Lemma startStreaming_total net :
  (∀ x, total (onError config x)) → total (startStreaming P config net).
Proof.
  intros Htot. apply total_try_catch. intros e. unfold on_failure.
  destruct (is_AbortError e); [auto with total|].
  apply total_bind; [apply total_emit|]. intros _.
  apply total_bind; [|intros _; apply total_ret].
  intros s. apply (Htot (asError e) s).
Qed.

(** X15.  When [onError] returns, an attempt of [startStreaming] returns
    whatever the transport does, having reported its failure itself; so
    [reconnectWithBackoff], given at least one attempt, makes exactly one
    request and never waits or reconnects. *)
Theorem reconnect_makes_one_attempt options net s :
  (∀ x, total (onError config x)) →
  (0 < opt_maxRetries options)%nat →
  let r0 := startStreaming P config (net 0%nat) s in
  let r := reconnectWithBackoff P config options net s in
  returned r0 = true
  ∧ r = Result (trace r0) (final r0) (inl tt)
  ∧ requests_of (trace r) = 1%nat
  ∧ timeouts_of (trace r) = [].
Proof.
  intros Htot Hmax r0 r.
  pose proof (startStreaming_total (net 0%nat) Htot s) as Hret. fold r0 in Hret.
  assert (Hr : r = Result (trace r0) (final r0) (inl tt)).
  { subst r. unfold reconnectWithBackoff.
    destruct (opt_maxRetries options) as [|n] eqn:Hn; [lia|].
    cbn [seq reconnect_loop]. unfold returned in Hret.
    destruct (outcome r0) as [t|] eqn:Ho; [|done].
    rewrite run_bind, (reconnect_round_returns P config options net 0 _ s t Ho).
    simpl. unfold after, ret; simpl. by rewrite app_nil_r. }
  split; [exact Hret|]. split; [exact Hr|]. rewrite Hr. simpl. split.
  - apply startStreaming_one_request.
  - apply timeouts_of_none, startStreaming_no_timer.
Qed.

Local Abbreviation schedule := (λ options n delay,
  backoff_delays n delay (opt_multiplier options) (opt_maxDelay options)).

Lemma reconnect_loop_schedule options net m : ∀ j delay lastError s,
  (j + m = opt_maxRetries options)%nat →
  let r := reconnect_loop P config options net (seq j m) delay lastError s in
  timeouts_of (trace r) `prefix_of` schedule options (m - 1)%nat delay
  ∧ (requests_of (trace r) ≤ m)%nat
  ∧ (0 < m → requests_of (trace r) = S (length (timeouts_of (trace r))))%nat.
Proof.
  induction m as [|m IH]; intros j delay lastError s Hj r; subst r.
  { cbn [seq reconnect_loop Nat.sub backoff_delays]. destruct lastError as [e|].
    - rewrite run_bind. simpl. unfold consumer, lift. simpl.
      assert (Hc : ∀ t : list X, timeouts_of (map Consumer t) = []
                    ∧ requests_of (map Consumer t) = 0%nat).
      { induction t as [|x t [IH1 IH2]]; [done|]. by split. }
      destruct (Hc (trace (onError config e s))) as [H1 H2].
      rewrite H1. change (requests_of (OnError e :: ?t)) with (requests_of t).
      rewrite H2. split; [apply prefix_nil|]. split; [lia|intros ?; lia].
    - split; [apply prefix_nil|]. split; [done|intros ?; lia]. }
  cbn [seq reconnect_loop]. rewrite run_bind.
  set (r0 := startStreaming P config (net j) s).
  pose proof (startStreaming_one_request (net j) s) as Hreq. fold r0 in Hreq.
  pose proof (timeouts_of_none _ (startStreaming_no_timer P config (net j) s)) as Htime.
  fold r0 in Htime.
  destruct (outcome r0) as [t|e] eqn:Ho.
  - rewrite (reconnect_round_returns P config options net j delay s t Ho).
    fold r0. simpl. rewrite app_nil_r, Htime, Hreq.
    split; [apply prefix_nil|]. split; [lia|done].
  - destruct (decide (S j < opt_maxRetries options)%nat) as [Hlt|Hlast].
    + rewrite (reconnect_round_rejects P config options net j delay s e Ho Hlt).
      fold r0. cbn [outcome trace final].
      destruct m as [|m]; [lia|].
      specialize (IH (S j) (Z.min (delay * opt_multiplier options) (opt_maxDelay options))
                    (Some (asError e)) (final r0) ltac:(lia)).
      cbv zeta in IH. destruct IH as (IH1 & IH2 & IH3).
      unfold after. cbn [trace].
      rewrite !timeouts_of_app, !requests_of_app, Htime, Hreq.
      change (requests_of [ConsoleLog _; SetTimeout _]) with 0%nat.
      change (timeouts_of [ConsoleLog _; SetTimeout ?d]) with [d]. cbn [app].
      replace (S (S m) - 1)%nat with (S m) by lia.
      replace (S m - 1)%nat with m in IH1 by lia. cbn [backoff_delays].
      split; [by apply prefix_cons|]. split; [lia|]. intros _.
      cbn [length]. rewrite IH3 by lia. lia.
    + rewrite (reconnect_round_last P config options net j delay s e Ho Hlast).
      fold r0. cbn [outcome trace final].
      assert (m = 0%nat) as -> by lia.
      specialize (IH (S j) delay (Some (asError e)) (final r0) ltac:(lia)).
      cbv zeta in IH. destruct IH as (IH1 & IH2 & IH3).
      unfold after. cbn [trace].
      rewrite !timeouts_of_app, !requests_of_app, Htime, Hreq.
      cbv beta in IH1. cbn [Nat.sub backoff_delays] in IH1.
      apply prefix_nil_inv in IH1. rewrite IH1.
      split; [apply prefix_nil|]. split; [lia|]. intros _. cbn [length app]. lia.
Qed.

(** X16.  Whatever the transport and the callbacks do,
    [reconnectWithBackoff] sends at most [maxRetries] requests, one more
    than it sets timers, and its delays follow the schedule that starts
    with [initialDelay] and multiplies by [multiplier] up to [maxDelay]:
    the timers it sets are a prefix of the first [maxRetries - 1] delays
    of that schedule. *)
Theorem reconnect_follows_schedule options net s :
  let r := reconnectWithBackoff P config options net s in
  timeouts_of (trace r)
    `prefix_of` backoff_delays (opt_maxRetries options - 1)
                  (opt_initialDelay options) (opt_multiplier options)
                  (opt_maxDelay options)
  ∧ (requests_of (trace r) ≤ opt_maxRetries options)%nat
  ∧ (0 < opt_maxRetries options →
     requests_of (trace r) = S (length (timeouts_of (trace r))))%nat.
Proof.
  apply (reconnect_loop_schedule options net (opt_maxRetries options) 0). lia.
Qed.

(** An attempt that rejects has reported one error. *)
Lemma startStreaming_rejected net s :
  returned (startStreaming P config net s) = false →
  length (errors_of (trace (startStreaming P config net s))) = 1%nat.
Proof.
  intros Hrej.
  destruct (outcome (body net s)) as [t|e] eqn:Hout.
  { exfalso. unfold startStreaming in Hrej.
    rewrite try_catch_returned in Hrej
      by (unfold returned; cbv beta in Hout; by rewrite Hout).
    unfold returned in Hrej. cbv beta in Hout. by rewrite Hout in Hrej. }
  destruct (is_AbortError e) eqn:Habort.
  { exfalso. unfold startStreaming, returned in Hrej.
    rewrite run_try_catch in Hrej. cbv beta in Hout. rewrite Hout in Hrej.
    unfold on_failure in Hrej. rewrite Habort in Hrej. discriminate Hrej. }
  destruct (catch_reports (body net) "Stream aborted by user" e s Hout Habort)
    as (H1 & _); [apply errors_of_none, session_body_silent|].
  unfold startStreaming. cbv beta zeta in H1. by rewrite H1.
Qed.

Lemma reconnect_loop_exhausted options net m : ∀ j delay lastError s,
  (j + m = opt_maxRetries options)%nat →
  (∀ k s', returned (startStreaming P config (net k) s') = false) →
  let r := reconnect_loop P config options net (seq j m) delay lastError s in
  timeouts_of (trace r) = schedule options (m - 1)%nat delay
  ∧ requests_of (trace r) = m
  ∧ length (errors_of (trace r)) =
      (m + match m, lastError with 0, None => 0 | _, _ => 1 end)%nat.
Proof.
  induction m as [|m IH]; intros j delay lastError s Hj Hrej r; subst r.
  { cbn [seq reconnect_loop Nat.sub backoff_delays]. destruct lastError as [e|].
    - rewrite run_bind. simpl. unfold consumer, lift. simpl.
      assert (Hc : ∀ t : list X, timeouts_of (map Consumer t) = []
                    ∧ requests_of (map Consumer t) = 0%nat).
      { induction t as [|x t [IH1 IH2]]; [done|]. by split. }
      destruct (Hc (trace (onError config e s))) as [H1 H2].
      rewrite H1. change (requests_of (OnError e :: ?t)) with (requests_of t).
      rewrite H2. change (errors_of (OnError e :: ?t)) with (e :: errors_of t).
      by rewrite errors_of_consumer.
    - done. }
  cbn [seq reconnect_loop]. rewrite run_bind.
  set (r0 := startStreaming P config (net j) s).
  pose proof (startStreaming_one_request (net j) s) as Hreq. fold r0 in Hreq.
  pose proof (timeouts_of_none _ (startStreaming_no_timer P config (net j) s)) as Htime.
  fold r0 in Htime.
  pose proof (startStreaming_rejected (net j) s (Hrej j s)) as Herr. fold r0 in Herr.
  pose proof (Hrej j s) as Ho. fold r0 in Ho. unfold returned in Ho.
  destruct (outcome r0) as [t|e] eqn:Hout; [done|]. clear Ho.
  destruct (decide (S j < opt_maxRetries options)%nat) as [Hlt|Hlast].
  - rewrite (reconnect_round_rejects P config options net j delay s e Hout Hlt).
    fold r0. cbn [outcome trace final].
    destruct m as [|m]; [lia|].
    specialize (IH (S j) (Z.min (delay * opt_multiplier options) (opt_maxDelay options))
                  (Some (asError e)) (final r0) ltac:(lia) Hrej).
    cbv zeta in IH. destruct IH as (IH1 & IH2 & IH3).
    unfold after. cbn [trace].
    rewrite !timeouts_of_app, !requests_of_app, !errors_of_app, !length_app.
    rewrite Htime, Hreq, Herr.
    change (requests_of [ConsoleLog _; SetTimeout _]) with 0%nat.
    change (timeouts_of [ConsoleLog _; SetTimeout ?d]) with [d].
    change (errors_of [ConsoleLog _; SetTimeout _]) with (@nil Thrown).
    cbn [app length].
    replace (S (S m) - 1)%nat with (S m) by lia.
    replace (S m - 1)%nat with m in IH1 by lia. cbn [backoff_delays].
    rewrite IH1, IH2, IH3. split; [done|]. split; lia.
  - rewrite (reconnect_round_last P config options net j delay s e Hout Hlast).
    fold r0. cbn [outcome trace final].
    assert (m = 0%nat) as -> by lia.
    specialize (IH (S j) delay (Some (asError e)) (final r0) ltac:(lia) Hrej).
    cbv zeta in IH. destruct IH as (IH1 & IH2 & IH3).
    unfold after. cbn [trace].
    rewrite !timeouts_of_app, !requests_of_app, !errors_of_app, !length_app.
    rewrite Htime, Hreq, Herr, IH1, IH2, IH3.
    cbv beta. cbn [Nat.sub backoff_delays]. split; [done|]. split; lia.
Qed.

(** X17.  When every attempt of [startStreaming] rejects (its error
    callback throws), [reconnectWithBackoff] makes all its [maxRetries]
    attempts, waits between them for the whole schedule of delays, and
    invokes the error callback once in every attempt and once more
    after the last. *)
Theorem reconnect_gives_up options net s :
  (∀ k s', returned (startStreaming P config (net k) s') = false) →
  (0 < opt_maxRetries options)%nat →
  let r := reconnectWithBackoff P config options net s in
  timeouts_of (trace r) =
    backoff_delays (opt_maxRetries options - 1) (opt_initialDelay options)
      (opt_multiplier options) (opt_maxDelay options)
  ∧ requests_of (trace r) = opt_maxRetries options
  ∧ length (errors_of (trace r)) = S (opt_maxRetries options).
Proof.
  intros Hrej Hmax r.
  destruct (reconnect_loop_exhausted options net (opt_maxRetries options) 0
              (opt_initialDelay options) None s eq_refl Hrej) as (H1 & H2 & H3).
  split; [exact H1|]. split; [exact H2|]. subst r. unfold reconnectWithBackoff.
  rewrite H3. destruct (opt_maxRetries options); lia.
Qed.

End SessionFacts.

(** ** Failing sessions on the example inputs *)

Section FailureExamples.
Import Streaming StreamingSpec FailureSpec Examples FailureExamples.

Lemma callbacks_cannot_fail_session_witness :
  let r := startStreaming platform choking (streams pieces ReadDone) tt in
  total (onComplete choking tt)
  ∧ outcome r = inl Completed
  ∧ chunks_of (trace r) =
      [record_value "streaming" hello; record_value "supervisor_streaming" world]
  ∧ errors_of (trace r) = [].
Proof.
  intros r.
  assert (Hc : total (onComplete choking tt)) by (intros []; reflexivity).
  destruct (callbacks_cannot_fail_session platform choking pieces tt Hc)
    as (H1 & H2 & H3 & _).
  split; [exact Hc|]. split; [exact H1|]. split; [|exact H3].
  etransitivity; [exact H2|]. reflexivity.
Defined.

Lemma transport_failure_is_reported_witness :
  let r := startStreaming platform quiet unavailable tt in
  fails_with unavailable (http_error 503)
  ∧ chunks_of (trace r) = []
  ∧ errors_of (trace r) = [JsError "Error" "HTTP error! status: 503"]
  ∧ (OnComplete ∉ trace r)
  ∧ outcome r = inl Failed.
Proof.
  intros r.
  assert (Hnet : fails_with unavailable (http_error 503))
    by (by apply bad_status).
  destruct (transport_failure_is_reported platform quiet unavailable _ tt Hnet eq_refl)
    as (H1 & H2 & H3 & H4).
  split; [exact Hnet|]. split; [exact H1|]. split; [exact H2|].
  split; [exact H3|]. apply H4. intros x []. reflexivity.
Defined.

Lemma unterminated_tail_is_dropped_witness :
  decoded platform (concat pieces) =
    (lit "data: " ++ record_text "streaming" hello ++ [LF]
     ++ lit "data: {oops" ++ [LF]
     ++ record_text "supervisor_streaming" world ++ [LF]) ++ lit "data: {"
  ∧ (LF ∉ lit "data: {")
  ∧ chunks_of (trace (startStreaming platform quiet (streams pieces ReadDone) tt)) =
    payloads platform
      (lit "data: " ++ record_text "streaming" hello ++ [LF]
       ++ lit "data: {oops" ++ [LF]
       ++ record_text "supervisor_streaming" world ++ [LF]).
Proof.
  assert (H1 : decoded platform (concat pieces) =
    (lit "data: " ++ record_text "streaming" hello ++ [LF]
     ++ lit "data: {oops" ++ [LF]
     ++ record_text "supervisor_streaming" world ++ [LF]) ++ lit "data: {")
    by reflexivity.
  assert (H2 : LF ∉ lit "data: {").
  { apply (bool_decide_unpack _). reflexivity. }
  split; [exact H1|]. split; [exact H2|].
  exact (unterminated_tail_is_dropped platform quiet pieces ReadDone _ _ tt H1 H2).
Defined.

Lemma reconnect_makes_one_attempt_witness :
  let r := reconnectWithBackoff platform quiet default_options always_refused tt in
  (0 < opt_maxRetries default_options)%nat
  ∧ requests_of (trace r) = 1%nat
  ∧ timeouts_of (trace r) = []
  ∧ errors_of (trace r) = [connection_refused].
Proof.
  intros r.
  assert (Hmax : (0 < opt_maxRetries default_options)%nat) by (cbn; lia).
  destruct (reconnect_makes_one_attempt platform quiet default_options always_refused tt)
    as (_ & _ & H3 & H4); [intros x []; reflexivity|exact Hmax|].
  split; [exact Hmax|]. split; [exact H3|]. split; [exact H4|]. reflexivity.
Defined.

Lemma reconnect_gives_up_witness :
  let r := reconnectWithBackoff platform rethrowing default_options always_refused tt in
  timeouts_of (trace r) = [1000; 2000]
  ∧ requests_of (trace r) = 3%nat
  ∧ length (errors_of (trace r)) = 4%nat.
Proof.
  apply (reconnect_gives_up platform rethrowing default_options always_refused tt).
  - intros k []. reflexivity.
  - cbn. lia.
Defined.

End FailureExamples.

(** ** Sessions of the streaming hook *)

Section PreservesFacts.
Context {E S : Type}.
Variable Inv : S → Prop.

Lemma preserves_ret {A} (a : A) : preserves Inv (ret a : M E S A).
Proof. by intros s Hs. Qed.

Lemma preserves_throw {A} e : preserves Inv (throw e : M E S A).
Proof. by intros s Hs. Qed.

Lemma preserves_emit (ev : E) : preserves Inv (emit ev : M E S unit).
Proof. by intros s Hs. Qed.

Lemma preserves_modify (f : S → S) :
  (∀ s, Inv s → Inv (f s)) → preserves Inv (modify f : M E S unit).
Proof. intros Hf s Hs. by apply Hf. Qed.

Lemma preserves_notify {A} (cb : option (Callback A)) (ev : E) (x : A) :
  preserves Inv (notify cb ev x : M E S unit).
Proof.
  intros s Hs. unfold notify. destruct cb as [f|]; [|done].
  rewrite run_bind. simpl. by destruct (f x).
Qed.

Lemma preserves_bind {A B} (m : M E S A) (k : A → M E S B) :
  preserves Inv m → (∀ a, preserves Inv (k a)) → preserves Inv (m ≫= k).
Proof.
  intros Hm Hk s Hs. rewrite run_bind.
  destruct (outcome (m s)) as [a|e]; simpl; [|by apply Hm].
  by apply Hk, Hm.
Qed.

(** A computation that begins by reading the state. *)
Lemma preserves_get_bind {B} (k : S → M E S B) :
  (∀ s, Inv s → Inv (final (k s s))) → preserves Inv (get ≫= k).
Proof. intros Hk s Hs. rewrite run_bind. simpl. by apply Hk. Qed.

Lemma preserves_try_catch {A} (m : M E S A) h :
  preserves Inv m → (∀ e, preserves Inv (h e)) → preserves Inv (try_catch m h).
Proof.
  intros Hm Hh s Hs. rewrite run_try_catch.
  destruct (outcome (m s)) as [a|e]; simpl; [by apply Hm|].
  by apply Hh, Hm.
Qed.

End PreservesFacts.

Lemma preserves_lift {X E S A} (Inv : S → Prop) (inj : X → E) (m : M X S A) :
  preserves Inv m → preserves Inv (lift inj m).
Proof. intros Hm s Hs. by apply Hm. Qed.

Section HookSessionFacts.
Import Streaming StreamingSpec UseStreaming MockSpec HookSpec.
Variable options : UseStreamingOptions.
Implicit Types st : HookState.

Lemma notify_result {E S A} (cb : option (Callback A)) (ev : E) (x : A) (s : S) :
  notify cb ev x s =
  Result (if cb is Some _ then [ev] else []) s
         (match cb with
          | Some f => match f x with Some e => inr e | None => inl tt end
          | None => inl tt
          end).
Proof.
  unfold notify. destruct cb as [f|]; [|done].
  rewrite run_bind; simpl. by destruct (f x).
Qed.

Lemma concat_map_singleton {A B} (f : A → B) (l : list A) :
  concat (map (λ x, [f x]) l) = map f l.
Proof. induction l as [|x l IH]; [done|]. simpl. by rewrite IH. Qed.

Lemma concat_map_nil {A B} (l : list A) :
  concat (map (λ _, @nil B) l) = [].
Proof. by induction l. Qed.

Lemma chunks_shown (l : list JSON) :
  concat (map (chunk_shown options) l) =
  if u_onChunk options is Some _ then map UserOnChunk l else [].
Proof.
  unfold chunk_shown. destruct (u_onChunk options).
  - apply concat_map_singleton.
  - apply concat_map_nil.
Qed.

(** A session that returns makes its [try] block return. *)
Lemma session_returns {E S} (m : M E S Termination) h s t :
  outcome (m s) = inl t →
  try_catch (m ;; ret tt) h s = Result (trace (m s)) (final (m s)) (inl tt).
Proof.
  intros H. rewrite run_try_catch, run_bind, H. simpl.
  unfold after, ret; simpl. by rewrite app_nil_r.
Qed.

Section Returning.
Hypothesis chunk_returns : ∀ cb c, u_onChunk options = Some cb → cb c = None.

Lemma handleChunk_total c : total (handleChunk options c).
Proof.
  intros s. unfold handleChunk, returned. rewrite notify_result.
  destruct (u_onChunk options) as [cb|] eqn:Hcb; [|done]. simpl.
  by rewrite (chunk_returns cb c).
Qed.

Lemma handleChunk_seen (Inv : HookState → Prop) request c :
  performs consumer_events Inv
    (call_onChunk (session_config options request) c)
    (chunk_shown options c) (inl tt) Inv.
Proof.
  intros s Hs. unfold call_onChunk, consumer, lift.
  rewrite run_bind. simpl. unfold handleChunk. rewrite notify_result. simpl.
  rewrite consumer_events_consumer. unfold chunk_shown.
  destruct (u_onChunk options) as [cb|] eqn:Hcb; simpl; [|done].
  by rewrite (chunk_returns cb c).
Qed.

End Returning.

Lemma handleComplete_seen :
  (∀ cb, u_onComplete options = Some cb → cb tt = None) →
  performs consumer_events any_state
    (consumer (handleComplete options tt))
    (completion_shown options) (inl tt)
    (λ st, isStreaming st = false ∧ error st = None ∧ retryCountRef st = 0%nat).
Proof.
  intros Hret s _. unfold consumer, lift, handleComplete.
  rewrite !run_bind. simpl. rewrite notify_result. simpl.
  rewrite consumer_events_consumer. unfold completion_shown.
  destruct (u_onComplete options) as [cb|] eqn:Hcb; simpl; [|done].
  by rewrite (Hret cb).
Qed.

Lemma handleComplete_total :
  (∀ cb, u_onComplete options = Some cb → cb tt = None) →
  total (handleComplete options tt).
Proof.
  intros Hret s. unfold handleComplete, returned.
  rewrite !run_bind. simpl. rewrite notify_result. simpl.
  destruct (u_onComplete options) as [cb|] eqn:Hcb; simpl; [|done].
  by rewrite (Hret cb).
Qed.

(** The state in which the session of [startStream] starts. *)
Lemma startStream_run request abort_at now st :
  startStream options request abort_at now st =
  try_catch
    (mockStreaming (session_config options request) abort_at now ;; ret tt)
    (λ err,
       if instanceof_Error err && negb (is_AbortError err) then
         lift Consumer (handleError options err)
       else ret tt)
    (final (open_session request st)).
Proof.
  unfold startStream. rewrite run_bind, open_session_run.
  cbn [outcome trace final]. by rewrite after_nil.
Qed.

(** X18.  A session of the hook that is not aborted, with callbacks of
    the application that return, hands every chunk of the mock session
    to [onChunk], in order, and then calls [onComplete]; [onError] is not
    called.  The hook ends up not streaming, without an error and with
    its retry counter at 0; the request stays available to [retry] and
    the controller of the session stays installed. *)
Theorem startStream_completes request now st :
  (∀ cb c, u_onChunk options = Some cb → cb c = None) →
  (∀ cb, u_onComplete options = Some cb → cb tt = None) →
  let r := startStream options request None now st in
  let chunks := mock_chunks (session_config options request) now in
  outcome r = inl tt
  ∧ chunks_of (trace r) = chunks
  ∧ consumer_events (trace r) =
      (if u_onChunk options is Some _ then map UserOnChunk chunks else [])
      ++ completion_shown options
  ∧ errors_of (trace r) = []
  ∧ isStreaming (final r) = false
  ∧ error (final r) = None
  ∧ retryCountRef (final r) = 0%nat
  ∧ lastConfigRef (final r) = Some request
  ∧ abortControllerRef (final r) = Some (controllers st).
Proof.
  intros Hchunk Hcomplete r chunks. subst r chunks.
  rewrite startStream_run.
  set (s1 := final (open_session request st)).
  destruct (mockStreaming_runs (session_config options request) now s1
              (handleChunk_total Hchunk) (handleComplete_total Hcomplete))
    as (Ho & _ & Hc & _ & He).
  destruct (mockStreaming_performs (session_config options request) now
              consumer_events any_state (chunk_shown options)
              (completion_shown options) _ eq_refl consumer_events_app
              (handleChunk_seen Hchunk any_state request)
              (handleComplete_seen Hcomplete) s1 I)
    as (Hv & _ & Hs & Herr & Hcount).
  pose proof (mockStreaming_keeps_refs options request None now s1) as Hrefs.
  rewrite (session_returns _ _ _ Completed Ho). cbn [outcome trace final].
  rewrite mock_narration_consumer, firstn_all, chunks_shown in Hv by done.
  split; [done|]. split; [exact Hc|]. split; [exact Hv|]. split; [exact He|].
  split; [exact Hs|]. split; [exact Herr|]. split; [exact Hcount|].
  unfold refs in Hrefs. injection Hrefs as -> -> _ _.
  subst s1. rewrite open_session_run. done.
Qed.

(** X19.  A session of the hook whose controller is aborted while delay
    [j] of the mock session is pending has handed the first [j] chunks to
    [onChunk] and hands over nothing more: neither [onComplete] nor
    [onError] is called, and the session leaves the state of the hook as
    it was when the session started. *)
Theorem startStream_cancelled request j now st :
  (∀ cb c, u_onChunk options = Some cb → cb c = None) →
  (j < length (mock_delays (session_config options request)))%nat →
  let r := startStream options request (Some j) now st in
  let chunks := mock_chunks (session_config options request) now in
  outcome r = inl tt
  ∧ chunks_of (trace r) = take j chunks
  ∧ consumer_events (trace r) =
      (if u_onChunk options is Some _ then map UserOnChunk (take j chunks) else [])
  ∧ errors_of (trace r) = []
  ∧ final r = final (open_session request st).
Proof.
  intros Hchunk Hj r chunks. subst r chunks.
  rewrite startStream_run.
  set (s1 := final (open_session request st)).
  destruct (mockStreaming_stops (session_config options request) now j s1
              (handleChunk_total Hchunk) Hj)
    as (Ho & _ & Hc & _ & He & _).
  destruct (mockStreaming_interrupted (session_config options request) now
              consumer_events (λ s, s = s1) (chunk_shown options) j
              consumer_events_app
              (handleChunk_seen Hchunk (λ s, s = s1) request) Hj s1 eq_refl)
    as (Hv & _ & Hs).
  rewrite (session_returns _ _ _ Cancelled Ho). cbn [outcome trace final].
  rewrite mock_narration_consumer, chunks_shown in Hv
    by (rewrite (mock_delays_length _ now) in Hj; lia).
  change (consumer_events [ConsoleLog ?m]) with (@nil HookEvent) in Hv.
  rewrite app_nil_r in Hv.
  split; [done|]. split; [exact Hc|]. split; [exact Hv|]. split; [exact He|].
  exact Hs.
Qed.

(** *** A callback of the application that throws *)

Lemma try_catch_run_throws {E S A} (m : M E S A) h s t s' e :
  m s = Result t s' (inr e) → try_catch m h s = after t (h e s').
Proof. intros H. by rewrite run_try_catch, H. Qed.

Lemma bind_run_returns {E S A B} (m : M E S A) (k : A → M E S B) s t s' a :
  m s = Result t s' (inl a) → (m ≫= k) s = after t (k a s').
Proof. intros H. by rewrite run_bind, H. Qed.

Lemma bind_run_throws {E S A B} (m : M E S A) (k : A → M E S B) s t s' e :
  m s = Result t s' (inr e) → (m ≫= k) s = Result t s' (inr e).
Proof. intros H. by rewrite run_bind, H. Qed.

Lemma on_failure_reports {X St} (config : StreamingConfig X St) msg e s :
  is_AbortError e = false →
  outcome (onError config (asError e) s) = inl tt →
  on_failure config msg e s =
  Result (OnError (asError e) :: map Consumer (trace (onError config (asError e) s)))
         (final (onError config (asError e) s)) (inl Failed).
Proof.
  intros Hnot Hret. unfold on_failure. rewrite Hnot, !run_bind. simpl.
  unfold consumer, lift. simpl. rewrite Hret. simpl.
  unfold after, ret. simpl. by rewrite app_nil_r.
Qed.

Lemma handleError_run err st :
  (∀ cb, u_onError options = Some cb → cb err = None) →
  handleError options err st =
  Result (error_shown options err ++ retry_noted options st)
    {| isStreaming := false; error := Some err;
       abortControllerRef := abortControllerRef st;
       lastConfigRef := lastConfigRef st;
       retryCountRef := if counts_retry options st
                        then (retryCountRef st + 1)%nat else retryCountRef st;
       aborted := aborted st; controllers := controllers st |}
    (inl tt).
Proof.
  intros Hret. unfold handleError, error_shown, retry_noted, counts_retry.
  rewrite !run_bind. simpl. rewrite notify_result. simpl.
  destruct (u_onError options) as [cb|] eqn:Hcb; simpl.
  - rewrite (Hret cb eq_refl). simpl.
    destruct (opt_enableRetry options && _); reflexivity.
  - destruct (opt_enableRetry options && _); reflexivity.
Qed.

(** X20.  An exception of the application's [onChunk] ends the session
    of the hook, unlike one thrown into [startStreaming]: when [onChunk]
    throws on the first chunk something that is not an abort, no further
    chunk is delivered, the exception is reported to [onError] as an
    [Error], the hook stops streaming and shows the error, and a retry is
    counted if retries are enabled and the bound is not reached. *)
Theorem onChunk_failure_ends_session request abort_at now st cb e :
  let first := text_chunk "streaming" (lit "Analyzing your question") (now 0%nat) in
  let r := startStream options request abort_at now st in
  abort_at ≠ Some 0%nat →
  u_onChunk options = Some cb →
  cb first = Some e →
  is_AbortError e = false →
  (∀ cb', u_onError options = Some cb' → cb' (asError e) = None) →
  outcome r = inl tt
  ∧ chunks_of (trace r) = [first]
  ∧ errors_of (trace r) = [asError e]
  ∧ consumer_events (trace r) =
      UserOnChunk first :: error_shown options (asError e) ++ retry_noted options st
  ∧ isStreaming (final r) = false
  ∧ error (final r) = Some (asError e)
  ∧ retryCountRef (final r) =
      (if counts_retry options st then retryCountRef st + 1 else retryCountRef st)%nat.
Proof.
  intros first r Habort Hcb Hthrow Hnot Hret. subst r.
  rewrite startStream_run, open_session_run. cbn [final].
  match goal with
  | |- context [try_catch _ _ ?s] => set (s1 := s)
  end.
  assert (Hd : delay (X := HookEvent) abort_at 500 0 s1
               = Result [SetTimeout 500] s1 (inl tt)).
  { unfold delay. rewrite run_bind; simpl. by rewrite bool_decide_false. }
  assert (Hc : call_onChunk (session_config options request) first s1
               = Result [OnChunk first; Consumer (UserOnChunk first)] s1 (inr e)).
  { unfold call_onChunk, consumer, lift. rewrite run_bind. simpl.
    unfold handleChunk. rewrite notify_result, Hcb, Hthrow. reflexivity. }
  pose proof (on_failure_reports (session_config options request)
                "Mock streaming aborted" e s1 Hnot) as Hh.
  change (onError (session_config options request)) with (handleError options) in Hh.
  rewrite (handleError_run _ _ Hret) in Hh. cbn [outcome trace final] in Hh.
  specialize (Hh eq_refl).
  assert (Hm : mockStreaming (session_config options request) abort_at now s1
               = after [SetTimeout 500; OnChunk first; Consumer (UserOnChunk first)]
                   (on_failure (session_config options request)
                      "Mock streaming aborted" e s1)).
  { unfold mockStreaming.
    erewrite try_catch_run_throws; [reflexivity|].
    erewrite bind_run_returns; [|exact Hd].
    erewrite bind_run_throws; [|exact Hc]. reflexivity. }
  rewrite Hh in Hm.
  erewrite session_returns by (by rewrite Hm).
  rewrite Hm. cbn [after outcome trace final].
  assert (Hcons : ∀ l : list HookEvent,
            consumer_events (map (Consumer (X := HookEvent)) l) = l
            ∧ chunks_of (map (Consumer (X := HookEvent)) l) = []
            ∧ errors_of (map (Consumer (X := HookEvent)) l) = []).
  { induction l as [|x l (IH1 & IH2 & IH3)]; [done|]. simpl. by rewrite IH1. }
  assert (Hn : retry_noted options s1 = retry_noted options st) by reflexivity.
  assert (Hcnt : counts_retry options s1 = counts_retry options st) by reflexivity.
  rewrite Hn, Hcnt. cbn [isStreaming error retryCountRef].
  destruct (Hcons (error_shown options (asError e) ++ retry_noted options st))
    as (H1 & H2 & H3).
  revert H1 H2 H3.
  generalize (error_shown options (asError e) ++ retry_noted options st) as l.
  intros l H1 H2 H3. split; [done|].
  unfold chunks_of, errors_of, consumer_events in *. rewrite !omap_app. simpl.
  split; [f_equal; exact H2|]. split; [f_equal; exact H3|].
  split; [f_equal; exact H1|done].
Qed.

(** *** Composition of the operations *)

(** X21.  [retry] starts the last request again: after a call of
    [startStream], however its session ended, [retry] is a call of
    [startStream] with the same request, also after [stopStream] or
    [clearError]; on a hook that never started a stream it does nothing.
    The retry counter and [maxRetries] play no part in it. *)
Theorem retry_replays_last_request request abort_at now abort_at' now' st :
  let r := startStream options request abort_at now st in
  retry options abort_at' now' (final r) =
    startStream options request abort_at' now' (final r)
  ∧ retry options abort_at' now' (final (stopStream (final r))) =
      startStream options request abort_at' now' (final (stopStream (final r)))
  ∧ retry options abort_at' now' (final (clearError (final r))) =
      startStream options request abort_at' now' (final (clearError (final r)))
  ∧ retry options abort_at' now' initial = Result [] initial (inl tt).
Proof.
  intros r.
  assert (Hlast : lastConfigRef (final r) = Some request).
  { subst r. rewrite startStream_run.
    pose proof (session_keeps_refs options request abort_at now
                  (final (open_session request st))) as Hrefs.
    pose proof (f_equal (λ p, snd (fst (fst p))) Hrefs) as Hl.
    unfold refs in Hl. cbn [fst snd] in Hl.
    rewrite Hl. by rewrite open_session_run. }
  assert (Hretry : ∀ s, lastConfigRef s = Some request →
            retry options abort_at' now' s =
            startStream options request abort_at' now' s).
  { intros s Hs. unfold retry. rewrite run_bind. cbn [get outcome trace final].
    rewrite Hs. apply after_nil. }
  split; [by apply Hretry|]. split; [|split; [|done]].
  - apply Hretry. unfold stopStream. rewrite !run_bind. cbn [get outcome trace final].
    by destruct (abortControllerRef (final r)).
  - by apply Hretry.
Qed.

(** *** An invariant of the hook *)

Lemma handleError_consistent err :
  preserves (consistent options) (handleError options err).
Proof.
  unfold handleError.
  intros s [Hcount _].
  rewrite !run_bind. simpl. rewrite notify_result. simpl.
  assert (Hdone : ∀ n, (n ≤ opt_maxRetries options)%nat →
            consistent options
              {| isStreaming := false; error := Some err;
                 abortControllerRef := abortControllerRef s;
                 lastConfigRef := lastConfigRef s; retryCountRef := n;
                 aborted := aborted s; controllers := controllers s |}).
  { intros n Hn. by split. }
  unfold opt_enableRetry, opt_maxRetries in *.
  destruct (u_onError options) as [cb|]; [destruct (cb err)|]; simpl;
    try (by apply Hdone);
    (destruct (default true (enableRetry options)); simpl; [|by apply Hdone];
     case_bool_decide; simpl; apply Hdone; simpl in *; lia).
Qed.

Lemma handleComplete_consistent :
  preserves (consistent options) (handleComplete options tt).
Proof.
  unfold handleComplete. intros s _.
  rewrite !run_bind. simpl. rewrite notify_result. simpl.
  destruct (u_onComplete options) as [cb|]; [destruct (cb tt)|]; simpl;
    split; simpl; (lia || by intros [? [=]]).
Qed.

Lemma mockStreaming_consistent request abort_at now :
  preserves (consistent options)
    (mockStreaming (session_config options request) abort_at now).
Proof.
  set (Inv := consistent options).
  assert (Hd : ∀ ms k, preserves Inv
                 (delay (X := HookEvent) (St := HookState) abort_at ms k)).
  { intros ms k. apply preserves_bind; [apply preserves_emit|intros _].
    destruct (bool_decide _); [apply preserves_throw | apply preserves_ret]. }
  assert (Hc : ∀ chunk, preserves Inv
                 (call_onChunk (session_config options request) chunk)).
  { intros chunk. apply preserves_bind; [apply preserves_emit|intros _].
    apply preserves_lift, preserves_notify. }
  assert (Hw : ∀ words content k,
            preserves Inv (stream_words (session_config options request) abort_at now
                             words content k)).
  { induction words as [|w words IH]; intros content k; simpl; [apply preserves_ret|].
    apply preserves_bind; [apply Hc|intros _].
    apply preserves_bind; [apply Hd|intros _]. apply IH. }
  apply preserves_try_catch.
  - do 4 (apply preserves_bind; [apply Hd|intros _];
          apply preserves_bind; [apply Hc|intros _]).
    apply preserves_bind; [apply Hd|intros _].
    apply preserves_bind; [apply Hw|intros _].
    apply preserves_bind; [apply preserves_emit|intros _].
    apply preserves_bind;
      [apply preserves_lift, handleComplete_consistent|intros _].
    apply preserves_ret.
  - intros e. unfold on_failure. destruct (is_AbortError e).
    + apply preserves_bind; [apply preserves_emit|intros _]. apply preserves_ret.
    + apply preserves_bind; [apply preserves_emit|intros _].
      apply preserves_bind; [apply preserves_lift, handleError_consistent|intros _].
      apply preserves_ret.
Qed.

(** X22.  The hook keeps its retry counter within [maxRetries] and never
    shows an error while it reports streaming: both hold initially and
    are kept by [startStream], whatever the session and the callbacks of
    the application do, by [stopStream], by [retry] and by [clearError]. *)
Theorem hook_stays_consistent request abort_at now st :
  consistent options st →
  consistent options (final (startStream options request abort_at now st))
  ∧ consistent options (final (stopStream st))
  ∧ consistent options (final (retry options abort_at now st))
  ∧ consistent options (final (clearError st))
  ∧ consistent options initial.
Proof.
  intros Hst.
  assert (Hstart : ∀ request, preserves (consistent options)
                     (startStream options request abort_at now)).
  { intros req s [Hcount _]. rewrite startStream_run.
    apply preserves_try_catch.
    - apply preserves_bind; [apply mockStreaming_consistent|intros _].
      apply preserves_ret.
    - intros e. destruct (_ && _); [|apply preserves_ret].
      apply preserves_lift, handleError_consistent.
    - rewrite open_session_run. split; simpl; [done|]. by intros [? [=]]. }
  split; [by apply Hstart|]. split; [|split; [|split]].
  - destruct Hst as [Hcount Herr]. unfold stopStream.
    rewrite !run_bind. cbn [get outcome trace final].
    destruct (abortControllerRef st); simpl; split; simpl; (lia || done).
  - unfold retry. rewrite run_bind. cbn [get outcome trace final].
    destruct (lastConfigRef st) as [req|]; [|done].
    rewrite after_nil. by apply Hstart.
  - destruct Hst as [Hcount Herr]. split; simpl; [done|]. by intros [? [=]].
  - split; simpl; [lia|]. by intros [? [=]].
Qed.

End HookSessionFacts.

(** ** Sessions of the hook on the example inputs *)

Section HookSessionExamples.
Import Streaming StreamingSpec UseStreaming MockSpec HookSpec Examples
  HookExampleInputs.

Lemma startStream_completes_witness :
  let r := startStream hook_options first_request None clock initial in
  outcome r = inl tt
  ∧ chunks_of (trace r) = mock_chunks (session_config hook_options first_request) clock
  ∧ consumer_events (trace r) =
      map UserOnChunk (mock_chunks (session_config hook_options first_request) clock)
      ++ [UserOnComplete]
  ∧ isStreaming (final r) = false
  ∧ error (final r) = None
  ∧ lastConfigRef (final r) = Some first_request
  ∧ abortControllerRef (final r) = Some 0%nat.
Proof.
  intros r.
  destruct (startStream_completes hook_options first_request clock initial)
    as (H1 & H2 & H3 & _ & H5 & H6 & _ & H8 & H9).
  - by intros cb c [= <-].
  - by intros cb [= <-].
  - split; [exact H1|]. split; [exact H2|]. split; [exact H3|].
    split; [exact H5|]. split; [exact H6|]. split; [exact H8|exact H9].
Defined.

Lemma startStream_cancelled_witness :
  let r := startStream hook_options first_request (Some 2%nat) clock initial in
  (2 < length (mock_delays (session_config hook_options first_request)))%nat
  ∧ outcome r = inl tt
  ∧ consumer_events (trace r) =
      [UserOnChunk (text_chunk "streaming" (lit "Analyzing your question")
                      (clock 0%nat));
       UserOnChunk (text_chunk "streaming" (lit "Searching for relevant information")
                      (clock 1%nat))]
  ∧ final r = streaming_state.
Proof.
  intros r.
  assert (Hj : (2 < length (mock_delays (session_config hook_options first_request)))%nat)
    by (vm_compute; lia).
  destruct (startStream_cancelled hook_options first_request 2 clock initial)
    as (H1 & _ & H3 & _ & H5); [by intros cb c [= <-]|exact Hj|].
  split; [exact Hj|]. split; [exact H1|].
  split; [etransitivity; [exact H3|reflexivity]|exact H5].
Defined.

Lemma onChunk_failure_ends_session_witness :
  let first := text_chunk "streaming" (lit "Analyzing your question") (clock 0%nat) in
  let e := JsError "Error" "cannot render" in
  let r := startStream choking_options first_request None clock initial in
  chunks_of (trace r) = [first]
  ∧ consumer_events (trace r) =
      [UserOnChunk first; UserOnError e; HookLog "Retry attempt 1/3..."]
  ∧ isStreaming (final r) = false
  ∧ error (final r) = Some e
  ∧ retryCountRef (final r) = 1%nat.
Proof.
  intros first e r.
  destruct (onChunk_failure_ends_session choking_options first_request None clock
              initial (λ _, Some e) e)
    as (_ & H2 & _ & H4 & H5 & H6 & H7);
    [discriminate|reflexivity|reflexivity|reflexivity|by intros cb [= <-]|].
  split; [exact H2|]. split; [exact H4|]. split; [exact H5|].
  split; [exact H6|exact H7].
Defined.

Lemma hook_stays_consistent_witness :
  let r := startStream choking_options first_request None clock initial in
  consistent choking_options initial
  ∧ consistent choking_options (final r)
  ∧ consistent choking_options (final (stopStream (final r))).
Proof.
  intros r.
  assert (H0 : consistent choking_options initial).
  { split; simpl; [cbn; lia|]. by intros [? [=]]. }
  destruct (hook_stays_consistent choking_options first_request None clock initial H0)
    as (H1 & _).
  destruct (hook_stays_consistent choking_options first_request None clock (final r) H1)
    as (_ & H2 & _).
  split; [exact H0|]. split; [exact H1|exact H2].
Defined.

End HookSessionExamples.

(** ** Uploads *)

Section UploadRunFacts.
Import UseFileUpload UploadSpec.
Variable options : UseFileUploadOptions.
Implicit Types st : HookState.
Implicit Types f entry : IExtendedFile.

Local Abbreviation progress_update := (λ progress : Z, {|
  set_file := None; set_filename := None; set_cdnUrl := None;
  set_isUploading := None; set_uploadId := None;
  set_uploadAbortController := None;
  set_uploadProgress := Some (Some progress);
  set_uploadError := None |}).

Local Abbreviation shown := (λ (id : UploadId) (progress : Z),
  if onProgress options is Some _ then [OnProgress id progress] else []).

Lemma change_entries_compose id g h files :
  (∀ f, uploadId (h f) = uploadId f) →
  change_entries id g (change_entries id h files) =
  change_entries id (λ f, g (h f)) files.
Proof.
  intros Hid. unfold change_entries. rewrite map_map. apply map_ext. intros f.
  destruct (bool_decide_reflect (uploadId f = id)) as [Hf|Hf].
  - by rewrite bool_decide_true by (by rewrite Hid).
  - by rewrite bool_decide_false.
Qed.

Lemma change_entries_ext id g h files :
  (∀ f, g f = h f) → change_entries id g files = change_entries id h files.
Proof.
  intros Hgh. unfold change_entries. apply map_ext. intros f. by rewrite Hgh.
Qed.

Lemma update_entries_change id updates files :
  update_entries id updates files = change_entries id (λ f, spread f updates) files.
Proof. reflexivity. Qed.

Lemma report_progress_run id progress st :
  report_progress options id progress st =
  Result (shown id progress)
         (setUploadedFiles (change_entries id (λ f, spread f (progress_update progress))) st)
         (match onProgress options with
          | Some cb => match cb (id, progress) with Some e => inr e | None => inl tt end
          | None => inl tt
          end).
Proof.
  unfold report_progress. rewrite run_bind, updateFile_run. cbn [outcome trace final].
  rewrite after_nil, notify_run. by destruct (onProgress options).
Qed.

(** A turn of an upload whose progress callback returns. *)
Lemma resume_turn gid entry progress st :
  (∀ cb, onProgress options = Some cb → cb (uploadId entry, progress) = None) →
  progress + 10 ≤ 100 →
  resume options gid {| t_entry := entry; t_pc := AtProgress progress |} st =
  Result (shown (uploadId entry) progress ++ [Sleep 100])
    (setUploadedFiles
       (change_entries (uploadId entry) (λ f, spread f (progress_update progress))) st)
    (inl {| t_entry := entry; t_pc := AtProgress (progress + 10) |}).
Proof.
  intros Hret Hle. unfold resume. cbn [t_pc t_entry].
  rewrite run_bind, run_try_catch, run_bind.
  unfold uploadFile_turn. rewrite run_bind. unfold call_opt.
  rewrite report_progress_run.
  destruct (onProgress options) as [cb|] eqn:Hcb;
    [rewrite (Hret cb eq_refl)|];
    cbn [outcome trace final]; rewrite bool_decide_true by done;
    unfold sleep; rewrite run_bind; reflexivity.
Qed.

Lemma resume_last gid entry progress st :
  (∀ cb, onProgress options = Some cb → cb (uploadId entry, progress) = None) →
  ¬ progress + 10 ≤ 100 →
  resume options gid {| t_entry := entry; t_pc := AtProgress progress |} st =
  Result (shown (uploadId entry) progress)
    (setUploadedFiles
       (change_entries (uploadId entry)
          (λ f, finished (mock_url gid (file entry)) (spread f (progress_update progress))))
       st)
    (inl {| t_entry := entry; t_pc := Finished |}).
Proof.
  intros Hret Hle. unfold resume. cbn [t_pc t_entry].
  rewrite run_bind, run_try_catch, run_bind.
  unfold uploadFile_turn. rewrite run_bind. unfold call_opt.
  rewrite report_progress_run.
  destruct (onProgress options) as [cb|] eqn:Hcb;
    [rewrite (Hret cb eq_refl)|];
    cbn [outcome trace final]; rewrite bool_decide_false by done;
    cbn [ret outcome trace final after success data app];
    rewrite run_bind, updateFile_run; cbn [outcome trace final after ret app];
    (f_equal; destruct st as [files ? ? ?]; unfold setUploadedFiles;
     cbn [uploadedFiles uploadCounterRef aborted controllers]; f_equal;
     rewrite update_entries_change, change_entries_compose by done;
     reflexivity).
Qed.

Lemma progress_of_app t1 t2 :
  progress_of (t1 ++ t2) = progress_of t1 ++ progress_of t2.
Proof. apply omap_app. Qed.

Lemma setUploadedFiles_compose g h st :
  setUploadedFiles g (setUploadedFiles h st) = setUploadedFiles (λ l, g (h l)) st.
Proof. reflexivity. Qed.

Lemma shown_progress id progress :
  progress_of (shown id progress) =
  if onProgress options is Some _ then [(id, progress)] else [].
Proof. by destruct (onProgress options). Qed.

Lemma shown_errors id progress : upload_errors_of (shown id progress) = [].
Proof. by destruct (onProgress options). Qed.

(** The turns of an upload from some progress to the end. *)
Lemma upload_turns gid entry k : ∀ progress st,
  (∀ cb p, onProgress options = Some cb → cb (uploadId entry, p) = None) →
  progress = 100 - 10 * Z.of_nat k →
  let r := resume_times options (S k) gid
             {| t_entry := entry; t_pc := AtProgress progress |} st in
  outcome r = inl {| t_entry := entry; t_pc := Finished |}
  ∧ progress_of (trace r) =
      (if onProgress options is Some _
       then map (λ i, (uploadId entry, progress + 10 * Z.of_nat i)) (seq 0 (S k))
       else [])
  ∧ upload_errors_of (trace r) = []
  ∧ final r =
      setUploadedFiles
        (change_entries (uploadId entry) (finished (mock_url gid (file entry)))) st.
Proof.
  induction k as [|k IH]; intros progress st Hret Hp r; subst r.
  - cbn [resume_times]. rewrite run_bind, resume_last; [|by intros; apply Hret|lia].
    cbn [outcome trace final ret after]. rewrite app_nil_r.
    rewrite shown_progress, shown_errors.
    split; [done|]. split; [|split; [done|]].
    + destruct (onProgress options); [|done]. simpl. by rewrite Z.add_0_r.
    + reflexivity.
  - change (resume_times options (S (S k)) gid ?t st)
      with ((t' ← resume options gid t; resume_times options (S k) gid t') st).
    rewrite run_bind, resume_turn; [|by intros; apply Hret|lia].
    cbn [outcome trace final].
    match goal with
    | |- context [resume_times options (S k) gid ?t ?s] =>
        destruct (IH (progress + 10) s Hret ltac:(lia)) as (Ho & Hprog & Herr & Hfin)
    end.
    unfold after. cbn [outcome trace final].
    rewrite Ho, Hfin, !progress_of_app, !upload_errors_of_app, Hprog, Herr.
    rewrite shown_progress, shown_errors.
    split; [done|]. split; [|split; [done|]].
    + destruct (onProgress options); [|done].
      change (progress_of [Sleep 100]) with (@nil (UploadId * Z)). cbn [app].
      change (seq 0 (S (S k))) with (0%nat :: seq 1 (S k)).
      rewrite <- (fmap_S_seq 0 (S k)). cbn [map].
      f_equal; [f_equal; lia|].
      rewrite map_map. apply map_ext. intros i. f_equal. lia.
    + unfold setUploadedFiles.
      cbn [uploadedFiles uploadCounterRef aborted controllers]. f_equal.
      rewrite change_entries_compose by done. reflexivity.
Qed.

(** X23.  An upload whose progress callback returns runs to its end:
    the application is told 0, 10, ..., 100 percent, in this order, no
    error is reported, and every entry of the batch that has the
    identifier ends up with the URL of the mock service, progress 100 and
    not uploading, so that it is among the ready files unless it carries
    an error; the other entries and the controllers are left as they
    were.  Whether the controller of the entry was aborted plays no
    part. *)
Theorem upload_runs_to_completion gid entry st :
  (∀ cb p, onProgress options = Some cb → cb (uploadId entry, p) = None) →
  let id := uploadId entry in
  let url := mock_url gid (file entry) in
  let r := resume_times options 11 gid
             {| t_entry := entry; t_pc := AtProgress 0 |} st in
  outcome r = inl {| t_entry := entry; t_pc := Finished |}
  ∧ progress_of (trace r) =
      (if onProgress options is Some _ then map (λ p, (id, p)) percentages else [])
  ∧ upload_errors_of (trace r) = []
  ∧ uploadedFiles (final r) = change_entries id (finished url) (uploadedFiles st)
  ∧ aborted (final r) = aborted st
  ∧ (∀ f, f ∈ uploadedFiles st → uploadId f = id →
       truthy_str (uploadError f) = false →
       finished url f ∈ ready (uploadedFiles (final r))).
Proof.
  intros Hret id url r.
  destruct (upload_turns gid entry 10 0 st Hret eq_refl) as (Ho & Hprog & Herr & Hfin).
  fold r in Ho, Hprog, Herr, Hfin.
  split; [exact Ho|]. split; [exact Hprog|]. split; [exact Herr|].
  rewrite Hfin. cbn [uploadedFiles aborted setUploadedFiles].
  split; [done|]. split; [done|].
  intros f Hf Hid Hok. unfold ready.
  apply list_elem_of_In, filter_In. split.
  - apply list_elem_of_In. unfold change_entries.
    apply list_elem_of_fmap. exists f. by rewrite bool_decide_true.
  - cbn [finished isUploading uploadError cdnUrl]. by rewrite Hok.
Qed.

(** X24.  An exception of the application's progress callback fails the
    upload: the entry keeps the progress that was being reported, stops
    uploading and carries the message of the exception as its error; the
    exception is passed to [onUploadError], as an [Error]; the task ends
    there, with no further progress report and no URL. *)
Theorem progress_callback_failure_fails_upload gid entry progress cb err st :
  onProgress options = Some cb →
  cb (uploadId entry, progress) = Some err →
  let id := uploadId entry in
  let r := resume options gid {| t_entry := entry; t_pc := AtProgress progress |} st in
  uploadedFiles (final r) =
    change_entries id (failed_at progress (failure_message err)) (uploadedFiles st)
  ∧ progress_of (trace r) = [(id, progress)]
  ∧ upload_errors_of (trace r) =
      (if onUploadError options is Some _ then [failure_reported err] else [])
  ∧ (Sleep 100 ∉ trace r)
  ∧ ((∀ cb', onUploadError options = Some cb' → cb' (failure_reported err) = None) →
     outcome r = inl {| t_entry := entry; t_pc := Finished |}).
Proof.
  intros Hcb Hthrow id r. subst r. unfold resume. cbn [t_pc t_entry].
  rewrite run_bind, run_try_catch, run_bind.
  unfold uploadFile_turn. rewrite run_bind. unfold call_opt.
  rewrite report_progress_run, Hcb, Hthrow. cbn [outcome trace final].
  unfold upload_failed. rewrite run_bind, updateFile_run.
  cbn [outcome trace final]. rewrite after_nil, run_bind, notify_run.
  fold (failure_message err) (failure_reported err).
  assert (Hfiles : ∀ l,
    update_entries id
      {| set_file := None; set_filename := None; set_cdnUrl := None;
         set_isUploading := Some (Some false); set_uploadId := None;
         set_uploadAbortController := None; set_uploadProgress := None;
         set_uploadError := Some (Some (failure_message err)) |}
      (change_entries id (λ f, spread f (progress_update progress)) l)
    = change_entries id (failed_at progress (failure_message err)) l).
  { intros l. rewrite update_entries_change, change_entries_compose by done.
    reflexivity. }
  destruct (onUploadError options) as [cb'|]; [destruct (cb' _) eqn:Hcb'|];
    cbn [outcome trace final after ret app uploadedFiles setUploadedFiles];
    rewrite Hfiles;
    (split; [done|]); (split; [done|]); (split; [done|]);
    (split; [intros Hin; repeat (apply elem_of_cons in Hin as [Hin|Hin];
                                  [discriminate Hin|]);
             by apply elem_of_nil in Hin|]).
  - intros Hret. by rewrite (Hret cb' eq_refl) in Hcb'.
  - done.
  - done.
Qed.

End UploadRunFacts.

Section UploadBatchFacts.
Import UseFileUpload UploadSpec.
Variable options : UseFileUploadOptions.
Implicit Types st : HookState.
Implicit Types f entry : IExtendedFile.

(** *** The completion callback *)

(** The objects that [uploadFiles] creates, with their identifiers. *)
Lemma make_extended_entries now files : ∀ k st,
  ∃ extended,
    make_extended now k files st =
      Result [] {| uploadedFiles := uploadedFiles st;
                   uploadCounterRef := (uploadCounterRef st + length files)%nat;
                   aborted := aborted st;
                   controllers := (controllers st + length files)%nat |}
        (inl extended)
    ∧ map file extended = files
    ∧ map (λ f, uid_counter (uploadId f)) extended =
        seq (S (uploadCounterRef st)) (length files)
    ∧ Forall (λ f, cdnUrl f = None) extended.
Proof.
  induction files as [|f files IH]; intros k st; simpl.
  - exists []. rewrite !Nat.add_0_r. by destruct st.
  - rewrite run_bind; simpl. rewrite run_bind; simpl. rewrite !after_nil.
    set (st1 := {| uploadedFiles := uploadedFiles st;
                   uploadCounterRef := uploadCounterRef st + 1;
                   aborted := aborted st;
                   controllers := S (controllers st) |}).
    destruct (IH (S k) st1) as (ext & Hrun & Hf & Hids & Hall).
    rewrite run_bind, Hrun; simpl. eexists. split; [|split; [|split]].
    + rewrite after_nil. unfold ret. f_equal. f_equal; lia.
    + simpl. by rewrite Hf.
    + simpl. rewrite Hids. simpl. f_equal; [lia|]. f_equal. lia.
    + by constructor.
Qed.

Lemma start_all_entries files : ∀ st,
  ∃ t tasks, start_all files st = Result t st (inl tasks)
             ∧ map t_entry tasks = files.
Proof.
  intros st. destruct (start_all_run files st) as (t & tasks & H & _ & He).
  by exists t, tasks.
Qed.

Lemma settled_silent extendedFiles st :
  Forall (λ f, cdnUrl f = None) extendedFiles →
  uploadFiles_settled options extendedFiles st = Result [] st (inl tt).
Proof.
  intros Hall. unfold uploadFiles_settled.
  assert (Hnone : List.filter
            (λ f, negb (truthy_str (uploadError f)) && truthy_str (cdnUrl f))
            extendedFiles = []).
  { induction Hall as [|f l Hf _ IH]; [done|]. simpl. rewrite Hf. simpl.
    by rewrite andb_false_r. }
  by rewrite Hnone.
Qed.

(** X25.  [onUploadComplete] is never invoked: what follows
    [Promise.all] in [uploadFiles] looks for the URL in the objects that
    [uploadFiles] created, which the state updates never change, so the
    list of successful files is empty whatever the uploads did. *)
Theorem completion_callback_is_never_invoked snapshot now files st tasks st' :
  outcome (uploadFiles options snapshot now files st) = inl tasks →
  uploadFiles_settled options (map t_entry tasks) st' = Result [] st' (inl tt).
Proof.
  intros Hrun. apply settled_silent. revert Hrun. unfold uploadFiles.
  destruct (bool_decide (opt_maxFiles options ≤ length snapshot)%nat).
  { rewrite run_bind, notify_run. cbn [outcome trace final].
    destruct (onUploadError options) as [cb|]; [destruct (cb _)|];
      simpl; intros [= <-]; constructor. }
  destruct (validate options files) as [validFiles errors].
  rewrite run_bind.
  set (report := if bool_decide (0 < length errors)%nat then _ else _).
  destruct (outcome (report st)) as [[]|e]; [|discriminate].
  cbn [outcome after].
  destruct (bool_decide (length (take _ validFiles) = 0)%nat).
  { simpl. intros [= <-]. constructor. }
  rewrite run_bind.
  match goal with
  | |- context [make_extended now 0 ?l ?s] =>
      destruct (make_extended_entries now l 0 s) as (ext & Hext & _ & _ & Hall)
  end.
  rewrite Hext. cbn [outcome trace final after]. rewrite run_bind.
  cbn [modify outcome trace final after].
  match goal with
  | |- context [start_all ext ?s] =>
      destruct (start_all_entries ext s) as (t & tasks' & Hstart & Hentries)
  end.
  rewrite Hstart. cbn [outcome after]. intros [= <-]. by rewrite Hentries.
Qed.

(** *** Validation *)

Lemma includes_spec l x : includes l x = true ↔ x ∈ l.
Proof. unfold includes. apply bool_decide_eq_true. Qed.

Lemma validateFile_accepts (g : File) :
  validateFile g = None ↔
  N.leb (size g) MAX_FILE_SIZE = true ∧ includes ALLOWED_FILE_TYPES (type g) = true.
Proof.
  unfold validateFile. rewrite N.ltb_antisym.
  destruct (N.leb (size g) MAX_FILE_SIZE); simpl; [|split; [done|by intros []]].
  destruct (includes ALLOWED_FILE_TYPES (type g)); simpl; [done|].
  split; [done|by intros []].
Qed.

(** X26.  [uploadFiles] accepts a candidate exactly when its type is in
    the [allowedTypes] of the options, its size is at most 5 MB and its
    type is also in the built-in list of image types: the option can
    narrow the accepted types but cannot add any other.  The valid
    files keep their order, and every other candidate gives one line of
    the error. *)
Theorem validate_accepts files :
  (validate options files).1 = List.filter (accepted options) files
  ∧ length (validate options files).2 =
      length (List.filter (λ g : File, negb (accepted options g)) files)
  ∧ (∀ g : File, g ∈ (validate options files).1 →
       type g ∈ opt_allowedTypes options
       ∧ type g ∈ ALLOWED_FILE_TYPES
       ∧ (size g ≤ MAX_FILE_SIZE)%N).
Proof.
  assert (H : (validate options files).1 = List.filter (accepted options) files
              ∧ length (validate options files).2 =
                length (List.filter (λ g : File, negb (accepted options g)) files)).
  { induction files as [|g l [IH1 IH2]]; [done|]. simpl.
    destruct (validate options l) as [valid errors]. simpl in IH1, IH2.
    destruct (includes (opt_allowedTypes options) (type g)) eqn:Hi; simpl.
    - destruct (validateFile g) as [error|] eqn:Hv.
      + assert (Hacc : accepted options g = false).
        { unfold accepted. rewrite Hi. simpl.
          apply not_true_is_false. intros [H1 H2]%andb_prop.
          by rewrite (proj2 (validateFile_accepts g)) in Hv. }
        rewrite Hacc. simpl. by rewrite IH2.
      + assert (Hacc : accepted options g = true).
        { unfold accepted. rewrite Hi. simpl.
          by apply validateFile_accepts in Hv as [-> ->]. }
        rewrite Hacc. simpl. by rewrite IH1.
    - assert (Hacc : accepted options g = false)
        by (unfold accepted; by rewrite Hi).
      rewrite Hacc. simpl. by rewrite IH2. }
  destruct H as [H1 H2]. split; [exact H1|]. split; [exact H2|].
  intros g. rewrite H1, list_elem_of_In, filter_In. intros [_ Hacc].
  unfold accepted in Hacc.
  apply andb_prop in Hacc as [[Ha Hs]%andb_prop Hb].
  split; [by apply includes_spec|]. split; [by apply includes_spec|].
  by apply N.leb_le.
Qed.

(** *** The identifiers of the batch *)

(** What [ids_distinct] depends on. *)
Local Abbreviation ids_view := (λ st : HookState,
  (map uploadId (uploadedFiles st), uploadCounterRef st)).

Lemma ids_distinct_view st st' :
  ids_view st' = ids_view st → ids_distinct st → ids_distinct st'.
Proof.
  intros [= Hids Hc] [Hnd Hall]. unfold ids_distinct. rewrite Hids, Hc.
  split; [done|].
  rewrite Forall_forall in Hall. apply Forall_forall. intros f Hf.
  assert (Hin : uploadId f ∈ map uploadId (uploadedFiles st'))
    by (by apply (list_elem_of_fmap_2 uploadId)).
  rewrite Hids in Hin. apply list_elem_of_fmap in Hin as (g & -> & Hg).
  by apply Hall.
Qed.

(** Aborting the controllers of the entries that satisfy [p]. *)
Lemma abort_where_run (p : IExtendedFile → bool) l : ∀ st,
  let r := for_each
             (λ f, if p f then abort_opt (uploadAbortController f) else ret tt) l st in
  trace r = [] ∧ outcome r = inl tt
  ∧ uploadedFiles (final r) = uploadedFiles st
  ∧ uploadCounterRef (final r) = uploadCounterRef st
  ∧ aborted st ⊆ aborted (final r)
  ∧ (∀ f c, f ∈ l → p f = true → uploadAbortController f = Some c →
       c ∈ aborted (final r)).
Proof.
  induction l as [|f l IH]; intros st; simpl.
  - repeat split; [done|]. intros f c Hf. by apply elem_of_nil in Hf.
  - rewrite run_bind.
    set (body := if p f then abort_opt (uploadAbortController f) else ret tt).
    assert (Hb : ∃ st1, body st = Result [] st1 (inl tt)
                        ∧ uploadedFiles st1 = uploadedFiles st
                        ∧ uploadCounterRef st1 = uploadCounterRef st
                        ∧ aborted st ⊆ aborted st1
                        ∧ (∀ c, p f = true →
                             uploadAbortController f = Some c → c ∈ aborted st1)).
    { subst body. destruct (p f).
      - rewrite abort_opt_run. eexists; split; [done|].
        destruct (uploadAbortController f) as [c|]; simpl.
        + repeat split; [set_solver|]. intros c' _ [= <-]. set_solver.
        + repeat split; done.
      - exists st. repeat split; done. }
    destruct Hb as (st1 & -> & Hfiles & Hcount & Hsub & Hc). simpl.
    destruct (IH st1) as (Ht & Ho & Hf1 & Hc1 & Hsub1 & Hab).
    rewrite Ht, Ho. repeat split; [congruence | congruence | set_solver |].
    intros g c [->|Hg]%elem_of_cons Hp Hctl.
    + apply Hsub1. by apply Hc.
    + by apply (Hab g).
Qed.

Lemma cancelUpload_final id st :
  uploadedFiles (final (cancelUpload id st)) =
    List.filter (λ f, negb (to_cancel id f)) (uploadedFiles st)
  ∧ uploadCounterRef (final (cancelUpload id st)) = uploadCounterRef st.
Proof.
  unfold cancelUpload. rewrite run_bind; simpl. rewrite run_bind.
  destruct (abort_where_run (to_cancel id) (uploadedFiles st) st)
    as (Ht & Ho & Hf & Hc & _).
  rewrite Ho; simpl. by rewrite Hf, Hc.
Qed.

Lemma clearAllFiles_run snapshot st :
  let r := clearAllFiles snapshot st in
  trace r = [] ∧ outcome r = inl tt
  ∧ uploadedFiles (final r) = []
  ∧ uploadCounterRef (final r) = uploadCounterRef st
  ∧ aborted st ⊆ aborted (final r)
  ∧ (∀ f c, f ∈ snapshot → truthy_bool (isUploading f) = true →
       uploadAbortController f = Some c → c ∈ aborted (final r)).
Proof.
  unfold clearAllFiles. rewrite run_bind.
  destruct (abort_where_run (λ f, truthy_bool (isUploading f)) snapshot st)
    as (Ht & Ho & Hf & Hc & Hsub & Hab).
  rewrite Ho; simpl. rewrite Ht. by repeat split.
Qed.

Lemma sublist_map {A B} (g : A → B) (l k : list A) :
  l `sublist_of` k → map g l `sublist_of` map g k.
Proof. induction 1; simpl; by constructor. Qed.

Lemma filter_sublist {A} (b : A → bool) (l : list A) : List.filter b l `sublist_of` l.
Proof.
  induction l as [|x l IH]; simpl; [constructor|].
  destruct (b x); by constructor.
Qed.

Lemma ids_distinct_sublist st st' :
  uploadedFiles st' `sublist_of` uploadedFiles st →
  uploadCounterRef st' = uploadCounterRef st →
  ids_distinct st → ids_distinct st'.
Proof.
  intros Hsub Hc [Hnd Hall]. split.
  - eapply sublist_NoDup; [exact Hnd|]. by apply sublist_map.
  - rewrite Hc. rewrite Forall_forall in Hall. apply Forall_forall.
    intros f Hf. apply Hall. by eapply elem_of_sublist.
Qed.

Lemma change_entries_ids id g files :
  (∀ f, uploadId f = id → uploadId (g f) = uploadId f) →
  map uploadId (change_entries id g files) = map uploadId files.
Proof.
  intros Hid. unfold change_entries. rewrite map_map. apply map_ext. intros f.
  case_bool_decide; [by apply Hid|done].
Qed.

Lemma updateFile_keeps_ids id updates :
  set_uploadId updates = None ∨ set_uploadId updates = Some id →
  keeps ids_view (updateFile id updates).
Proof.
  intros Hu st. rewrite updateFile_run. cbn [final uploadedFiles setUploadedFiles
    uploadCounterRef]. f_equal.
  rewrite update_entries_change. apply change_entries_ids. intros f Hf.
  unfold spread. cbn [uploadId]. by destruct Hu as [->| ->].
Qed.

Lemma resume_keeps_ids gid task : keeps ids_view (resume options gid task).
Proof.
  unfold resume. destruct (t_pc task) as [progress|]; [|apply keeps_ret].
  apply keeps_bind; [|intros pc; apply keeps_ret].
  apply keeps_try_catch.
  - apply keeps_bind.
    + unfold uploadFile_turn. apply keeps_bind.
      * apply keeps_bind; [apply updateFile_keeps_ids; by left|intros _].
        apply keeps_notify.
      * intros _. destruct (bool_decide _); [|apply keeps_ret].
        apply keeps_bind; [apply keeps_emit|intros _; apply keeps_ret].
    + intros [progress'|result]; [apply keeps_ret|].
      destruct (success result); [|apply keeps_throw].
      destruct (data result); [|apply keeps_throw].
      apply keeps_bind; [apply updateFile_keeps_ids; by left|intros _].
      apply keeps_ret.
  - intros e. unfold upload_failed.
    apply keeps_bind; [apply updateFile_keeps_ids; by left|intros _].
    apply keeps_bind; [apply keeps_notify|intros _; apply keeps_ret].
Qed.

(** The state that [uploadFiles] leaves. *)
Lemma uploadFiles_final snapshot now files st :
  final (uploadFiles options snapshot now files st) = st
  ∨ ∃ extended,
      final (uploadFiles options snapshot now files st) =
        {| uploadedFiles := uploadedFiles st ++ extended;
           uploadCounterRef := (uploadCounterRef st + length extended)%nat;
           aborted := aborted st;
           controllers := (controllers st + length extended)%nat |}
      ∧ map (λ f, uid_counter (uploadId f)) extended =
          seq (S (uploadCounterRef st)) (length extended).
Proof.
  unfold uploadFiles.
  destruct (bool_decide (opt_maxFiles options ≤ length snapshot)%nat).
  { left. rewrite run_bind, notify_run. cbn [outcome trace final].
    by destruct (onUploadError options) as [cb|]; [destruct (cb _)|]. }
  destruct (validate options files) as [validFiles errors].
  rewrite run_bind.
  set (report := if bool_decide (0 < length errors)%nat then _ else _).
  assert (Hreport : final (report st) = st).
  { subst report. destruct (bool_decide _); [|done]. apply notify_final. }
  destruct (outcome (report st)) as [[]|e]; [|by left].
  cbn [final after]. rewrite Hreport.
  destruct (bool_decide (length (take _ validFiles) = 0)%nat); [by left|].
  right. rewrite run_bind.
  match goal with
  | |- context [make_extended now 0 ?l st] =>
      destruct (make_extended_entries now l 0 st) as (ext & Hext & Hf & Hids & _);
      assert (Hlen : length l = length ext) by (by rewrite <- Hf, length_map)
  end.
  rewrite Hext. cbn [outcome trace final after]. rewrite run_bind.
  cbn [modify outcome trace final after].
  match goal with
  | |- context [start_all ext ?s] =>
      destruct (start_all_entries ext s) as (t & tasks' & Hstart & _)
  end.
  rewrite Hstart. cbn [final after]. exists ext.
  rewrite Hlen in Hids. split; [|exact Hids].
  unfold setUploadedFiles. cbn [uploadedFiles uploadCounterRef aborted controllers].
  by rewrite Hlen.
Qed.

Lemma deleteFile_final index st :
  uploadedFiles (final (deleteFile index st)) =
    (if bool_decide (0 ≤ index) then delete (Z.to_nat index) (uploadedFiles st)
     else uploadedFiles st)
  ∧ uploadCounterRef (final (deleteFile index st)) = uploadCounterRef st
  ∧ controllers (final (deleteFile index st)) = controllers st
  ∧ outcome (deleteFile index st) = inl tt
  ∧ trace (deleteFile index st) = []
  ∧ aborted (final (deleteFile index st)) =
      match (if bool_decide (0 ≤ index) then uploadedFiles st !! Z.to_nat index
             else None) with
      | Some f =>
          if truthy_bool (isUploading f) then
            match uploadAbortController f with
            | Some c => {[ c ]} ∪ aborted st
            | None => aborted st
            end
          else aborted st
      | None => aborted st
      end.
Proof.
  unfold deleteFile. rewrite run_bind. cbn [get outcome trace final].
  rewrite after_nil, run_bind.
  destruct (if bool_decide (0 ≤ index) then uploadedFiles st !! Z.to_nat index
            else None) as [f|]; [|done].
  destruct (truthy_bool (isUploading f)); [|done].
  rewrite abort_opt_run. by destruct (uploadAbortController f).
Qed.

(** X27.  The identifiers of the batch stay distinct: when they are
    distinct and were made by the hook, they still are after
    [uploadFiles], whose new entries get identifiers that no entry has,
    after any turn of an upload task, and after [retryUpload],
    [cancelUpload], [deleteFile] and [clearAllFiles], also when these are
    called with an outdated batch. *)
Theorem upload_ids_stay_distinct snapshot now files gid task id index st :
  ids_distinct st →
  ids_distinct (final (uploadFiles options snapshot now files st))
  ∧ ids_distinct (final (resume options gid task st))
  ∧ ids_distinct (final (retryUpload snapshot id st))
  ∧ ids_distinct (final (cancelUpload id st))
  ∧ ids_distinct (final (deleteFile index st))
  ∧ ids_distinct (final (clearAllFiles snapshot st)).
Proof.
  intros Hst. split; [|split; [|split; [|split; [|split]]]].
  - destruct (uploadFiles_final snapshot now files st) as [->|(ext & -> & Hids)];
      [done|].
    destruct Hst as [Hnd Hall]. split; cbn [uploadedFiles uploadCounterRef].
    + rewrite map_app. apply NoDup_app. split; [done|]. split.
      * intros i Hi Hnew.
        apply list_elem_of_fmap in Hi as (f & -> & Hf).
        apply list_elem_of_fmap in Hnew as (g & Hg & Hgin).
        rewrite Forall_forall in Hall. pose proof (Hall f Hf) as Hle.
        assert (Hin : uid_counter (uploadId g) ∈
                      map (λ f, uid_counter (uploadId f)) ext)
          by (by apply (list_elem_of_fmap_2 (λ f, uid_counter (uploadId f)))).
        rewrite Hids in Hin. apply elem_of_seq in Hin. rewrite Hg in Hle. lia.
      * apply (NoDup_fmap_1 uid_counter).
        rewrite <- list_fmap_compose.
        change (uid_counter ∘ uploadId <$> ext)
          with (map (λ f, uid_counter (uploadId f)) ext).
        rewrite Hids. apply NoDup_seq.
    + apply Forall_app. split.
      * eapply Forall_impl; [exact Hall|]. intros f Hf. simpl in *. lia.
      * apply Forall_forall. intros g Hg.
        assert (Hin : uid_counter (uploadId g) ∈
                      map (λ f, uid_counter (uploadId f)) ext)
          by (by apply (list_elem_of_fmap_2 (λ f, uid_counter (uploadId f)))).
        rewrite Hids in Hin. apply elem_of_seq in Hin. lia.
  - apply (ids_distinct_view st); [apply resume_keeps_ids|done].
  - apply (ids_distinct_view st); [|done]. rewrite retryUpload_run.
    destruct (List.find _ snapshot) as [f0|] eqn:Hfind; [|done].
    apply find_some in Hfind as [_ Hid]. apply bool_decide_eq_true in Hid.
    cbv zeta.
    destruct (bool_decide (controllers st ∈ aborted st));
      cbn [final uploadedFiles uploadCounterRef]; f_equal;
      rewrite update_entries_change; apply change_entries_ids; intros f Hf;
      unfold spread; simpl; congruence.
  - destruct (cancelUpload_final id st) as (Hfiles & Hc).
    apply (ids_distinct_sublist st); [|done|done].
    rewrite Hfiles. apply filter_sublist.
  - destruct (deleteFile_final index st) as (Hfiles & Hc & _).
    apply (ids_distinct_sublist st); [|done|done]. rewrite Hfiles.
    destruct (bool_decide (0 ≤ index)); [apply sublist_delete|done].
  - destruct (clearAllFiles_run snapshot st) as (_ & _ & Hfiles & Hc & _).
    apply (ids_distinct_sublist st); [|done|done].
    rewrite Hfiles. apply sublist_nil_l.
Qed.

(** *** Deleting and clearing *)

Lemma delete_past {A} (l : list A) i : (length l ≤ i)%nat → delete i l = l.
Proof.
  revert i. induction l as [|x l IH]; intros [|i] Hi; simpl in *; try done; [lia|].
  f_equal. apply IH. lia.
Qed.

(** X28.  [deleteFile] with an index that is negative or past the end
    does nothing at all; with the index of an entry it takes exactly
    that entry out, leaving the others in order, and aborts the
    controller of the entry when the entry is uploading, and no other
    controller. *)
Theorem deleteFile_effect index st :
  let r := deleteFile index st in
  let files := uploadedFiles st in
  outcome r = inl tt
  ∧ (index < 0 ∨ Z.of_nat (length files) ≤ index → final r = st)
  ∧ (∀ f, 0 ≤ index → files !! Z.to_nat index = Some f →
       uploadedFiles (final r) = delete (Z.to_nat index) files
       ∧ S (length (uploadedFiles (final r))) = length files
       ∧ (truthy_bool (isUploading f) = true →
          ∀ c, uploadAbortController f = Some c →
               aborted (final r) = {[ c ]} ∪ aborted st)
       ∧ (truthy_bool (isUploading f) = false → aborted (final r) = aborted st)).
Proof.
  intros r files.
  destruct (deleteFile_final index st) as (Hfiles & Hc & Hk & Ho & _ & Hab).
  fold r in Hfiles, Hc, Hk, Ho, Hab. fold files in Hfiles, Hab.
  split; [exact Ho|]. split.
  - intros Hout.
    assert (Hnone : (if bool_decide (0 ≤ index) then files !! Z.to_nat index
                     else None) = None).
    { case_bool_decide; [|done]. apply lookup_ge_None. lia. }
    assert (Hsame : (if bool_decide (0 ≤ index) then delete (Z.to_nat index) files
                     else files) = files).
    { case_bool_decide; [|done]. apply delete_past. lia. }
    rewrite Hnone in Hab. rewrite Hsame in Hfiles. subst files. clearbody r.
    destruct (final r), st. simpl in *. congruence.
  - intros f Hpos Hf. rewrite bool_decide_true in Hfiles, Hab by done.
    rewrite Hf in Hab. split; [exact Hfiles|]. split.
    + rewrite Hfiles, length_delete by done.
      apply lookup_lt_Some in Hf. lia.
    + split.
      * intros Hup c Hctl. by rewrite Hab, Hup, Hctl.
      * intros Hup. by rewrite Hab, Hup.
Qed.

Lemma resume_entry gid task st t :
  outcome (resume options gid task st) = inl t → t_entry t = t_entry task.
Proof.
  unfold resume. destruct (t_pc task) as [progress|]; [|by intros [= <-]].
  rewrite run_bind. destruct (outcome (try_catch _ _ st)); [|done].
  by intros [= <-].
Qed.

Lemma resume_times_empty gid n : ∀ task st,
  uploadedFiles st = [] →
  final (resume_times options n gid task st) = st.
Proof.
  induction n as [|n IH]; intros task st Hst; [done|].
  cbn [resume_times]. rewrite run_bind.
  assert (Hfin : final (resume options gid task st) = st).
  { apply resume_absent. rewrite Hst. intros f Hf. by apply elem_of_nil in Hf. }
  destruct (outcome (resume options gid task st)) as [t|e]; [|exact Hfin].
  cbn [final after]. rewrite Hfin. by apply IH.
Qed.

(** X29.  [clearAllFiles] empties the batch and aborts the controller of
    every entry of the batch it was given that is uploading.  The upload
    tasks that are still running then change nothing: whatever number of
    turns they take, the state of the hook stays as [clearAllFiles] left
    it, with an empty batch. *)
Theorem cleared_batch_stays_empty snapshot gid task n st :
  let r := clearAllFiles snapshot st in
  outcome r = inl tt
  ∧ uploadedFiles (final r) = []
  ∧ (∀ f c, f ∈ snapshot → truthy_bool (isUploading f) = true →
       uploadAbortController f = Some c → c ∈ aborted (final r))
  ∧ final (resume_times options n gid task (final r)) = final r.
Proof.
  intros r. destruct (clearAllFiles_run snapshot st) as (_ & Ho & Hf & _ & _ & Hab).
  fold r in Ho, Hf, Hab.
  split; [exact Ho|]. split; [exact Hf|]. split; [exact Hab|].
  by apply resume_times_empty.
Qed.

End UploadBatchFacts.

(** ** Uploads on the example inputs *)

Section UploadRunExamples.
Import UseFileUpload UploadSpec UploadExamples UploadFailureExamples.

Lemma upload_runs_to_completion_witness :
  outcome uploaded = inl {| t_entry := photo_entry; t_pc := Finished |}
  ∧ progress_of (trace uploaded) = map (λ p, (photo_id, p)) percentages
  ∧ upload_errors_of (trace uploaded) = []
  ∧ uploadedFiles (final uploaded) = [uploaded_entry].
Proof.
  destruct (upload_runs_to_completion options "g1" photo_entry (final one_started))
    as (H1 & H2 & H3 & H4 & _); [by intros cb p [= <-]|].
  split; [exact H1|]. split; [exact H2|]. split; [exact H3|].
  etransitivity; [exact H4|]. reflexivity.
Defined.

Lemma progress_callback_failure_fails_upload_witness :
  let r := resume fragile_options "g1"
             {| t_entry := photo_entry; t_pc := AtProgress 30 |} (final one_started) in
  uploadedFiles (final r) = [failed_at 30 "cannot render" photo_entry]
  ∧ progress_of (trace r) = [(photo_id, 30)]
  ∧ upload_errors_of (trace r) = [JsError "Error" "cannot render"]
  ∧ outcome r = inl {| t_entry := photo_entry; t_pc := Finished |}.
Proof.
  intros r.
  destruct (progress_callback_failure_fails_upload fragile_options "g1" photo_entry 30
              (λ report, if bool_decide (report.2 = 30)
                         then Some (JsError "Error" "cannot render") else None)
              (JsError "Error" "cannot render") (final one_started))
    as (H1 & H2 & H3 & _ & H5); [reflexivity|reflexivity|].
  split; [etransitivity; [exact H1|reflexivity]|]. split; [exact H2|].
  split; [exact H3|]. apply H5. by intros cb [= <-].
Defined.

Lemma completion_callback_is_never_invoked_witness :
  outcome one_started = inl [photo_task]
  ∧ uploadFiles_settled options [photo_entry] (final uploaded) =
      Result [] (final uploaded) (inl tt).
Proof.
  assert (H : outcome one_started = inl [photo_task]) by reflexivity.
  split; [exact H|].
  exact (completion_callback_is_never_invoked options [] clock [photo 1] initial
           [photo_task] (final uploaded) H).
Defined.

Lemma upload_ids_stay_distinct_witness :
  ids_distinct (final one_started)
  ∧ ids_distinct
      (final (uploadFiles options (uploadedFiles (final one_started)) clock
                [photo 2; photo 3] (final one_started)))
  ∧ ids_distinct (final (cancelUpload photo_id (final one_started))).
Proof.
  assert (H : ids_distinct (final one_started)).
  { split; simpl.
    - apply NoDup_singleton.
    - by repeat constructor. }
  destruct (upload_ids_stay_distinct options (uploadedFiles (final one_started))
              clock [photo 2; photo 3] "g1" photo_task photo_id 0
              (final one_started) H) as (H1 & _ & _ & H4 & _).
  split; [exact H|]. split; [exact H1|exact H4].
Defined.

End UploadRunExamples.
